(** * KIMCHI: the flight-mode state machine and its collision checks

    A shallow embedding of [app/scripts/kimchi.flight.js] and
    [app/scripts/kimchi.space.Body.js].

    JavaScript numbers are IEEE 754 binary64 values, so they are modelled by
    Rocq's primitive [float]: [+], [*], [/], [<] and [===] on numbers are the
    primitive operations, and every concrete evaluation below rounds exactly
    as the browser does.  Objects that the code mutates live in one [World]
    record that is threaded through every call; a call that throws keeps the
    world as it was at the point of the throw.  Calls into collaborators
    whose state the flight code never reads back (jQuery, the HUD, the clock,
    the renderer's scheduler) are recorded in a trace. *)

From Stdlib Require Import ZArith List Bool Lia Floats.
From stdpp Require Import gmap strings.
Import ListNotations.

Set Warnings "-inexact-float".
Local Open Scope string_scope.

(** ** three.js values *)

Record Vector3 := mkVector3 { vx : float; vy : float; vz : float }.

Record Quaternion := mkQuaternion { qx : float; qy : float; qz : float; qw : float }.

(** The part of a [THREE.Object3D] the flight code touches. *)
Record Object3D := mkObject3D {
  o_name : string;
  position : Vector3;
  quaternion : Quaternion;
  scale : Vector3
}.

(** [Vector3.prototype.length]: [Math.sqrt(x*x + y*y + z*z)]. *)
Definition Vector3_length (v : Vector3) : float :=
  PrimFloat.sqrt (vx v * vx v + vy v * vy v + vz v * vz v)%float.

(** ** Bodies ([kimchi.space.Body.js]) *)

Record Body := mkBody {
  name : string;
  radiusInKm : float;
  radius : float;
  collideable : bool;
  main : Object3D;         (* this.object3Ds.main *)
  mesh : option Object3D   (* read by panTo as body.mesh; the constructor
                              below never assigns it *)
}.

(** The options object handed to the constructor; an absent property leaves
    the prototype's default in place ([_.assign(this, options)]). *)
Record BodyOptions := mkBodyOptions {
  opt_name : option string;
  opt_radiusInKm : option float;
  opt_collideable : option bool
}.

Definition Body_prototype_name : string := "".
Definition Body_prototype_radiusInKm : float := 0%float.
Definition Body_prototype_collideable : bool := true.

(** A fresh [THREE.Mesh]: at the origin, unrotated, scale (1, 1, 1). *)
Definition new_Mesh (n : string) : Object3D :=
  {| o_name := n;
     position := mkVector3 0 0 0;
     quaternion := mkQuaternion 0 0 0 1;
     scale := mkVector3 1 1 1 |}.

Section BodyConstructor.
(** [KIMCHI.constants.kmPerAu], defined in another file of the repository. *)
Variable kmPerAu : float.

Definition new_Body (options : BodyOptions) : Body :=
  let this_name := default Body_prototype_name (opt_name options) in
  let this_radiusInKm := default Body_prototype_radiusInKm (opt_radiusInKm options) in
  {| name := this_name;
     radiusInKm := this_radiusInKm;
     radius := (this_radiusInKm / kmPerAu)%float;
     collideable := default Body_prototype_collideable (opt_collideable options);
     main := new_Mesh this_name;
     mesh := None |}.
End BodyConstructor.

(** [scalePositionFromArray(position)], with the value of
    [KIMCHI.config.get('bodiesPositionScale')]. *)
Definition scalePositionFromArray (bodiesPositionScale : float)
    (p : Vector3) (b : Body) : Body :=
  let m := main b in
  mkBody (name b) (radiusInKm b) (radius b) (collideable b)
    (mkObject3D (o_name m)
       (mkVector3 (vx p * bodiesPositionScale) (vy p * bodiesPositionScale)
          (vz p * bodiesPositionScale))
       (quaternion m) (scale m))
    (mesh b).

Definition getScaledRadius (b : Body) : float :=
  (radius b * vx (scale (main b)))%float.

Definition getSurfaceCollisionDistance (b : Body) : float :=
  getScaledRadius b.

Definition getCollisionDistance (b : Body) : float :=
  (getScaledRadius b + getSurfaceCollisionDistance b)%float.

(** [Vector3.prototype.distanceTo]. *)
Definition Vector3_distanceTo (a b : Vector3) : float :=
  let dx := (vx a - vx b)%float in
  let dy := (vy a - vy b)%float in
  let dz := (vz a - vz b)%float in
  PrimFloat.sqrt (dx * dx + dy * dy + dz * dz)%float.

(** Modelled from the spec: [THREE.Object3D.getDistance], which KIMCHI adds
    to three.js in a file that is not among the sources; the spec has it as
    the Euclidean distance between the positions of the two objects. *)
Definition Object3D_getDistance (a b : Object3D) : float :=
  Vector3_distanceTo (position a) (position b).

Definition getDistance (b : Body) (object3D : Object3D) : float :=
  Object3D_getDistance (main b) object3D.

Definition getSurfaceDistance (b : Body) (object3D : Object3D) : float :=
  (Object3D_getDistance (main b) object3D - getScaledRadius b)%float.

Definition isColliding (b : Body) (object3D : Object3D) : bool :=
  (getDistance b object3D <? getCollisionDistance b)%float.

(** ** The Body registry, [KIMCHI.space]

    [kimchi.space.js] is not among the sources; the four queries the flight
    code calls are written from section 4.1 of the spec, over the Bodies in
    insertion order. *)

(** Modelled from the spec: [space.getCollideableBodies], the subset of the
    Bodies whose [collideable] flag is set. *)
Definition getCollideableBodies (bs : list Body) : list Body :=
  List.filter collideable bs.

(** Modelled from the spec: [space.getCollideableObject3Ds], one render
    object per collideable Body. *)
Definition getCollideableObject3Ds (bs : list Body) : list Object3D :=
  List.map main (getCollideableBodies bs).

(** Modelled from the spec: [space.getBody], which fails for an unknown
    name. *)
Definition getBody (bs : list Body) (n : string) : option Body :=
  List.find (fun b => String.eqb (name b) n) bs.

(** Modelled from the spec: [space.getClosestDistance], the minimum distance
    from the camera to any of the given Bodies, and positive infinity (the
    sentinel of sections 4.6 and 7) when there is none. *)
Definition getClosestDistance (bs : list Body) (cam : Object3D) : float :=
  List.fold_right
    (fun b closest =>
       let d := getDistance b cam in
       if (d <? closest)%float then d else closest)
    infinity bs.

(** ** Flight modes ([kimchi.flight.js]) *)

(** The function currently stored in a mode's [animationFrame] property.
    The two closures that auto flight installs capture the target [body].
    Nothing that runs in auto flight moves a Body's render object (its update
    moves the children only, and [flyTo] switches [time-on] off), so the
    captured reference is kept as the Body's value. *)
Inductive Frame :=
| Frame_prototype                 (* Mode.prototype.animationFrame = function () {} *)
| Frame_free
| Frame_menu
| Frame_pan (body : Body)
| Frame_translate (body : Body).

Record Mode := mkMode {
  mode_name : string;
  enabled : bool;
  speed : float;
  animationFrame : Frame
}.

(** What an animation callback hands back to the renderer: [false] stops the
    loop, anything else ([undefined]) lets it continue. *)
Inductive Signal := Continue | Stop.

Inductive Event :=
| Call_enable (mode : string)          (* entry into mode.enable()  *)
| Call_disable (mode : string)         (* entry into mode.disable() *)
| Renderer_animate (mode : string)     (* KIMCHI.renderer.animate(callback) *)
| Console_log (message : string)
| Hud_show | Hud_hide
| Controls_enable | Controls_disable
| Document_on_keydown (mode : string)
| Document_off_keydown (mode : string)
| Notice_set (body : string) | Notice_clear
| Clock_stop | Clock_start
| Panel_update
| Overlay_show | Overlay_hide
| Time_increment
| Space_moveBodyChildren (delta : option float)
| Hud_update (delta : float) (shown_speed : float).

Record Config := mkConfig {
  time_on : bool;
  rotate_bodies : bool;
  controls_z_speed : float;
  controls_strafe_speed : float
}.

Record World := mkWorld {
  currentMode : string;
  modes : gmap string Mode;                 (* flight.modes *)
  panTo_initialQuaternion : Quaternion;     (* variables closed over by panTo *)
  panTo_targetQuaternion : Quaternion;
  panTo_t : float;
  camera : Object3D;                        (* KIMCHI.camera *)
  bodies : list Body;                       (* the Bodies held by KIMCHI.space *)
  controls_translation : Vector3;           (* KIMCHI.controls.getLocalTranslationVector() *)
  config : Config;                          (* KIMCHI.config *)
  log : list Event                          (* oldest event first *)
}.

Definition with_currentMode (n : string) (w : World) : World :=
  mkWorld n (modes w) (panTo_initialQuaternion w) (panTo_targetQuaternion w)
    (panTo_t w) (camera w) (bodies w) (controls_translation w) (config w) (log w).

Definition with_modes (f : gmap string Mode -> gmap string Mode) (w : World) : World :=
  mkWorld (currentMode w) (f (modes w)) (panTo_initialQuaternion w)
    (panTo_targetQuaternion w) (panTo_t w) (camera w) (bodies w)
    (controls_translation w) (config w) (log w).

Definition with_pan (q0 q1 : Quaternion) (t : float) (w : World) : World :=
  mkWorld (currentMode w) (modes w) q0 q1 t (camera w) (bodies w)
    (controls_translation w) (config w) (log w).

Definition with_camera (f : Object3D -> Object3D) (w : World) : World :=
  mkWorld (currentMode w) (modes w) (panTo_initialQuaternion w)
    (panTo_targetQuaternion w) (panTo_t w) (f (camera w)) (bodies w)
    (controls_translation w) (config w) (log w).

Definition with_bodies (f : list Body -> list Body) (w : World) : World :=
  mkWorld (currentMode w) (modes w) (panTo_initialQuaternion w)
    (panTo_targetQuaternion w) (panTo_t w) (camera w) (f (bodies w))
    (controls_translation w) (config w) (log w).

Definition with_config (f : Config -> Config) (w : World) : World :=
  mkWorld (currentMode w) (modes w) (panTo_initialQuaternion w)
    (panTo_targetQuaternion w) (panTo_t w) (camera w) (bodies w)
    (controls_translation w) (f (config w)) (log w).

Definition with_log (f : list Event -> list Event) (w : World) : World :=
  mkWorld (currentMode w) (modes w) (panTo_initialQuaternion w)
    (panTo_targetQuaternion w) (panTo_t w) (camera w) (bodies w)
    (controls_translation w) (config w) (f (log w)).

(** *** Calls that may throw *)

Inductive completion (A : Type) : Type :=
| Normal (a : A)
| Thrown.
Arguments Normal {A} a.
Arguments Thrown {A}.

Definition M (A : Type) : Type := World -> completion A * World.

Definition ret {A} (a : A) : M A := fun w => (Normal a, w).
Definition throw {A} : M A := fun w => (Thrown, w).
Definition bind {A B} (m : M A) (k : A -> M B) : M B :=
  fun w =>
    match m w with
    | (Normal a, w') => k a w'
    | (Thrown, w') => (Thrown, w')
    end.
Definition get : M World := fun w => (Normal w, w).
Definition modify (f : World -> World) : M unit := fun w => (Normal tt, f w).
Definition emit (e : Event) : M unit := modify (with_log (fun l => (l ++ [e])%list)).

Declare Scope js_scope.
Delimit Scope js_scope with js.
Notation "x <- m ;; k" := (bind m (fun x => k))
  (at level 100, m at level 99, k at level 200, right associativity) : js_scope.
Notation "m ;; k" := (bind m (fun _ => k))
  (at level 100, k at level 200, right associativity) : js_scope.
Local Open Scope js_scope.

(** *** [Mode.prototype] *)

Definition set_enabled (b : bool) (m : Mode) : Mode :=
  mkMode (mode_name m) b (speed m) (animationFrame m).
Definition set_speed (s : float) (m : Mode) : Mode :=
  mkMode (mode_name m) (enabled m) s (animationFrame m).
Definition set_animationFrame (f : Frame) (m : Mode) : Mode :=
  mkMode (mode_name m) (enabled m) (speed m) f.

(** [animate] hands a callback to the renderer, which calls it on later
    ticks; nothing of it runs inside [animate] itself. *)
Definition Mode_prototype_animate (this : string) : M unit :=
  emit (Renderer_animate this).

Definition Mode_prototype_enable (this : string) : M unit :=
  modify (with_modes (alter (set_enabled true) this)) ;;
  Mode_prototype_animate this.

Definition Mode_prototype_disable (this : string) : M unit :=
  modify (with_modes (alter (set_enabled false) this)).

Definition free_enable : M unit :=
  Mode_prototype_enable "free" ;; emit Hud_show ;; emit Controls_enable.
Definition free_disable : M unit :=
  Mode_prototype_disable "free" ;; emit Controls_disable ;; emit Hud_hide.

Definition auto_enable : M unit :=
  Mode_prototype_enable "auto" ;; emit (Document_on_keydown "auto").
Definition auto_disable : M unit :=
  Mode_prototype_disable "auto" ;; emit Notice_clear ;;
  emit (Document_off_keydown "auto").

Definition menu_enable : M unit :=
  Mode_prototype_enable "menu" ;; emit Clock_stop ;; emit Panel_update ;;
  emit Overlay_show ;; emit (Document_on_keydown "menu").
Definition menu_disable : M unit :=
  Mode_prototype_disable "menu" ;; emit Overlay_hide ;; emit Clock_start ;;
  emit (Document_off_keydown "menu").

(** Method lookup on the mode stored under [this]: each of the three modes
    carries its own [enable] and [disable], which shadow the prototype's. *)
Definition enable (this : string) : M unit :=
  emit (Call_enable this) ;;
  if decide (this = "free") then free_enable
  else if decide (this = "auto") then auto_enable
  else if decide (this = "menu") then menu_enable
  else Mode_prototype_enable this.

Definition disable (this : string) : M unit :=
  emit (Call_disable this) ;;
  if decide (this = "free") then free_disable
  else if decide (this = "auto") then auto_disable
  else if decide (this = "menu") then menu_disable
  else Mode_prototype_disable this.

(** [toggle(enable)]: the argument is [Some b] when [typeof enable] is
    ['boolean'] and [None] for anything else, [undefined] included. *)
Definition toggle (this : string) (arg : option bool) : M unit :=
  w <- get ;;
  match modes w !! this with
  | None => throw
  | Some m =>
      match arg with
      | Some true => enable this
      | Some false => disable this
      | None => if enabled m then enable this else disable this
      end
  end.

(** *** [flight.getMode], [flight.setMode] *)

Definition getMode : M string := w <- get ;; ret (currentMode w).

(** [flight.modes[prevName]] is an object exactly for the three keys of
    [modes]; [flight.modes[name].enable()] throws a [TypeError] for every
    other [name], whether the lookup yields [undefined] or something
    inherited from [Object.prototype] that has no [enable]. *)
Definition setMode (name : string) : M unit :=
  w <- get ;;
  let prevName := currentMode w in
  if decide (prevName = name) then ret tt
  else
    (match modes w !! prevName with
     | Some _ => disable prevName
     | None => ret tt
     end) ;;
    w1 <- get ;;
    (match modes w1 !! name with
     | Some _ => enable name
     | None => throw
     end) ;;
    modify (with_currentMode name) ;;
    emit (Console_log
            ("flight mode changed from " ++ prevName ++ " to " ++ name)%string).

(** The module as it stands once [kimchi.flight.js] has been loaded. *)
Definition initial_modes : gmap string Mode :=
  <["menu" := mkMode "menu" false 0 Frame_menu]>
  (<["auto" := mkMode "auto" false 0 Frame_prototype]>
  (<["free" := mkMode "free" false 0 Frame_free]> ∅)).

Definition initial (cam : Object3D) (bs : list Body) (tv : Vector3)
    (cfg : Config) : World :=
  {| currentMode := "";
     modes := initial_modes;
     panTo_initialQuaternion := mkQuaternion 0 0 0 1;
     panTo_targetQuaternion := mkQuaternion 0 0 0 1;
     panTo_t := 0;
     camera := cam;
     bodies := bs;
     controls_translation := tv;
     config := cfg;
     log := [] |}.

(** A caller that issues [setMode] calls one after the other, going on after
    a call that threw. *)
Fixpoint setModes (names : list string) (w : World) : World :=
  match names with
  | [] => w
  | n :: rest => setModes rest (snd (setMode n w))
  end.

Definition mode_names : list string := ["free"; "auto"; "menu"].

Definition is_enabled (n : string) (w : World) : bool :=
  match modes w !! n with
  | Some m => enabled m
  | None => false
  end.

Definition at_most_one_enabled (w : World) : Prop :=
  forall a b, is_enabled a w = true -> is_enabled b w = true -> a = b.

(** *** [flight.getTranslationSpeedMultiplier], [flight.getSpeed] *)

(** [bodies] is [None] when the argument is [undefined]. *)
Definition getTranslationSpeedMultiplier (bodies_arg : option (list Body)) : M float :=
  w <- get ;;
  let bs := match bodies_arg with
            | None => getCollideableBodies (bodies w)
            | Some bs => bs
            end in
  ret (getClosestDistance bs (camera w)).

Definition getSpeed : M float :=
  w <- get ;;
  match modes w !! currentMode w with
  | Some m => ret (speed m)
  | None => throw
  end.

(** [KIMCHI.ui.hud.update]: the HUD shows [flight.getSpeed()]. *)
Definition hud_update (delta : float) : M unit :=
  s <- getSpeed ;;
  emit (Hud_update delta s).

(** A hit reported by [THREE.Raycaster]. *)
Record Intersect := mkIntersect { object : Object3D; distance : float }.

Definition Vector3_sub (a b : Vector3) : Vector3 :=
  mkVector3 (vx a - vx b) (vy a - vy b) (vz a - vz b).

(** The body of the [_.each] loop in [colliding]; returning [false] from the
    callback leaves the loop. *)
Fixpoint each_intersect (bs : list Body) (intersects : list Intersect) : M bool :=
  match intersects with
  | [] => ret false
  | intersect :: rest =>
      match getBody bs (o_name (object intersect)) with
      | None => throw
      | Some body =>
          if (distance intersect <? getCollisionDistance body)%float
          then ret true
          else each_intersect bs rest
      end
  end.

Section Flight.
(** three.js, and the KIMCHI modules that are not among the sources, enter
    as parameters. *)

(** [raycaster.set(origin, direction); raycaster.intersectObjects(objects)] *)
Variable intersectObjects : Vector3 -> Vector3 -> list Object3D -> list Intersect.
(** [object3D.localToWorld(vector)] *)
Variable localToWorld : Object3D -> Vector3 -> Vector3.
(** [q0.clone().slerp(q1, t)] *)
Variable slerp : Quaternion -> Quaternion -> float -> Quaternion.
(** [rotationMatrix.lookAt(eye, target, up)] followed by
    [targetQuaternion.setFromRotationMatrix(rotationMatrix)], for the
    camera as the eye *)
Variable lookAt : Object3D -> Vector3 -> Quaternion.
(** [object3D.translateZ(distance)] *)
Variable translateZ : float -> Object3D -> Object3D.
(** [KIMCHI.controls.moveCamera(delta, multiplier)], given the current
    local translation vector *)
Variable moveCamera : float -> float -> Vector3 -> Object3D -> Object3D.
(** [KIMCHI.space.translateBodies(delta)], [KIMCHI.space.rotateBodies(delta)] *)
Variable translateBodies : float -> list Body -> list Body.
Variable rotateBodies : float -> list Body -> list Body.

(** **** Free flight *)

(** The ray that [colliding] casts from the camera along the translation
    vector, and what it hits among the collideable objects. *)
Definition raycast (w : World) : list Intersect :=
  intersectObjects
    (position (camera w))
    (Vector3_sub (localToWorld (camera w) (controls_translation w))
                 (position (camera w)))
    (getCollideableObject3Ds (bodies w)).

Definition colliding : M bool :=
  w <- get ;;
  let translationVector := controls_translation w in
  if (Vector3_length translationVector =? 0)%float then ret false
  else
    let intersects := raycast w in
    if Nat.eqb (length intersects) 0 then ret false
    else each_intersect (bodies w) intersects.

Definition free_getSpeed (delta : float) : M float :=
  w <- get ;;
  let translation := controls_translation w in
  multiplier <- getTranslationSpeedMultiplier None ;;
  ret (Vector3_length
         (mkVector3
            (vx translation * controls_strafe_speed (config w))
            (vy translation * controls_strafe_speed (config w))
            (vz translation * controls_z_speed (config w)))
       * multiplier / delta)%float.

Definition free_animationFrame (this : string) (delta : float) : M Signal :=
  blocked <- colliding ;;
  (if blocked then ret tt
   else
     multiplier <- getTranslationSpeedMultiplier None ;;
     w <- get ;;
     modify (with_camera (moveCamera delta multiplier (controls_translation w))) ;;
     s <- free_getSpeed delta ;;
     modify (with_modes (alter (set_speed s) this))) ;;
  w <- get ;;
  (if time_on (config w)
   then emit Time_increment ;; modify (with_bodies (translateBodies delta))
   else ret tt) ;;
  (if rotate_bodies (config w)
   then modify (with_bodies (rotateBodies delta))
   else ret tt) ;;
  emit (Space_moveBodyChildren (Some delta)) ;;
  hud_update delta ;;
  ret Continue.

(** **** Auto flight *)

Definition auto_update (delta : float) : M unit :=
  emit (Space_moveBodyChildren None) ;;
  hud_update delta.

Definition translateTo (body : Body) : M unit :=
  modify (with_modes (alter (set_animationFrame (Frame_translate body)) "auto")).

Definition pan_animationFrame (body : Body) (delta : float) : M Signal :=
  w <- get ;;
  (if ((1 <? panTo_t w) && (panTo_t w <? 1 + 0.05))%float
   then modify (with_pan (panTo_initialQuaternion w) (panTo_targetQuaternion w) 1)
   else ret tt) ;;
  w <- get ;;
  (if (panTo_t w <=? 1)%float
   then
     modify (with_camera (fun cam =>
       mkObject3D (o_name cam) (position cam)
         (slerp (panTo_initialQuaternion w) (panTo_targetQuaternion w) (panTo_t w))
         (scale cam))) ;;
     auto_update delta ;;
     modify (with_pan (panTo_initialQuaternion w) (panTo_targetQuaternion w)
               (panTo_t w + 0.05)%float)
   else translateTo body) ;;
  ret Continue.

Definition panTo (body : Body) : M unit :=
  w <- get ;;
  modify (with_pan (quaternion (camera w)) (panTo_targetQuaternion w) (panTo_t w)) ;;
  match mesh body with
  | None => throw                       (* body.mesh is undefined *)
  | Some body_mesh =>
      modify (with_pan (quaternion (camera w))
                (lookAt (camera w) (position body_mesh)) 0) ;;
      modify (with_modes (alter (set_animationFrame (Frame_pan body)) "auto"))
  end.

Definition translate_animationFrame (this : string) (body : Body)
    (delta : float) : M Signal :=
  w <- get ;;
  if isColliding body (camera w)
  then setMode "menu" ;; ret Stop
  else
    multiplier <- getTranslationSpeedMultiplier (Some [body]) ;;
    let translationZ := (controls_z_speed (config w) * delta * multiplier)%float in
    modify (with_modes (alter (set_speed (translationZ / delta)%float) this)) ;;
    modify (with_camera (translateZ (- translationZ)%float)) ;;
    auto_update delta ;;
    ret Continue.

Definition flyTo (body : Body) : M unit :=
  emit (Notice_set (name body)) ;;
  modify (with_config (fun c =>
    mkConfig false (rotate_bodies c) (controls_z_speed c) (controls_strafe_speed c))) ;;
  panTo body.

(** **** The animation loop *)

(** [this.animationFrame(delta)] for whatever function the property holds. *)
Definition call_animationFrame (this : string) (f : Frame) (delta : float) : M Signal :=
  match f with
  | Frame_prototype => ret Continue
  | Frame_free => free_animationFrame this delta
  | Frame_menu => ret Stop
  | Frame_pan body => pan_animationFrame body delta
  | Frame_translate body => translate_animationFrame this body delta
  end.

(** The callback that [Mode.prototype.animate] registers for the mode
    [self]; the renderer calls it once per tick with the elapsed time. *)
Definition animate_callback (self : string) (delta : float) : M Signal :=
  w <- get ;;
  match modes w !! self with
  | None => throw
  | Some m =>
      if negb (enabled m)
      then
        emit (Console_log ("stop animating for " ++ mode_name m ++ " flight mode")%string) ;;
        ret Stop
      else call_animationFrame self (animationFrame m) delta
  end.

(** Consecutive ticks of one mode's callback, one per elapsed time in
    [deltas], for as long as the callback asks to go on; the world is the one
    left by the last tick that ran. *)
Fixpoint ticks (self : string) (deltas : list float) (w : World) : World :=
  match deltas with
  | [] => w
  | delta :: rest =>
      match animate_callback self delta w with
      | (Normal Continue, w') => ticks self rest w'
      | (_, w') => w'
      end
  end.

End Flight.

(** * Vocabulary of the properties *)

(** ** The trace *)

Definition is_call_enable (n : string) (e : Event) : bool :=
  match e with Call_enable m => String.eqb m n | _ => false end.
Definition is_call_disable (e : Event) : bool :=
  match e with Call_disable _ => true | _ => false end.
Definition count_events (p : Event -> bool) (l : list Event) : nat :=
  length (List.filter p l).
Definition is_call (e : Event) : bool :=
  match e with Call_enable _ | Call_disable _ => true | _ => false end.

(** ** The state machine *)

(** The world after the first half of [setMode]: the previous mode, when
    there is one, has been disabled. *)
Definition after_disable (w : World) : World :=
  match modes w !! currentMode w with
  | Some _ => snd (disable (currentMode w) w)
  | None => w
  end.

Definition changed_message (prevName name : string) : Event :=
  Console_log ("flight mode changed from " ++ prevName ++ " to " ++ name)%string.

(** Whatever is enabled is the mode that [currentMode] names. *)
Definition only_current_enabled (w : World) : Prop :=
  forall n, is_enabled n w = true -> n = currentMode w.

(** [flight.modes] holds exactly the three modes. *)
Definition modes_registered (w : World) : Prop :=
  forall n, is_Some (modes w !! n) <-> n ∈ mode_names.

(** ** Collisions *)

(** Whether the hit lies within the collision distance of the Body that
    [space.getBody] returns for the object's name. *)
Definition within_collision_distance (bs : list Body) (i : Intersect) : bool :=
  match getBody bs (o_name (object i)) with
  | Some body => (distance i <? getCollisionDistance body)%float
  | None => false
  end.

Definition resolves (bs : list Body) (i : Intersect) : Prop :=
  is_Some (getBody bs (o_name (object i))).

(** ** Auto flight *)

(** A world in which free flight is neither current nor enabled, and in
    whose trace [enable()] of the free mode has been entered [c] times. *)
Definition calm (c : nat) (w : World) : Prop :=
  only_current_enabled w /\
  currentMode w <> "free" /\
  count_events (is_call_enable "free") (log w) = c.

Definition keeps_calm {A} (m : M A) : Prop :=
  forall c w, calm c w -> calm c (snd (m w)).

(** Updates that touch neither the flags, nor [currentMode], nor the trace. *)
Definition flags_untouched (f : World -> World) : Prop :=
  forall w,
    (forall n, is_enabled n (f w) = is_enabled n w) /\
    currentMode (f w) = currentMode w /\
    log (f w) = log w.

(** The pan phase.  [pan_clamp] is the snap at the head of the tick, and
    [pan_seq k] the value of [t] at the start of tick [k + 1]. *)
Definition pan_clamp (t : float) : float :=
  if ((1 <? t) && (t <? 1 + 0.05))%float then 1%float else t.

Fixpoint pan_seq (k : nat) : float :=
  match k with
  | O => 0%float
  | S k' => (pan_clamp (pan_seq k') + 0.05)%float
  end.

(** Auto flight is current and enabled, its [animationFrame] is the pan
    closure for [body], and the closure's variables hold [q0], [q1], [t]. *)
Definition panning (body : Body) (q0 q1 : Quaternion) (t : float) (w : World) : Prop :=
  currentMode w = "auto" /\
  (exists m, modes w !! "auto" = Some m /\ enabled m = true /\
             animationFrame m = Frame_pan body) /\
  panTo_initialQuaternion w = q0 /\
  panTo_targetQuaternion w = q1 /\
  panTo_t w = t.

Definition auto_frame (w : World) : option Frame :=
  animationFrame <$> modes w !! "auto".

(** ** Numbers *)

Definition SFdouble (x : spec_float) : spec_float :=
  match x with
  | S754_finite s m e =>
      if (Zpos (digits2_pos m) =? prec)%Z
      then if (e + 1 <=? emax - prec)%Z then S754_finite s m (e + 1) else S754_infinity s
      else S754_finite s m~0 e
  | _ => x
  end.

(** [!isNaN(x)]: NaN is the one number that is not equal to itself. *)
Definition not_nan (x : float) : Prop := (x =? x)%float = true.

Definition SFfinite (x : spec_float) : bool :=
  match x with
  | S754_zero _ | S754_finite _ _ _ => true
  | _ => false
  end.

(** [isFinite(x)]. *)
Definition is_finite (x : float) : bool := (abs x <? infinity)%float.

(** * Worlds to run the code on *)

Definition demo_camera : Object3D :=
  mkObject3D "" (mkVector3 0 0 0) (mkQuaternion 0 0 0 1) (mkVector3 1 1 1).
Definition demo_config : Config := mkConfig true true 1 1.
Definition demo_world : World := initial demo_camera [] (mkVector3 0 0 0) demo_config.

(** A small solar system to evaluate the code on: the Earth, 6371 km in
    radius, half a ten-thousandth of an astronomical unit ahead of a camera
    that looks down its negative z axis, and a raycaster that reports every
    listed object at the distance of its centre. *)
Definition demo_kmPerAu : float := 149597870.7.
Definition Earth : Body :=
  scalePositionFromArray 1 (mkVector3 0 0 (-0.00005))
    (new_Body demo_kmPerAu (mkBodyOptions (Some "Earth") (Some 6371%float) None)).
Definition far_Earth : Body :=
  scalePositionFromArray 1 (mkVector3 0 0 (-0.5))
    (new_Body demo_kmPerAu (mkBodyOptions (Some "Earth") (Some 6371%float) None)).
Definition demo_intersectObjects (origin direction : Vector3)
    (objects : list Object3D) : list Intersect :=
  List.map (fun o => mkIntersect o (Vector3_distanceTo origin (position o))) objects.
Definition demo_localToWorld (o : Object3D) (v : Vector3) : Vector3 :=
  mkVector3 (vx v + vx (position o)) (vy v + vy (position o)) (vz v + vz (position o)).
Definition flying_towards (b : Body) : World :=
  setModes ["free"] (initial demo_camera [b] (mkVector3 0 0 (-1)) demo_config).

(** Stand-ins for three.js and the controls, for a camera at the origin that
    first looks a quarter turn to its left and a target straight down the
    negative z axis: the orientation that looks at the target is the
    identity, and the local z axis of a camera that looks there is the
    world's. *)
Definition quarter_turn : Quaternion :=
  mkQuaternion 0 0.7071067811865476 0 0.7071067811865476.
Definition sideways_camera : Object3D :=
  mkObject3D "" (mkVector3 0 0 0) quarter_turn (mkVector3 1 1 1).
Definition demo_slerp (q0 q1 : Quaternion) (t : float) : Quaternion :=
  if (t =? 0)%float then q0
  else if (t =? 1)%float then q1
  else mkQuaternion (qx q0 + (qx q1 - qx q0) * t) (qy q0 + (qy q1 - qy q0) * t)
         (qz q0 + (qz q1 - qz q0) * t) (qw q0 + (qw q1 - qw q0) * t).
Definition demo_lookAt (eye : Object3D) (target : Vector3) : Quaternion :=
  mkQuaternion 0 0 0 1.
Definition demo_translateZ (d : float) (o : Object3D) : Object3D :=
  mkObject3D (o_name o)
    (mkVector3 (vx (position o)) (vy (position o)) (vz (position o) + d))
    (quaternion o) (scale o).
Definition demo_moveCamera (delta multiplier : float) (tv : Vector3)
    (o : Object3D) : Object3D :=
  mkObject3D (o_name o)
    (mkVector3 (vx (position o) + vx tv * delta * multiplier)
       (vy (position o) + vy tv * delta * multiplier)
       (vz (position o) + vz tv * delta * multiplier))
    (quaternion o) (scale o).
Definition demo_translateBodies (delta : float) (bs : list Body) : list Body := bs.
Definition demo_rotateBodies (delta : float) (bs : list Body) : list Body := bs.

(** A target for [flyTo]: Mars, half an astronomical unit ahead, carrying
    the [mesh] property that [panTo] reads. *)
Definition Mars : Body :=
  let b := scalePositionFromArray 1 (mkVector3 0 0 (-0.5))
             (new_Body demo_kmPerAu (mkBodyOptions (Some "Mars") (Some 3389.5%float) None)) in
  mkBody (name b) (radiusInKm b) (radius b) (collideable b) (main b) (Some (main b)).
Definition in_menu : World :=
  setModes ["menu"] (initial sideways_camera [Mars] (mkVector3 0 0 0) demo_config).
Definition demo_ticks : string -> list float -> World -> World :=
  ticks demo_intersectObjects demo_localToWorld demo_slerp demo_translateZ
    demo_moveCamera demo_translateBodies demo_rotateBodies.
Definition flying_to_Mars : World :=
  snd (flyTo demo_lookAt Mars (snd (setMode "auto" in_menu))).

(** A Body described without [radiusInKm]. *)
Definition no_radius : BodyOptions := mkBodyOptions (Some "Vulcan") None None.

(** * More of the flight code *)

(** ** The Escape key

    The [keydown] handlers of auto flight and of the menu are the same
    closure but for what the release of the key triggers: [setMode('menu')]
    in auto flight, [KIMCHI.pointerLock.request()] in the menu.  The closure
    keeps the flag [keydownInProgress]; every Escape [keydown] sets it and
    binds one more handler with jQuery's [.one('keyup', ...)], which runs on
    the next [keyup] of whatever key and is unbound as it runs.  [keyup_once]
    counts the handlers bound at the moment. *)
Record Keyboard := mkKeyboard {
  keydownInProgress : bool;
  keyup_once : nat
}.

Definition idle : Keyboard := mkKeyboard false 0.

Definition keydown (which : nat) (k : Keyboard) : Keyboard :=
  if Nat.eqb which 27 then mkKeyboard true (S (keyup_once k)) else k.

(** A [keyup] of the key [which] runs the [n] bound handlers one after the
    other; a handler that throws ends the dispatch, the handlers after it
    stay bound. *)
Fixpoint keyup_handlers (action : M unit) (which : nat) (n : nat)
    (flag : bool) (w : World) : completion unit * (Keyboard * World) :=
  match n with
  | O => (Normal tt, (mkKeyboard flag 0, w))
  | S n' =>
      if Nat.eqb which 27 && flag
      then match action w with
           | (Normal _, w') => keyup_handlers action which n' false w'
           | (Thrown, w') => (Thrown, (mkKeyboard flag n', w'))
           end
      else keyup_handlers action which n' flag w
  end.

Definition keyup (action : M unit) (which : nat) (kw : Keyboard * World)
    : completion unit * (Keyboard * World) :=
  keyup_handlers action which (keyup_once (fst kw)) (keydownInProgress (fst kw))
    (snd kw).

(** The keys of auto flight. *)
Definition auto_keyup : nat -> Keyboard * World -> completion unit * (Keyboard * World) :=
  keyup (setMode "menu").

(** A run of [keydown] events, the auto-repeat of a held key included. *)
Definition keydowns (keys : list nat) (k : Keyboard) : Keyboard :=
  fold_left (fun k which => keydown which k) keys k.

(** ** A session

    What the rest of the application does with the module: it calls
    [setMode], it calls [flyTo] of auto flight, and the renderer calls a
    callback that some [animate()] has registered. *)
Inductive Action :=
| Do_setMode (name : string)
| Do_flyTo (body : Body)
| Do_tick (self : string) (delta : float).

Section Session.
Variable intersectObjects : Vector3 -> Vector3 -> list Object3D -> list Intersect.
Variable localToWorld : Object3D -> Vector3 -> Vector3.
Variable slerp : Quaternion -> Quaternion -> float -> Quaternion.
Variable lookAt : Object3D -> Vector3 -> Quaternion.
Variable translateZ : float -> Object3D -> Object3D.
Variable moveCamera : float -> float -> Vector3 -> Object3D -> Object3D.
Variable translateBodies : float -> list Body -> list Body.
Variable rotateBodies : float -> list Body -> list Body.

(** One action, carried on with after a throw. *)
Definition act (a : Action) (w : World) : World :=
  match a with
  | Do_setMode name => snd (setMode name w)
  | Do_flyTo body => snd (flyTo lookAt body w)
  | Do_tick self delta =>
      snd (animate_callback intersectObjects localToWorld slerp translateZ
             moveCamera translateBodies rotateBodies self delta w)
  end.

Fixpoint session (actions : list Action) (w : World) : World :=
  match actions with
  | [] => w
  | a :: rest => session rest (act a w)
  end.

End Session.

Definition is_flyTo (a : Action) : bool :=
  match a with Do_flyTo _ => true | _ => false end.

(** ** Vocabulary of the further properties *)

(** Nothing but the modes, [currentMode] and the trace differs. *)
Definition same_scene (w w' : World) : Prop :=
  camera w' = camera w /\ bodies w' = bodies w /\
  controls_translation w' = controls_translation w /\ config w' = config w /\
  panTo_initialQuaternion w' = panTo_initialQuaternion w /\
  panTo_targetQuaternion w' = panTo_targetQuaternion w /\ panTo_t w' = panTo_t w.

Definition is_renderer_animate (n : string) (e : Event) : bool :=
  match e with Renderer_animate m => String.eqb m n | _ => false end.

Definition preserves (I : World -> Prop) {A} (m : M A) : Prop :=
  forall w, I w -> I (snd (m w)).

(** What a tick itself writes to the trace: the console, the clock of the
    simulation, the Bodies' children and the HUD. *)
Definition quiet (e : Event) : bool :=
  match e with
  | Console_log _ | Time_increment | Space_moveBodyChildren _ | Hud_update _ _ => true
  | _ => false
  end.

(** The writes of a tick: a property that survives each of them survives the
    tick. *)
Record tick_stable (I : World -> Prop) : Prop := mk_tick_stable {
  stable_log : forall e w,
    quiet e = true -> I w -> I (with_log (fun l => (l ++ [e])%list) w);
  stable_camera : forall f w, I w -> I (with_camera f w);
  stable_pan : forall q0 q1 t w, I w -> I (with_pan q0 q1 t w);
  stable_bodies : forall f w, I w -> I (with_bodies f w);
  stable_speed : forall s this w, I w -> I (with_modes (alter (set_speed s) this) w);
  stable_translate : forall body w,
    I w -> I (with_modes (alter (set_animationFrame (Frame_translate body)) "auto") w);
  stable_menu : preserves I (setMode "menu")
}.

(** Each mode object carries the name it is stored under. *)
Definition modes_named (w : World) : Prop :=
  forall n m, modes w !! n = Some m -> mode_name m = n.

(** The mode whose [animationFrame] property can hold the function [f]:
    the free mode and the menu have their own, the closures of [panTo] and
    [translateTo] are assigned to the auto mode, which starts with the
    prototype's. *)
Definition frame_owner (f : Frame) : string :=
  match f with
  | Frame_free => "free"
  | Frame_menu => "menu"
  | Frame_prototype | Frame_pan _ | Frame_translate _ => "auto"
  end.

Definition frames_kept (w : World) : Prop :=
  forall n m, modes w !! n = Some m -> frame_owner (animationFrame m) = n.

Definition well_formed (w : World) : Prop :=
  modes_registered w /\ only_current_enabled w /\ modes_named w /\ frames_kept w.

(** A mode object that differs at most in its [enabled] flag. *)
Definition same_but_enabled (m m' : Mode) : Prop :=
  mode_name m' = mode_name m /\ speed m' = speed m /\
  animationFrame m' = animationFrame m.

(** The HUD can read a speed: [flight.modes[currentMode]] is one of the
    three modes. *)
Definition current_registered (w : World) : Prop :=
  modes_registered w /\ currentMode w ∈ mode_names.

(** Code that returns normally from every world in which [P] holds, and
    keeps [P]. *)
Definition never_throws (P : World -> Prop) {A} (m : M A) : Prop :=
  forall w, P w -> (exists a, fst (m w) = Normal a) /\ P (snd (m w)).

(** Numbers that are not above zero, and numbers that are not below it; NaN
    is both. *)
Definition SFnot_positive (x : spec_float) : bool :=
  match x with
  | S754_infinity false | S754_finite false _ _ => false
  | _ => true
  end.

Definition SFnot_negative (x : spec_float) : bool :=
  match x with
  | S754_infinity true | S754_finite true _ _ => false
  | _ => true
  end.

(** [isNaN(x)]. *)
Definition is_nan (x : float) : bool := negb (x =? x)%float.

(** The translate phase for [body] is under way. *)
Definition translating (body : Body) (w : World) : Prop :=
  currentMode w = "auto" /\
  exists m, modes w !! "auto" = Some m /\ enabled m = true /\
            animationFrame m = Frame_translate body.

(** A Body built without [radiusInKm], half an astronomical unit ahead. *)
Definition Vulcan : Body :=
  scalePositionFromArray 1 (mkVector3 0 0 (-0.5)) (new_Body demo_kmPerAu no_radius).

(** ** What the modes switch on and off

    The things that [enable()] and [disable()] of the three modes switch,
    with the mode that switches each: the HUD and the controls belong to
    free flight, the overlay and the stopped clock to the menu, and auto
    flight and the menu each bind a [keydown] handler. *)
Inductive Switch :=
| Hud | Controls | Overlay | Clock_stopped | Auto_keydown | Menu_keydown.

Definition switch_owner (s : Switch) : string :=
  match s with
  | Hud | Controls => "free"
  | Overlay | Clock_stopped | Menu_keydown => "menu"
  | Auto_keydown => "auto"
  end.

Definition switch_on (s : Switch) (e : Event) : bool :=
  match s, e with
  | Hud, Hud_show => true
  | Controls, Controls_enable => true
  | Overlay, Overlay_show => true
  | Clock_stopped, Clock_stop => true
  | Auto_keydown, Document_on_keydown n => String.eqb n "auto"
  | Menu_keydown, Document_on_keydown n => String.eqb n "menu"
  | _, _ => false
  end.

Definition switch_off (s : Switch) (e : Event) : bool :=
  match s, e with
  | Hud, Hud_hide => true
  | Controls, Controls_disable => true
  | Overlay, Overlay_hide => true
  | Clock_stopped, Clock_start => true
  | Auto_keydown, Document_off_keydown n => String.eqb n "auto"
  | Menu_keydown, Document_off_keydown n => String.eqb n "menu"
  | _, _ => false
  end.

(** Whether the trace leaves [s] switched on: the last event that switches
    it, if there is one, switches it on. *)
Definition is_on (s : Switch) (l : list Event) : bool :=
  fold_left
    (fun st e => if switch_on s e then true else if switch_off s e then false else st)
    l false.

Definition display_follows_flags (w : World) : Prop :=
  modes_registered w /\
  forall s, is_on s (log w) = is_enabled (switch_owner s) w.

(** * Properties *)

(** ** Comparisons of numbers

    The comparisons and the sum of two binary64 values are specified by
    [SFcompare] and [SFadd] on their decoded forms; the facts below are read
    off those specifications. *)

Lemma SFcompare_antisym x y :
  SFcompare y x = option_map CompOpp (SFcompare x y).
Proof.
  destruct x as [sx|sx| |sx mx ex], y as [sy|sy| |sy my ey]; cbn;
    try destruct sx; try destruct sy; try reflexivity.
  all: rewrite (Z.compare_antisym ey ex).
  all: destruct (ey ?= ex)%Z; cbn; try reflexivity.
  all: rewrite (Pos.compare_cont_antisym mx my Eq); reflexivity.
Qed.

(** [x <= y] excludes [y < x], NaN or not. *)
Lemma leb_not_ltb (x y : float) :
  (x <=? y)%float = true -> (y <? x)%float = false.
Proof.
  rewrite leb_spec, ltb_spec. unfold SFleb, SFltb.
  rewrite (SFcompare_antisym (Prim2SF x) (Prim2SF y)).
  destruct (SFcompare (Prim2SF x) (Prim2SF y)) as [[]|]; cbn; congruence.
Qed.


Lemma digits2_pos_size m : digits2_pos m = Pos.size m.
Proof. induction m; cbn; congruence. Qed.

Lemma digits2_pos_le m1 m2 :
  (m1 <= m2)%positive -> (Zpos (digits2_pos m1) <= Zpos (digits2_pos m2))%Z.
Proof.
  intros Hle. rewrite !digits2_pos_size.
  destruct (Z.le_gt_cases (Zpos (Pos.size m1)) (Zpos (Pos.size m2))) as [|Hgt];
    [assumption|exfalso].
  pose proof (Pos.size_gt m2) as H2. pose proof (Pos.size_le m1) as H1.
  apply Pos2Z.pos_lt_pos in H2. apply Pos2Z.pos_le_pos in H1.
  rewrite Pos2Z.inj_pow in H1, H2.
  assert (Hpow : (2 ^ Zpos (Pos.size m2) <= 2 ^ (Zpos (Pos.size m1) - 1))%Z)
    by (apply Z.pow_le_mono_r; lia).
  assert (Hsucc : (2 ^ Zpos (Pos.size m1) = 2 * 2 ^ (Zpos (Pos.size m1) - 1))%Z).
  { rewrite <- Z.pow_succ_r by lia. f_equal. lia. }
  lia.
Qed.

Lemma SFleb_finite_pos m1 e1 m2 e2 :
  SFleb (S754_finite false m1 e1) (S754_finite false m2 e2) = true <->
  (e1 < e2 \/ (e1 = e2 /\ (m1 <= m2)%positive))%Z.
Proof.
  unfold SFleb, SFcompare.
  change (PosDef.Pos.compare_cont Eq m1 m2) with (Pos.compare m1 m2).
  destruct (Z.compare_spec e1 e2); [destruct (Pos.compare_spec m1 m2)| |];
    split; intros; try discriminate; try reflexivity; lia.
Qed.

Lemma SFleb_finite_neg m1 e1 m2 e2 :
  SFleb (S754_finite true m1 e1) (S754_finite true m2 e2) = true <->
  (e2 < e1 \/ (e1 = e2 /\ (m2 <= m1)%positive))%Z.
Proof.
  unfold SFleb, SFcompare.
  change (PosDef.Pos.compare_cont Eq m1 m2) with (Pos.compare m1 m2).
  destruct (Z.compare_spec e1 e2); [destruct (Pos.compare_spec m1 m2)| |];
    cbn [CompOpp]; split; intros; try discriminate; try reflexivity; lia.
Qed.


Lemma not_nan_spec x : not_nan x <-> Prim2SF x <> S754_nan.
Proof.
  unfold not_nan. rewrite FloatAxioms.eqb_spec. unfold SFeqb.
  destruct (Prim2SF x) as [s|s| |s m e]; cbn.
  - split; [discriminate|reflexivity].
  - destruct s; (split; [discriminate|reflexivity]).
  - split; [discriminate|congruence].
  - rewrite Z.compare_refl.
    change (PosDef.Pos.compare_cont Eq m m) with (Pos.compare m m).
    rewrite Pos.compare_refl. destruct s; (split; [discriminate|reflexivity]).
Qed.





Lemma leb_infinity x : not_nan x -> (x <=? infinity)%float = true.
Proof.
  rewrite not_nan_spec, leb_spec.
  change (Prim2SF infinity) with (S754_infinity false).
  destruct (Prim2SF x) as [[]|[]| |[] m e]; intros H; try reflexivity; congruence.
Qed.



(** *** Doubling *)

Lemma valid_finite_cases s m e :
  valid_binary (S754_finite s m e) = true ->
  (e <= emax - prec)%Z /\
  ((Zpos (digits2_pos m) = prec /\ (emin <= e)%Z) \/
   ((Zpos (digits2_pos m) < prec)%Z /\ e = emin)).
Proof.
  unfold valid_binary, bounded, canonical_mantissa, fexp, emin, prec, emax.
  intros H. apply andb_prop in H as [H1 H2].
  apply Z.eqb_eq in H1. apply Z.leb_le in H2.
  pose proof (Pos2Z.is_pos (digits2_pos m)). lia.
Qed.

Lemma binary_round_double s m e :
  valid_binary (S754_finite s m e) = true ->
  binary_round prec emax s m~0 e = SFdouble (S754_finite s m e).
Proof.
  intros Hv. destruct (valid_finite_cases s m e Hv) as (He & Hcases).
  unfold SFdouble, binary_round, shl_align.
  cbn [digits2_pos]. rewrite Pos2Z.inj_succ.
  destruct Hcases as [(Hd & Hmin)|(Hd & Hmin)].
  - rewrite Hd, Z.eqb_refl.
    replace (fexp prec emax (Z.succ prec + e)) with (e + 1)%Z
      by (unfold fexp, emin, prec, emax in *; lia).
    replace (e + 1 - e)%Z with 1%Z by lia.
    unfold binary_round_aux, shr_fexp. cbn [Zdigits2 digits2_pos].
    rewrite Pos2Z.inj_succ, Hd.
    replace (fexp prec emax (Z.succ prec + e)) with (e + 1)%Z
      by (unfold fexp, emin, prec, emax in *; lia).
    replace (e + 1 - e)%Z with 1%Z by lia.
    cbn [shr_record_of_loc shr SpecFloat.iter_pos shr_1 orb shr_m
           loc_of_shr_record round_nearest_even Zdigits2].
    rewrite ?Hd.
    replace (fexp prec emax (prec + (e + 1))) with (e + 1)%Z
      by (unfold fexp, emin, prec, emax in *; lia).
    rewrite Z.sub_diag. cbn [shr shr_m]. reflexivity.
  - destruct (Z.eqb_spec (Z.pos (digits2_pos m)) prec) as [Heq|_]; [lia|].
    replace (fexp prec emax (Z.succ (Z.pos (digits2_pos m)) + e)) with e
      by (unfold fexp, emin, prec, emax in *; lia).
    rewrite Z.sub_diag.
    unfold binary_round_aux, shr_fexp. cbn [Zdigits2 digits2_pos].
    rewrite Pos2Z.inj_succ.
    replace (fexp prec emax (Z.succ (Z.pos (digits2_pos m)) + e)) with e
      by (unfold fexp, emin, prec, emax in *; lia).
    rewrite Z.sub_diag.
    cbn [shr_record_of_loc shr shr_m loc_of_shr_record round_nearest_even Zdigits2 digits2_pos].
    rewrite Pos2Z.inj_succ.
    replace (fexp prec emax (Z.succ (Z.pos (digits2_pos m)) + e)) with e
      by (unfold fexp, emin, prec, emax in *; lia).
    rewrite Z.sub_diag. cbn [shr shr_m].
    replace (e <=? emax - prec)%Z with true by (symmetry; apply Z.leb_le; lia).
    reflexivity.
Qed.

Lemma SFadd_diag x :
  valid_binary x = true -> SFadd prec emax x x = SFdouble x.
Proof.
  destruct x as [[]|[]| |s m e]; try reflexivity.
  intros Hv. rewrite <- (binary_round_double s m e Hv).
  unfold SFadd. rewrite Z.min_id. unfold shl_align. rewrite Z.sub_diag.
  cbn [fst].
  assert (Hpos : (Z.pos m + Z.pos m = Z.pos m~0)%Z) by lia.
  assert (Hneg : (- Z.pos m + - Z.pos m = Z.neg m~0)%Z) by lia.
  destruct s; unfold cond_Zopp; [rewrite Hneg | rewrite Hpos]; reflexivity.
Qed.

Lemma SFleb_double x y :
  valid_binary x = true -> valid_binary y = true ->
  SFleb x y = true -> SFleb (SFdouble x) (SFdouble y) = true.
Proof.
  destruct x as [sx|sx| |sx mx ex], y as [sy|sy| |sy my ey]; intros Hx Hy Hle;
    try exact Hle; try discriminate Hle.
  - (* zero, finite *)
    cbn [SFdouble]. destruct sy; [discriminate Hle|].
    destruct (_ =? _)%Z; [destruct (_ <=? _)%Z|]; reflexivity.
  - (* infinity, finite *)
    cbn [SFdouble]. destruct sx; [|destruct sy; discriminate Hle].
    destruct (_ =? _)%Z; [destruct (_ <=? _)%Z|]; destruct sy; reflexivity.
  - (* finite, zero *)
    cbn [SFdouble]. destruct sx; [|discriminate Hle].
    destruct (_ =? _)%Z; [destruct (_ <=? _)%Z|]; reflexivity.
  - (* finite, infinity *)
    cbn [SFdouble]. destruct sy; [destruct sx; discriminate Hle|].
    destruct (_ =? _)%Z; [destruct (_ <=? _)%Z|]; destruct sx; reflexivity.
  - (* finite, finite *)
    destruct (valid_finite_cases _ _ _ Hx) as (Hex & Hcx).
    destruct (valid_finite_cases _ _ _ Hy) as (Hey & Hcy).
    pose proof (digits2_pos_le mx my) as Hmono1.
    pose proof (digits2_pos_le my mx) as Hmono2.
    unfold emin, SpecFloat.emin, prec, emax in *.
    destruct sx, sy; try discriminate Hle.
    + apply SFleb_finite_neg in Hle. cbn [SFdouble]. unfold prec, emax.
      destruct (Z.eqb_spec (Zpos (digits2_pos mx)) 53),
               (Z.eqb_spec (Zpos (digits2_pos my)) 53);
        try destruct (Z.leb_spec (ex + 1) (1024 - 53));
        try destruct (Z.leb_spec (ey + 1) (1024 - 53));
        try reflexivity; try (apply SFleb_finite_neg; lia); exfalso; lia.
    + cbn [SFdouble].
      destruct (_ =? _)%Z; [destruct (_ <=? _)%Z|];
        (destruct (_ =? _)%Z; [destruct (_ <=? _)%Z|]); reflexivity.
    + apply SFleb_finite_pos in Hle. cbn [SFdouble]. unfold prec, emax.
      destruct (Z.eqb_spec (Zpos (digits2_pos mx)) 53),
               (Z.eqb_spec (Zpos (digits2_pos my)) 53);
        try destruct (Z.leb_spec (ex + 1) (1024 - 53));
        try destruct (Z.leb_spec (ey + 1) (1024 - 53));
        try reflexivity; try (apply SFleb_finite_pos; lia); exfalso; lia.
Qed.

Lemma add_diag_leb (x y : float) :
  (x <=? y)%float = true -> (x + x <=? y + y)%float = true.
Proof.
  rewrite !leb_spec, !add_spec. unfold SF64add.
  rewrite !SFadd_diag by apply Prim2SF_valid.
  apply SFleb_double; apply Prim2SF_valid.
Qed.

Lemma SFltb_finite_pos m1 e1 m2 e2 :
  SFltb (S754_finite false m1 e1) (S754_finite false m2 e2) = true <->
  (e1 < e2 \/ (e1 = e2 /\ (m1 < m2)%positive))%Z.
Proof.
  unfold SFltb, SFcompare.
  change (PosDef.Pos.compare_cont Eq m1 m2) with (Pos.compare m1 m2).
  destruct (Z.compare_spec e1 e2); [destruct (Pos.compare_spec m1 m2)| |];
    split; intros; try discriminate; try reflexivity; lia.
Qed.

Lemma SFltb_finite_neg m1 e1 m2 e2 :
  SFltb (S754_finite true m1 e1) (S754_finite true m2 e2) = true <->
  (e2 < e1 \/ (e1 = e2 /\ (m2 < m1)%positive))%Z.
Proof.
  unfold SFltb, SFcompare.
  change (PosDef.Pos.compare_cont Eq m1 m2) with (Pos.compare m1 m2).
  destruct (Z.compare_spec e1 e2); [destruct (Pos.compare_spec m1 m2)| |];
    cbn [CompOpp]; split; intros; try discriminate; try reflexivity; lia.
Qed.

Lemma SFltb_double x y :
  valid_binary x = true -> valid_binary y = true ->
  SFfinite (SFdouble x) = true -> SFfinite (SFdouble y) = true ->
  SFltb x y = true -> SFltb (SFdouble x) (SFdouble y) = true.
Proof.
  destruct x as [sx|sx| |sx mx ex], y as [sy|sy| |sy my ey];
    intros Hx Hy Hfx Hfy Hlt;
    try exact Hlt; try discriminate Hlt; try discriminate Hfx; try discriminate Hfy.
  - (* zero, finite *)
    cbn [SFdouble] in *. destruct sy; [discriminate Hlt|].
    destruct (_ =? _)%Z; [destruct (_ <=? _)%Z|]; try discriminate Hfy; reflexivity.
  - (* finite, zero *)
    cbn [SFdouble] in *. destruct sx; [|discriminate Hlt].
    destruct (_ =? _)%Z; [destruct (_ <=? _)%Z|]; try discriminate Hfx; reflexivity.
  - (* finite, finite *)
    destruct (valid_finite_cases _ _ _ Hx) as (Hex & Hcx).
    destruct (valid_finite_cases _ _ _ Hy) as (Hey & Hcy).
    pose proof (digits2_pos_le mx my) as Hmono1.
    pose proof (digits2_pos_le my mx) as Hmono2.
    unfold emin, SpecFloat.emin, prec, emax in *.
    cbn [SFdouble] in *. unfold prec, emax in *.
    destruct sx, sy; try discriminate Hlt.
    + apply SFltb_finite_neg in Hlt.
      destruct (Z.eqb_spec (Zpos (digits2_pos mx)) 53),
               (Z.eqb_spec (Zpos (digits2_pos my)) 53);
        try destruct (Z.leb_spec (ex + 1) (1024 - 53));
        try destruct (Z.leb_spec (ey + 1) (1024 - 53));
        try discriminate Hfx; try discriminate Hfy;
        try (apply SFltb_finite_neg; lia); exfalso; lia.
    + destruct (_ =? _)%Z; [destruct (_ <=? _)%Z|];
        (destruct (_ =? _)%Z; [destruct (_ <=? _)%Z|]);
        try discriminate Hfx; try discriminate Hfy; reflexivity.
    + apply SFltb_finite_pos in Hlt.
      destruct (Z.eqb_spec (Zpos (digits2_pos mx)) 53),
               (Z.eqb_spec (Zpos (digits2_pos my)) 53);
        try destruct (Z.leb_spec (ex + 1) (1024 - 53));
        try destruct (Z.leb_spec (ey + 1) (1024 - 53));
        try discriminate Hfx; try discriminate Hfy;
        try (apply SFltb_finite_pos; lia); exfalso; lia.
Qed.

Lemma is_finite_spec x : is_finite x = SFfinite (Prim2SF x).
Proof.
  unfold is_finite. rewrite ltb_spec, abs_spec.
  change (Prim2SF infinity) with (S754_infinity false).
  destruct (Prim2SF x) as [[]|[]| |[] m e]; reflexivity.
Qed.

Lemma add_diag_ltb (x y : float) :
  is_finite (x + x) = true -> is_finite (y + y) = true ->
  (x <? y)%float = true -> (x + x <? y + y)%float = true.
Proof.
  rewrite !is_finite_spec, !ltb_spec, !add_spec. unfold SF64add.
  rewrite !SFadd_diag by apply Prim2SF_valid.
  apply SFltb_double; apply Prim2SF_valid.
Qed.

(** ** What [enable] and [disable] change *)

Ltac dispatch_mode this :=
  destruct (decide (this = "free")) as [->|];
  [|destruct (decide (this = "auto")) as [->|];
    [|destruct (decide (this = "menu")) as [->|]]].

Lemma enable_effect this w :
  fst (enable this w) = Normal tt /\
  modes (snd (enable this w)) = alter (set_enabled true) this (modes w) /\
  currentMode (snd (enable this w)) = currentMode w /\
  exists evs,
    log (snd (enable this w)) = (log w ++ Call_enable this :: evs)%list /\
    Forall (fun e => is_call e = false) evs.
Proof.
  unfold enable.
  dispatch_mode this; cbn; repeat split; try reflexivity;
    rewrite <- ?app_assoc; eexists; (split; [reflexivity|]);
    repeat constructor.
Qed.

Lemma disable_effect this w :
  fst (disable this w) = Normal tt /\
  modes (snd (disable this w)) = alter (set_enabled false) this (modes w) /\
  currentMode (snd (disable this w)) = currentMode w /\
  exists evs,
    log (snd (disable this w)) = (log w ++ Call_disable this :: evs)%list /\
    Forall (fun e => is_call e = false) evs.
Proof.
  unfold disable.
  dispatch_mode this; cbn; repeat split; try reflexivity;
    rewrite <- ?app_assoc; eexists; (split; [reflexivity|]);
    repeat constructor.
Qed.

Lemma is_enabled_alter b k n w w' :
  modes w' = alter (set_enabled b) k (modes w) ->
  is_enabled n w' =
    if decide (k = n) then
      match modes w !! k with Some _ => b | None => false end
    else is_enabled n w.
Proof.
  intros Hm. unfold is_enabled. rewrite Hm, lookup_alter.
  destruct (decide (k = n)) as [->|]; [|reflexivity].
  destruct (modes w !! n); reflexivity.
Qed.

(** ** [setMode], case by case *)

Lemma enable_normal this w : enable this w = (Normal tt, snd (enable this w)).
Proof.
  destruct (enable_effect this w) as (Hf & _).
  destruct (enable this w) as [c w']; cbn [fst snd] in *; subst c; reflexivity.
Qed.

Lemma disable_normal this w : disable this w = (Normal tt, snd (disable this w)).
Proof.
  destruct (disable_effect this w) as (Hf & _).
  destruct (disable this w) as [c w']; cbn [fst snd] in *; subst c; reflexivity.
Qed.

Lemma setMode_eq name w :
  setMode name w =
    if decide (currentMode w = name) then (Normal tt, w)
    else
      match modes (after_disable w) !! name with
      | None => (Thrown, after_disable w)
      | Some _ =>
          (Normal tt,
           with_log (fun l => (l ++ [changed_message (currentMode w) name])%list)
             (with_currentMode name (snd (enable name (after_disable w)))))
      end.
Proof.
  unfold setMode, changed_message, bind, get.
  destruct (decide (currentMode w = name)); [reflexivity|].
  assert (Hfirst :
    match modes w !! currentMode w with
    | Some _ => disable (currentMode w)
    | None => ret tt
    end w = (Normal tt, after_disable w)).
  { unfold after_disable. destruct (modes w !! currentMode w);
      [apply disable_normal | reflexivity]. }
  rewrite Hfirst. cbv beta iota zeta.
  destruct (modes (after_disable w) !! name); [|reflexivity].
  rewrite enable_normal. reflexivity.
Qed.

(** ** The invariant of the state machine *)

Lemma only_current_at_most_one w :
  only_current_enabled w -> at_most_one_enabled w.
Proof. intros H a b Ha Hb. rewrite (H a Ha), (H b Hb). reflexivity. Qed.

Lemma after_disable_currentMode w : currentMode (after_disable w) = currentMode w.
Proof.
  unfold after_disable. destruct (modes w !! currentMode w); [|reflexivity].
  apply disable_effect.
Qed.

Lemma after_disable_lookup_None w n :
  modes (after_disable w) !! n = None <-> modes w !! n = None.
Proof.
  unfold after_disable. destruct (modes w !! currentMode w); [|reflexivity].
  destruct (disable_effect (currentMode w) w) as (_ & -> & _).
  apply lookup_alter_None.
Qed.

Lemma after_disable_is_enabled w n :
  is_enabled n (after_disable w) =
    if decide (currentMode w = n) then false else is_enabled n w.
Proof.
  unfold after_disable.
  destruct (modes w !! currentMode w) as [m|] eqn:Hprev.
  - destruct (disable_effect (currentMode w) w) as (_ & Hm & _).
    rewrite (is_enabled_alter _ _ n _ _ Hm), Hprev. reflexivity.
  - destruct (decide (currentMode w = n)) as [<-|]; [|reflexivity].
    unfold is_enabled. rewrite Hprev. reflexivity.
Qed.

Lemma after_disable_none_enabled w n :
  only_current_enabled w -> is_enabled n (after_disable w) = false.
Proof.
  intros Hinv. rewrite after_disable_is_enabled.
  destruct (decide (currentMode w = n)) as [|Hne]; [reflexivity|].
  destruct (is_enabled n w) eqn:Hn; [|reflexivity].
  apply Hinv in Hn. congruence.
Qed.

Lemma after_disable_log w :
  is_Some (modes w !! currentMode w) ->
  exists evs, log (after_disable w) = (log w ++ Call_disable (currentMode w) :: evs)%list.
Proof.
  intros [m Hm]. unfold after_disable. rewrite Hm.
  destruct (disable_effect (currentMode w) w) as (_ & _ & _ & evs & Hlog & _).
  exists evs. exact Hlog.
Qed.

Lemma setMode_only_current_enabled name w :
  only_current_enabled w -> only_current_enabled (snd (setMode name w)).
Proof.
  intros Hinv. rewrite setMode_eq.
  destruct (decide (currentMode w = name)); [exact Hinv|].
  destruct (modes (after_disable w) !! name) as [m|] eqn:Hname; cbn [snd].
  - intros k Hk. cbn [currentMode with_log with_currentMode].
    destruct (enable_effect name (after_disable w)) as (_ & Hm & _).
    change (is_enabled k (snd (enable name (after_disable w))) = true) in Hk.
    rewrite (is_enabled_alter _ _ k _ _ Hm) in Hk.
    destruct (decide (name = k)) as [|Hne]; [congruence|].
    rewrite after_disable_none_enabled in Hk by assumption. discriminate.
  - intros k Hk. rewrite after_disable_none_enabled in Hk by assumption.
    discriminate.
Qed.

Lemma setMode_modes_registered name w :
  modes_registered w -> modes_registered (snd (setMode name w)).
Proof.
  unfold modes_registered. intros Hreg. rewrite setMode_eq.
  destruct (decide (currentMode w = name)); [exact Hreg|].
  assert (Hafter : forall k, is_Some (modes (after_disable w) !! k) <-> k ∈ mode_names).
  { intros k. rewrite <- Hreg, <- !not_eq_None_Some, after_disable_lookup_None.
    reflexivity. }
  destruct (modes (after_disable w) !! name) as [m|] eqn:Hname; cbn [snd];
    [|exact Hafter].
  intros k. cbn [modes with_log with_currentMode].
  destruct (enable_effect name (after_disable w)) as (_ & -> & _).
  rewrite <- Hafter, <- !not_eq_None_Some, lookup_alter_None. reflexivity.
Qed.

Lemma setModes_invariant names w :
  only_current_enabled w -> modes_registered w ->
  only_current_enabled (setModes names w) /\ modes_registered (setModes names w).
Proof.
  revert w. induction names as [|n names IH]; intros w Hinv Hreg; cbn [setModes].
  - split; assumption.
  - apply IH; [apply setMode_only_current_enabled | apply setMode_modes_registered];
      assumption.
Qed.

Lemma initial_only_current_enabled cam bs tv cfg :
  only_current_enabled (initial cam bs tv cfg).
Proof.
  intros n. unfold is_enabled, initial, initial_modes; cbn [modes].
  rewrite !lookup_insert, lookup_empty.
  repeat case_decide; cbn; discriminate.
Qed.

Lemma initial_modes_registered cam bs tv cfg :
  modes_registered (initial cam bs tv cfg).
Proof.
  intros n. unfold initial, initial_modes, mode_names; cbn [modes].
  rewrite !lookup_insert, lookup_empty, !elem_of_cons, elem_of_nil.
  repeat case_decide; subst; split; intros Hn;
    try (eexists; reflexivity); try (destruct Hn as [? Hn]; discriminate);
    intuition congruence.
Qed.

(** ** Exclusive activation *)

(** C1. Start from the freshly loaded module, where no mode is enabled, and
    issue any sequence of [setMode] calls with names among free, auto and
    menu.  Stop after any number [k] of these calls: at most one mode has its
    [enabled] flag set. *)
Theorem setMode_exclusive_activation cam bs tv cfg (names : list string) (k : nat) :
  Forall (fun n => n ∈ mode_names) names ->
  at_most_one_enabled (setModes (take k names) (initial cam bs tv cfg)).
Proof.
  intros _. apply only_current_at_most_one.
  apply setModes_invariant;
    [apply initial_only_current_enabled | apply initial_modes_registered].
Qed.

Lemma setMode_exclusive_activation_witness :
  at_most_one_enabled
    (setModes (take 3 ["free"; "auto"; "menu"; "menu"; "free"]) demo_world).
Proof.
  apply (setMode_exclusive_activation demo_camera [] (mkVector3 0 0 0) demo_config
           ["free"; "auto"; "menu"; "menu"; "free"] 3).
  unfold mode_names. repeat constructor.
Defined.

(** ** Idempotent transition *)

(** C6. [setMode] with the name of the current mode returns at once and
    leaves the world, trace included, exactly as it was.  In particular, from
    the freshly loaded module, [setMode('free'); setMode('free')] ends in the
    same world as a single [setMode('free')], in which [enable()] of the free
    mode has run exactly once and no [disable()] has run. *)
Theorem setMode_current_is_noop :
  (forall w, setMode (currentMode w) w = (Normal tt, w)) /\
  (forall cam bs tv cfg,
     let w0 := initial cam bs tv cfg in
     let once := snd (setMode "free" w0) in
     setMode "free" w0 = (Normal tt, once) /\
     setMode "free" once = (Normal tt, once) /\
     setModes ["free"; "free"] w0 = setModes ["free"] w0 /\
     count_events (is_call_enable "free") (log (setModes ["free"; "free"] w0)) = 1 /\
     count_events is_call_disable (log (setModes ["free"; "free"] w0)) = 0).
Proof.
  assert (Hnoop : forall w, setMode (currentMode w) w = (Normal tt, w)).
  { intros w. rewrite setMode_eq. destruct (decide (currentMode w = currentMode w));
      [reflexivity | congruence]. }
  split; [exact Hnoop|].
  intros cam bs tv cfg w0 once.
  assert (Hcur : currentMode once = "free") by reflexivity.
  assert (Htwice : setMode "free" once = (Normal tt, once)).
  { rewrite <- Hcur at 1. apply Hnoop. }
  split; [reflexivity|]. split; [exact Htwice|].
  assert (Hrun : setModes ["free"; "free"] w0 = setModes ["free"] w0).
  { cbn [setModes]. fold once. rewrite Htwice. reflexivity. }
  split; [exact Hrun|]. rewrite Hrun. split; reflexivity.
Qed.

(** ** An unknown mode name *)

(** C9. While some mode is active, [setMode] with a name that is none of
    free, auto and menu throws, and it throws after the active mode's
    [disable()] has run: the world it leaves has no mode enabled, the trace
    shows the call of [disable()], and [currentMode] still holds the previous
    name.  Nothing restores the state from before the call. *)
Theorem setMode_unknown_name_not_atomic w name :
  modes_registered w ->
  only_current_enabled w ->
  is_enabled (currentMode w) w = true ->
  name ∉ mode_names ->
  exists w' evs,
    setMode name w = (Thrown, w') /\
    currentMode w' = currentMode w /\
    (forall n, is_enabled n w' = false) /\
    log w' = (log w ++ Call_disable (currentMode w) :: evs)%list.
Proof.
  intros Hreg Hinv Hactive Hname.
  assert (Hprev : is_Some (modes w !! currentMode w)).
  { unfold is_enabled in Hactive.
    destruct (modes w !! currentMode w); [eexists; reflexivity | discriminate]. }
  destruct (after_disable_log w Hprev) as [evs Hlog].
  exists (after_disable w), evs.
  rewrite setMode_eq.
  destruct (decide (currentMode w = name)) as [<-|Hne].
  { exfalso. apply Hname, Hreg, Hprev. }
  assert (Hnone : modes (after_disable w) !! name = None).
  { apply after_disable_lookup_None, eq_None_not_Some.
    intros Hsome. apply Hname, Hreg, Hsome. }
  rewrite Hnone. repeat split.
  - apply after_disable_currentMode.
  - intros n. apply after_disable_none_enabled, Hinv.
  - exact Hlog.
Qed.

Lemma setMode_unknown_name_not_atomic_witness :
  exists w' evs,
    setMode "warp" (setModes ["free"] demo_world) = (Thrown, w') /\
    currentMode w' = "free" /\
    (forall n, is_enabled n w' = false) /\
    log w' = (log (setModes ["free"] demo_world) ++ Call_disable "free" :: evs)%list.
Proof.
  apply (setMode_unknown_name_not_atomic (setModes ["free"] demo_world) "warp").
  - apply setModes_invariant;
      [apply initial_only_current_enabled | apply initial_modes_registered].
  - apply setModes_invariant;
      [apply initial_only_current_enabled | apply initial_modes_registered].
  - reflexivity.
  - unfold mode_names. rewrite !elem_of_cons, elem_of_nil.
    intros [H|[H|[H|[]]]]; discriminate H.
Defined.

(** ** [toggle] *)

(** C10. For every mode, [toggle()] without an argument never flips the
    flag: on an enabled mode it is a call of [enable()] and the mode stays
    enabled, on a disabled mode it is a call of [disable()] and the mode stays
    disabled. *)
Theorem toggle_without_argument_never_flips w this m :
  modes w !! this = Some m ->
  toggle this None w = (if enabled m then enable this w else disable this w) /\
  fst (toggle this None w) = Normal tt /\
  is_enabled this (snd (toggle this None w)) = enabled m.
Proof.
  intros Hm.
  assert (Heq : toggle this None w =
                if enabled m then enable this w else disable this w).
  { unfold toggle, bind, get. rewrite Hm. destruct (enabled m); reflexivity. }
  rewrite Heq. split; [reflexivity|].
  destruct (enabled m) eqn:Hen.
  - destruct (enable_effect this w) as (Hf & Hmodes & _).
    split; [exact Hf|].
    rewrite (is_enabled_alter _ _ this _ _ Hmodes), Hm.
    destruct (decide (this = this)); congruence.
  - destruct (disable_effect this w) as (Hf & Hmodes & _).
    split; [exact Hf|].
    rewrite (is_enabled_alter _ _ this _ _ Hmodes), Hm.
    destruct (decide (this = this)); congruence.
Qed.

Lemma toggle_without_argument_never_flips_witness :
  toggle "menu" None demo_world = disable "menu" demo_world /\
  fst (toggle "menu" None demo_world) = Normal tt /\
  is_enabled "menu" (snd (toggle "menu" None demo_world)) = false.
Proof.
  apply (toggle_without_argument_never_flips demo_world "menu"
           (mkMode "menu" false 0 Frame_menu)).
  reflexivity.
Defined.

(** ** Collision detection in free flight *)

Lemma each_intersect_existsb bs intersects w :
  Forall (resolves bs) intersects ->
  each_intersect bs intersects w =
    (Normal (existsb (within_collision_distance bs) intersects), w).
Proof.
  induction 1 as [|i rest [body Hbody] _ IH]; cbn [each_intersect existsb].
  - reflexivity.
  - unfold within_collision_distance at 1. rewrite Hbody.
    destruct (distance i <? getCollisionDistance body)%float; [reflexivity|].
    exact IH.
Qed.

(** A Body found under the name of its own render object: what the
    constructor establishes with [this.object3Ds.main.name = this.name]. *)
Lemma getBody_main bs b :
  b ∈ bs -> is_Some (getBody bs (o_name (main b))) \/ o_name (main b) <> name b.
Proof.
  intros Hb. destruct (decide (o_name (main b) = name b)) as [Heq|]; [left|right; assumption].
  unfold getBody. rewrite Heq.
  destruct (List.find (fun b0 => String.eqb (name b0) (name b)) bs) eqn:Hfind;
    [eexists; reflexivity|].
  apply list_elem_of_In in Hb.
  pose proof (find_none _ _ Hfind b Hb) as Hno. cbn in Hno.
  rewrite String.eqb_refl in Hno. discriminate.
Qed.

Section Colliding.
Variable intersectObjects : Vector3 -> Vector3 -> list Object3D -> list Intersect.
Variable localToWorld : Object3D -> Vector3 -> Vector3.

Lemma colliding_existsb w :
  (Vector3_length (controls_translation w) =? 0)%float = false ->
  Forall (resolves (bodies w)) (raycast intersectObjects localToWorld w) ->
  colliding intersectObjects localToWorld w =
    (Normal (existsb (within_collision_distance (bodies w))
               (raycast intersectObjects localToWorld w)), w).
Proof.
  intros Hmoving Hres. unfold colliding, bind, get. rewrite Hmoving.
  destruct (raycast intersectObjects localToWorld w) as [|i rest] eqn:Hray;
    [reflexivity|].
  cbn [length Nat.eqb]. apply each_intersect_existsb. exact Hres.
Qed.

(** C2. [colliding()] in free flight.  The ray is cast from the camera's
    position, along the translation vector carried to world coordinates minus
    that position, at the render objects of the collideable Bodies, one per
    Body whose [collideable] flag is set.  With a translation vector that is
    not zero, which the code tests as [length() === 0] being false,
    [colliding()] returns true if and only if some hit that the raycaster
    reports for this ray and these objects lies strictly closer than the
    collision distance of the hit object's Body.  So it returns false when
    every hit is at least as far as that distance, and when there is no hit
    at all.  When [length()] is 0, as it is for the zero vector and for a
    vector so short that the squares of its components underflow, it returns
    false whatever the raycaster would report. *)
Theorem colliding_iff_within_collision_distance w :
  let translationVector := controls_translation w in
  let length :=
    PrimFloat.sqrt (vx translationVector * vx translationVector
                    + vy translationVector * vy translationVector
                    + vz translationVector * vz translationVector)%float in
  let origin := position (camera w) in
  let target := localToWorld (camera w) translationVector in
  let direction :=
    mkVector3 (vx target - vx origin)%float (vy target - vy origin)%float
              (vz target - vz origin)%float in
  let objects := getCollideableObject3Ds (bodies w) in
  let hits := intersectObjects origin direction objects in
  ((length =? 0)%float = false -> Forall (resolves (bodies w)) hits) ->
  (forall o, o ∈ objects <->
             exists body, body ∈ bodies w /\ collideable body = true /\ o = main body) /\
  exists b,
    colliding intersectObjects localToWorld w = (Normal b, w) /\
    (b = true <->
     (length =? 0)%float = false /\
     exists i body,
       i ∈ hits /\
       getBody (bodies w) (o_name (object i)) = Some body /\
       (distance i <? getCollisionDistance body)%float = true) /\
    ((forall i body,
        i ∈ hits ->
        getBody (bodies w) (o_name (object i)) = Some body ->
        (getCollisionDistance body <=? distance i)%float = true) ->
     b = false) /\
    (hits = [] -> b = false) /\
    ((length =? 0)%float = true -> b = false).
Proof.
  intros translationVector len origin target direction objects hits Hres.
  change len with (Vector3_length (controls_translation w)) in *. clear len.
  split.
  { intros o. unfold objects, getCollideableObject3Ds, getCollideableBodies.
    rewrite list_elem_of_fmap. split.
    - intros (body & -> & Hin). exists body.
      apply list_elem_of_In, filter_In in Hin as (Hin & Hc).
      apply list_elem_of_In in Hin. auto.
    - intros (body & Hin & Hc & ->). exists body. split; [reflexivity|].
      apply list_elem_of_In, filter_In. split; [apply list_elem_of_In, Hin | exact Hc]. }
  destruct (Vector3_length (controls_translation w) =? 0)%float eqn:Hlen.
  { exists false. split.
    - unfold colliding, bind, get. rewrite Hlen. reflexivity.
    - split; [split; [discriminate | intros (H & _); discriminate H]|].
      repeat split; reflexivity. }
  specialize (Hres eq_refl).
  assert (Hray : raycast intersectObjects localToWorld w = hits) by reflexivity.
  exists (existsb (within_collision_distance (bodies w)) hits).
  split; [rewrite <- Hray; apply colliding_existsb; [exact Hlen | rewrite Hray; exact Hres]|].
  assert (Hiff :
    existsb (within_collision_distance (bodies w)) hits = true <->
    exists i body,
      i ∈ hits /\
      getBody (bodies w) (o_name (object i)) = Some body /\
      (distance i <? getCollisionDistance body)%float = true).
  { rewrite existsb_exists. split.
    - intros (i & Hin & Hhit). unfold within_collision_distance in Hhit.
      destruct (getBody (bodies w) (o_name (object i))) as [body|] eqn:Hbody;
        [|discriminate].
      exists i, body. rewrite list_elem_of_In. auto.
    - intros (i & body & Hin & Hbody & Hlt). exists i.
      rewrite <- list_elem_of_In. split; [assumption|].
      unfold within_collision_distance. rewrite Hbody. exact Hlt. }
  split.
  { rewrite Hiff. split; [intros H; split; [reflexivity | exact H] | intros (_ & H); exact H]. }
  split; [|split].
  - intros Hfar. apply not_true_is_false. intros Hhit.
    apply Hiff in Hhit as (i & body & Hin & Hbody & Hlt).
    rewrite (leb_not_ltb _ _ (Hfar i body Hin Hbody)) in Hlt. discriminate.
  - intros ->. reflexivity.
  - discriminate.
Qed.

(** The hypothesis on the hits holds whenever the raycaster reports only
    objects it was given and every Body's render object carries the Body's
    name. *)
Lemma raycast_resolves w :
  (forall origin direction objects i,
     i ∈ intersectObjects origin direction objects -> object i ∈ objects) ->
  Forall (fun b => o_name (main b) = name b) (bodies w) ->
  Forall (resolves (bodies w)) (raycast intersectObjects localToWorld w).
Proof.
  intros Hsound Hnames. apply Forall_forall. intros i Hi.
  apply Hsound in Hi. unfold getCollideableObject3Ds, getCollideableBodies in Hi.
  apply list_elem_of_fmap in Hi as (b & Hobj & Hb).
  apply list_elem_of_In, filter_In in Hb as (Hb & _).
  apply list_elem_of_In in Hb.
  unfold resolves. rewrite Hobj.
  destruct (getBody_main (bodies w) b Hb) as [Hres|Hne]; [exact Hres|].
  rewrite Forall_forall in Hnames. destruct Hne. apply Hnames, Hb.
Qed.

End Colliding.

Lemma colliding_iff_within_collision_distance_witness :
  colliding demo_intersectObjects demo_localToWorld (flying_towards Earth)
    = (Normal true, flying_towards Earth).
Proof.
  destruct (colliding_iff_within_collision_distance demo_intersectObjects
              demo_localToWorld (flying_towards Earth))
    as (_ & b & Hcall & Hiff & _).
  - intros _. vm_compute. repeat constructor. eexists. reflexivity.
  - rewrite Hcall. replace b with true; [reflexivity|].
    symmetry. apply Hiff. split; [vm_compute; reflexivity|].
    exists (mkIntersect (main Earth)
              (Vector3_distanceTo (position demo_camera) (position (main Earth)))),
           Earth.
    split; [apply list_elem_of_In; vm_compute; left; reflexivity|].
    split; vm_compute; reflexivity.
Defined.

(** The test [length() === 0] also catches vectors that are not zero. *)
Example length_of_a_tiny_vector :
  Vector3_length (mkVector3 1e-200 0 0) = 0%float /\
  (1e-200 =? 0)%float = false.
Proof. split; vm_compute; reflexivity. Qed.

(** The two readings of the scenario in section 8 of the spec: a hit on the
    Earth at 0.00005 au blocks the camera, a hit at 0.5 au does not. *)
Example colliding_near_Earth :
  fst (colliding demo_intersectObjects demo_localToWorld (flying_towards Earth))
    = Normal true.
Proof. vm_compute. reflexivity. Qed.

Example colliding_far_from_Earth :
  fst (colliding demo_intersectObjects demo_localToWorld (flying_towards far_Earth))
    = Normal false.
Proof. vm_compute. reflexivity. Qed.

(** Not moving: no ray is cast. *)
Example colliding_when_still intersectObjects localToWorld :
  fst (colliding intersectObjects localToWorld
         (setModes ["free"] (initial demo_camera [Earth] (mkVector3 0 0 0) demo_config)))
    = Normal false.
Proof. reflexivity. Qed.

(** ** A blocked tick of free flight *)

Lemma each_intersect_pure bs intersects w :
  snd (each_intersect bs intersects w) = w.
Proof.
  induction intersects as [|i rest IH]; cbn [each_intersect]; [reflexivity|].
  destruct (getBody bs (o_name (object i))) as [body|]; [|reflexivity].
  destruct (distance i <? getCollisionDistance body)%float; [reflexivity | exact IH].
Qed.

Section FreeFlight.
Variable intersectObjects : Vector3 -> Vector3 -> list Object3D -> list Intersect.
Variable localToWorld : Object3D -> Vector3 -> Vector3.
Variable moveCamera : float -> float -> Vector3 -> Object3D -> Object3D.
Variable translateBodies : float -> list Body -> list Body.
Variable rotateBodies : float -> list Body -> list Body.

Lemma colliding_pure w : snd (colliding intersectObjects localToWorld w) = w.
Proof.
  unfold colliding, bind, get.
  destruct (Vector3_length (controls_translation w) =? 0)%float; [reflexivity|].
  destruct (length (raycast intersectObjects localToWorld w) =? 0)%nat;
    [reflexivity | apply each_intersect_pure].
Qed.

(** C7. On a tick of free flight on which [colliding()] returns true, the
    camera is not moved and no mode's recorded speed is written, so the HUD
    is refreshed with the speed left by an earlier tick.  The rest of the
    tick still happens: the Bodies are translated when [time-on] is set and
    rotated when [rotate-bodies] is set, their children are moved and the HUD
    is updated. *)
Theorem free_animationFrame_when_colliding w this delta :
  fst (colliding intersectObjects localToWorld w) = Normal true ->
  let r := free_animationFrame intersectObjects localToWorld moveCamera
             translateBodies rotateBodies this delta w in
  camera (snd r) = camera w /\
  modes (snd r) = modes w /\
  bodies (snd r) =
    (if rotate_bodies (config w) then rotateBodies delta else id)
      ((if time_on (config w) then translateBodies delta else id) (bodies w)) /\
  log (snd r) =
    (log w ++ (if time_on (config w) then [Time_increment] else [])
           ++ [Space_moveBodyChildren (Some delta)]
           ++ match modes w !! currentMode w with
              | Some m => [Hud_update delta (speed m)]
              | None => []
              end)%list /\
  (is_Some (modes w !! currentMode w) -> fst r = Normal Continue).
Proof.
  intros Hblocked r. subst r.
  assert (Hcall : colliding intersectObjects localToWorld w = (Normal true, w)).
  { pose proof (colliding_pure w) as Hpure.
    destruct (colliding intersectObjects localToWorld w) as [c w'].
    cbn [fst snd] in *. congruence. }
  unfold free_animationFrame, hud_update, getSpeed, bind, get, ret, throw,
    emit, modify.
  rewrite Hcall. cbv beta iota.
  destruct (time_on (config w)), (rotate_bodies (config w));
    cbn [config currentMode modes with_log with_bodies];
    destruct (modes w !! currentMode w) as [m|];
    cbn [fst snd camera modes bodies log with_log with_bodies];
    rewrite <- ?app_assoc; cbn [app];
    (repeat split; try reflexivity; try (intros [? ?]; discriminate)).
Qed.

End FreeFlight.

Lemma free_animationFrame_when_colliding_witness :
  let w := flying_towards Earth in
  let r := free_animationFrame demo_intersectObjects demo_localToWorld
             demo_moveCamera demo_translateBodies demo_rotateBodies
             "free" 0.05%float w in
  camera (snd r) = camera w /\
  modes (snd r) = modes w /\
  bodies (snd r) = bodies w /\
  log (snd r) =
    (log w ++ [Time_increment; Space_moveBodyChildren (Some 0.05%float);
               Hud_update 0.05%float 0%float])%list /\
  fst r = Normal Continue.
Proof.
  intros w r.
  assert (Hblocked :
    fst (colliding demo_intersectObjects demo_localToWorld w) = Normal true)
    by (vm_compute; reflexivity).
  destruct (free_animationFrame_when_colliding demo_intersectObjects
              demo_localToWorld demo_moveCamera demo_translateBodies
              demo_rotateBodies w "free" 0.05%float Hblocked)
    as (Hcam & Hmodes & Hbodies & Hlog & Hret).
  split; [exact Hcam|]. split; [exact Hmodes|]. split; [exact Hbodies|].
  split; [exact Hlog|].
  apply Hret. eexists. vm_compute. reflexivity.
Defined.

(** ** Auto flight never wakes free flight *)

Lemma count_events_app p l1 l2 :
  count_events p (l1 ++ l2) = count_events p l1 + count_events p l2.
Proof. unfold count_events. rewrite List.filter_app, length_app. reflexivity. Qed.

Lemma count_events_no_call n evs :
  Forall (fun e => is_call e = false) evs ->
  count_events (is_call_enable n) evs = 0.
Proof.
  induction 1 as [|e evs He _ IH]; [reflexivity|].
  unfold count_events in *. cbn [List.filter].
  destruct e; cbn in *; try discriminate; exact IH.
Qed.

Lemma keeps_calm_ret {A} (a : A) : keeps_calm (ret a).
Proof. intros c w H. exact H. Qed.

Lemma keeps_calm_throw {A} : keeps_calm (@throw A).
Proof. intros c w H. exact H. Qed.

Lemma keeps_calm_get : keeps_calm get.
Proof. intros c w H. exact H. Qed.

Lemma keeps_calm_bind {A B} (m : M A) (k : A -> M B) :
  keeps_calm m -> (forall a, keeps_calm (k a)) -> keeps_calm (bind m k).
Proof.
  intros Hm Hk c w Hw. unfold bind. specialize (Hm c w Hw).
  destruct (m w) as [[a|] w']; cbn [snd] in *; [apply Hk|]; assumption.
Qed.

Lemma keeps_calm_emit e :
  is_call_enable "free" e = false -> keeps_calm (emit e).
Proof.
  intros He c w (Hinv & Hcur & Hcount). repeat split; try assumption.
  unfold emit, modify. cbn [snd log with_log].
  rewrite count_events_app, Hcount. unfold count_events. cbn [List.filter].
  rewrite He. cbn. lia.
Qed.

Lemma keeps_calm_modify f : flags_untouched f -> keeps_calm (modify f).
Proof.
  intros Hf c w (Hinv & Hcur & Hcount). destruct (Hf w) as (Hen & Hc & Hl).
  cbn [modify snd]. repeat split.
  - intros n Hn. rewrite Hen in Hn. rewrite Hc. apply Hinv, Hn.
  - rewrite Hc. exact Hcur.
  - rewrite Hl. exact Hcount.
Qed.

Lemma flags_untouched_camera f : flags_untouched (with_camera f).
Proof. intros w. repeat split. Qed.
Lemma flags_untouched_pan q0 q1 t : flags_untouched (with_pan q0 q1 t).
Proof. intros w. repeat split. Qed.
Lemma flags_untouched_bodies f : flags_untouched (with_bodies f).
Proof. intros w. repeat split. Qed.
Lemma flags_untouched_config f : flags_untouched (with_config f).
Proof. intros w. repeat split. Qed.

Lemma flags_untouched_alter g this :
  (forall m, enabled (g m) = enabled m) ->
  flags_untouched (with_modes (alter g this)).
Proof.
  intros Hg w. repeat split. intros n. unfold is_enabled.
  cbn [modes with_modes]. rewrite lookup_alter.
  destruct (decide (this = n)) as [->|]; [|reflexivity].
  destruct (modes w !! n) as [m|]; cbn; [apply Hg | reflexivity].
Qed.

Lemma count_events_call_disable n this :
  count_events (is_call_enable n) [Call_disable this] = 0.
Proof. reflexivity. Qed.

Lemma count_events_call_enable_menu :
  count_events (is_call_enable "free") [Call_enable "menu"] = 0.
Proof. reflexivity. Qed.

Lemma log_with_log f w : log (with_log f w) = f (log w).
Proof. reflexivity. Qed.

Lemma log_with_currentMode n w : log (with_currentMode n w) = log w.
Proof. reflexivity. Qed.

Lemma currentMode_with_log f w : currentMode (with_log f w) = currentMode w.
Proof. reflexivity. Qed.

Lemma currentMode_with_currentMode n w : currentMode (with_currentMode n w) = n.
Proof. reflexivity. Qed.

Lemma keeps_calm_setMode_menu : keeps_calm (setMode "menu").
Proof.
  intros c w (Hinv & Hcur & Hcount).
  split; [apply setMode_only_current_enabled, Hinv|].
  rewrite setMode_eq.
  destruct (decide (currentMode w = "menu")); [split; assumption|].
  assert (Hafter : count_events (is_call_enable "free") (log (after_disable w)) = c).
  { unfold after_disable. destruct (modes w !! currentMode w); [|exact Hcount].
    destruct (disable_effect (currentMode w) w) as (_ & _ & _ & evs & -> & Hevs).
    rewrite (count_events_app _ (log w) (Call_disable (currentMode w) :: evs)).
    rewrite (count_events_app _ [Call_disable (currentMode w)] evs).
    rewrite Hcount, count_events_call_disable, (count_events_no_call _ _ Hevs).
    lia. }
  destruct (modes (after_disable w) !! "menu"); cbn [snd].
  - rewrite currentMode_with_log, currentMode_with_currentMode.
    split; [intros Heq; discriminate Heq|].
    destruct (enable_effect "menu" (after_disable w)) as (_ & _ & _ & evs & Hlog & Hevs).
    rewrite log_with_log, log_with_currentMode, Hlog, !count_events_app.
    rewrite (count_events_app _ [Call_enable "menu"] evs).
    rewrite Hafter, count_events_call_enable_menu, (count_events_no_call _ _ Hevs).
    unfold changed_message, count_events. cbn [List.filter is_call_enable length].
    lia.
  - rewrite after_disable_currentMode. split; assumption.
Qed.

Ltac calm_step :=
  first
    [ apply keeps_calm_setMode_menu
    | apply keeps_calm_bind; [|intros ?]
    | apply keeps_calm_ret
    | apply keeps_calm_throw
    | apply keeps_calm_get
    | apply keeps_calm_emit; reflexivity
    | apply keeps_calm_modify;
      first [ apply flags_untouched_camera
            | apply flags_untouched_pan
            | apply flags_untouched_bodies
            | apply flags_untouched_config
            | apply flags_untouched_alter; intros ?; reflexivity ]
    | match goal with
      | |- keeps_calm (if ?b then _ else _) => destruct b
      | |- keeps_calm (match ?o with _ => _ end) => destruct o
      end ].

Lemma keeps_calm_getTranslationSpeedMultiplier bodies_arg :
  keeps_calm (getTranslationSpeedMultiplier bodies_arg).
Proof. unfold getTranslationSpeedMultiplier. repeat calm_step. Qed.

Lemma keeps_calm_hud_update delta : keeps_calm (hud_update delta).
Proof. unfold hud_update, getSpeed. repeat calm_step. Qed.

Lemma keeps_calm_each_intersect bs intersects :
  keeps_calm (each_intersect bs intersects).
Proof.
  induction intersects as [|i rest IH]; cbn [each_intersect];
    repeat calm_step. exact IH.
Qed.

Section AutoFlight.
Variable intersectObjects : Vector3 -> Vector3 -> list Object3D -> list Intersect.
Variable localToWorld : Object3D -> Vector3 -> Vector3.
Variable slerp : Quaternion -> Quaternion -> float -> Quaternion.
Variable lookAt : Object3D -> Vector3 -> Quaternion.
Variable translateZ : float -> Object3D -> Object3D.
Variable moveCamera : float -> float -> Vector3 -> Object3D -> Object3D.
Variable translateBodies : float -> list Body -> list Body.
Variable rotateBodies : float -> list Body -> list Body.

Abbreviation tick :=
  (animate_callback intersectObjects localToWorld slerp translateZ moveCamera
     translateBodies rotateBodies).
Abbreviation run_ticks :=
  (ticks intersectObjects localToWorld slerp translateZ moveCamera
     translateBodies rotateBodies).

Lemma keeps_calm_tick self delta : keeps_calm (tick self delta).
Proof.
  unfold animate_callback.
  apply keeps_calm_bind; [apply keeps_calm_get | intros w0].
  destruct (modes w0 !! self) as [mode|]; [|calm_step].
  destruct (negb (enabled mode)); [repeat calm_step|].
  destruct (animationFrame mode); cbn [call_animationFrame].
  - calm_step.
  - unfold free_animationFrame, colliding, free_getSpeed.
    repeat first [ apply keeps_calm_getTranslationSpeedMultiplier
                 | apply keeps_calm_hud_update
                 | apply keeps_calm_each_intersect
                 | calm_step ].
  - calm_step.
  - unfold pan_animationFrame, auto_update, translateTo.
    repeat first [ apply keeps_calm_hud_update | calm_step ].
  - unfold translate_animationFrame, auto_update.
    repeat first [ apply keeps_calm_getTranslationSpeedMultiplier
                 | apply keeps_calm_hud_update
                 | calm_step ].
Qed.

Lemma keeps_calm_flyTo body : keeps_calm (flyTo lookAt body).
Proof. unfold flyTo, panTo. repeat calm_step. Qed.

Lemma run_ticks_calm self deltas c w :
  calm c w -> calm c (run_ticks self deltas w).
Proof.
  revert w. induction deltas as [|delta rest IH]; intros w Hw; cbn [ticks];
    [exact Hw|].
  pose proof (keeps_calm_tick self delta c w Hw) as Hstep.
  destruct (tick self delta w) as [[[]|] w']; cbn [snd] in Hstep;
    [apply IH| |]; assumption.
Qed.

(** *** The translate phase *)

Lemma setMode_menu_from_auto w :
  modes_registered w -> only_current_enabled w -> currentMode w = "auto" ->
  exists w',
    setMode "menu" w = (Normal tt, w') /\
    currentMode w' = "menu" /\
    is_enabled "menu" w' = true /\
    (forall n, n <> "menu" -> is_enabled n w' = false).
Proof.
  intros Hreg Hinv Hcur. rewrite setMode_eq.
  destruct (decide (currentMode w = "menu")) as [Heq|_]; [congruence|].
  assert (Hmenu : is_Some (modes (after_disable w) !! "menu")).
  { apply not_eq_None_Some. rewrite after_disable_lookup_None.
    apply not_eq_None_Some, Hreg. unfold mode_names. set_solver. }
  destruct Hmenu as [m Hm]. rewrite Hm. eexists. split; [reflexivity|].
  destruct (enable_effect "menu" (after_disable w)) as (_ & Hmodes & _).
  split; [reflexivity|]. split.
  - change (is_enabled "menu" (snd (enable "menu" (after_disable w))) = true).
    rewrite (is_enabled_alter _ _ "menu" _ _ Hmodes), Hm.
    destruct (decide ("menu" = "menu")); congruence.
  - intros n Hn.
    change (is_enabled n (snd (enable "menu" (after_disable w))) = false).
    rewrite (is_enabled_alter _ _ n _ _ Hmodes).
    destruct (decide ("menu" = n)); [congruence|].
    apply after_disable_none_enabled, Hinv.
Qed.

(** *** The pan phase *)

Lemma pan_tick_interpolates body q0 q1 t delta w :
  panning body q0 q1 t w ->
  (pan_clamp t <=? 1)%float = true ->
  exists w',
    tick "auto" delta w = (Normal Continue, w') /\
    panning body q0 q1 (pan_clamp t + 0.05)%float w' /\
    quaternion (camera w') = slerp q0 q1 (pan_clamp t) /\
    position (camera w') = position (camera w).
Proof.
  intros (Hcur & (m & Hm & Hen & Hframe) & <- & <- & <-) Hle.
  unfold pan_clamp in *.
  unfold animate_callback, bind, get. rewrite Hm, Hen. cbn [negb].
  rewrite Hframe. cbn [call_animationFrame].
  unfold pan_animationFrame, auto_update, hud_update, getSpeed, bind, get, ret,
    throw, emit, modify.
  destruct ((1 <? panTo_t w) && (panTo_t w <? 1 + 0.05))%float; cbv beta iota;
    cbn [panTo_t panTo_initialQuaternion panTo_targetQuaternion with_pan];
    rewrite Hle; cbv beta iota;
    cbn [currentMode modes with_log with_camera with_pan];
    rewrite Hcur, Hm; cbv beta iota;
    (eexists; split; [reflexivity|]);
    (split; [|split; reflexivity]);
    (repeat split; try assumption; exists m; repeat split; assumption).
Qed.

Lemma pan_tick_hands_over body q0 q1 t delta w :
  panning body q0 q1 t w ->
  ((1 <? t) && (t <? 1 + 0.05))%float = false ->
  (t <=? 1)%float = false ->
  tick "auto" delta w =
    (Normal Continue,
     with_modes (alter (set_animationFrame (Frame_translate body)) "auto") w).
Proof.
  intros (Hcur & (m & Hm & Hen & Hframe) & <- & <- & <-) Hsnap Hgt.
  unfold animate_callback, bind, get. rewrite Hm, Hen. cbn [negb].
  rewrite Hframe. cbn [call_animationFrame].
  unfold pan_animationFrame, translateTo, bind, get, ret, modify.
  rewrite Hsnap. cbv beta iota. rewrite Hgt. reflexivity.
Qed.

Lemma pan_seq_in_range k :
  k <= 20 -> (pan_clamp (pan_seq k) <=? 1)%float = true.
Proof.
  intros Hk.
  do 21 (destruct k as [|k]; [vm_compute; reflexivity|]).
  lia.
Qed.

Lemma pan_run body q0 q1 deltas : forall j w,
  j + length deltas <= 21 ->
  panning body q0 q1 (pan_seq j) w ->
  panning body q0 q1 (pan_seq (j + length deltas)) (run_ticks "auto" deltas w) /\
  position (camera (run_ticks "auto" deltas w)) = position (camera w) /\
  (deltas <> [] ->
   quaternion (camera (run_ticks "auto" deltas w)) =
     slerp q0 q1 (pan_clamp (pan_seq (j + length deltas - 1)))).
Proof.
  induction deltas as [|delta rest IH]; intros j w Hlen Hpan; cbn [length ticks].
  - rewrite Nat.add_0_r. repeat split; [apply Hpan..|congruence].
  - cbn [length] in Hlen.
    destruct (pan_tick_interpolates body q0 q1 (pan_seq j) delta w Hpan)
      as (w' & Htick & Hpan' & Hq & Hpos); [apply pan_seq_in_range; lia|].
    rewrite Htick.
    destruct (IH (S j) w') as (Hpan2 & Hpos2 & Hq2); [lia | exact Hpan' |].
    replace (j + S (length rest)) with (S j + length rest) by lia.
    split; [exact Hpan2|]. split; [congruence|]. intros _.
    destruct rest as [|delta2 rest].
    + cbn [ticks length]. rewrite Hq. f_equal. f_equal. f_equal. lia.
    + rewrite Hq2 by discriminate. reflexivity.
Qed.

Lemma setMode_auto_enters w :
  modes_registered w -> currentMode w <> "auto" ->
  currentMode (snd (setMode "auto" w)) = "auto" /\
  exists m, modes (snd (setMode "auto" w)) !! "auto" = Some m /\ enabled m = true.
Proof.
  intros Hreg Hne. rewrite setMode_eq.
  destruct (decide (currentMode w = "auto")); [congruence|].
  assert (Hauto : is_Some (modes (after_disable w) !! "auto")).
  { apply not_eq_None_Some. rewrite after_disable_lookup_None.
    apply not_eq_None_Some, Hreg. unfold mode_names. set_solver. }
  destruct Hauto as [m Hm]. rewrite Hm. split; [reflexivity|].
  cbn [snd modes with_log with_currentMode].
  destruct (enable_effect "auto" (after_disable w)) as (_ & -> & _).
  rewrite lookup_alter_eq, Hm. eexists. split; reflexivity.
Qed.

Lemma flyTo_starts_panning w body body_mesh :
  currentMode w = "auto" ->
  (exists m, modes w !! "auto" = Some m /\ enabled m = true) ->
  mesh body = Some body_mesh ->
  panning body (quaternion (camera w)) (lookAt (camera w) (position body_mesh))
    0%float (snd (flyTo lookAt body w)) /\
  camera (snd (flyTo lookAt body w)) = camera w.
Proof.
  intros Hcur (m & Hm & Hen) Hmesh.
  unfold flyTo, panTo, bind, get, ret, emit, modify. rewrite Hmesh. cbv beta iota.
  cbn [snd]. split; [|reflexivity]. repeat split; try assumption.
  exists (set_animationFrame (Frame_pan body) m).
  cbn [modes with_modes with_pan with_config with_log].
  rewrite lookup_alter_eq, Hm. repeat split. exact Hen.
Qed.

Lemma panning_auto_frame body q0 q1 t w :
  panning body q0 q1 t w -> auto_frame w = Some (Frame_pan body).
Proof.
  intros (_ & (m & Hm & _ & Hframe) & _). unfold auto_frame.
  rewrite Hm. cbn. congruence.
Qed.

(** C3. The pan phase of auto flight, entered by [setMode('auto')] and
    [flyTo(body)].  [t] starts at 0 and grows by 0.05 per tick, and tick
    [k + 1] sets the camera's orientation to the slerp from the orientation
    captured by [panTo] to the target orientation, at the value [t] has at
    that tick after the snap.  The first twenty ticks need no snap.  After
    twenty increments [t] is not 1 but a little more; tick twenty-one snaps it
    to exactly 1, so, for a slerp that yields its second argument at 1, that
    tick leaves the camera exactly on the target orientation.  The tick after
    it installs the translate phase as the mode's [animationFrame]. *)
Theorem pan_reaches_target_exactly w body body_mesh deltas delta :
  (forall q0 q1, slerp q0 q1 1 = q1) ->
  modes_registered w ->
  currentMode w <> "auto" ->
  mesh body = Some body_mesh ->
  length deltas = 21 ->
  let wa := snd (setMode "auto" w) in
  let q0 := quaternion (camera wa) in
  let target := lookAt (camera wa) (position body_mesh) in
  let w0 := snd (flyTo lookAt body wa) in
  let w21 := run_ticks "auto" deltas w0 in
  panTo_t w0 = 0%float /\
  (forall k, k < 21 ->
     quaternion (camera (run_ticks "auto" (take (S k) deltas) w0)) =
       slerp q0 target (pan_clamp (pan_seq k)) /\
     auto_frame (run_ticks "auto" (take (S k) deltas) w0) = Some (Frame_pan body)) /\
  (forall k, k < 20 -> pan_clamp (pan_seq k) = pan_seq k) /\
  (1 <? pan_seq 20)%float = true /\
  (pan_seq 20 <? 1 + 0.05)%float = true /\
  pan_clamp (pan_seq 20) = 1%float /\
  quaternion (camera w21) = target /\
  tick "auto" delta w21 =
    (Normal Continue,
     with_modes (alter (set_animationFrame (Frame_translate body)) "auto") w21) /\
  auto_frame (snd (tick "auto" delta w21)) = Some (Frame_translate body).
Proof.
  intros Hslerp Hreg Hne Hmesh Hlen wa q0 target w0 w21.
  destruct (setMode_auto_enters w Hreg Hne) as (Hcur & Hauto).
  destruct (flyTo_starts_panning wa body body_mesh Hcur Hauto Hmesh) as (Hpan0 & Hcam0).
  fold w0 q0 target in Hpan0.
  assert (Hprefix : forall k, k < 21 ->
    panning body q0 target (pan_seq (S k)) (run_ticks "auto" (take (S k) deltas) w0) /\
    quaternion (camera (run_ticks "auto" (take (S k) deltas) w0)) =
      slerp q0 target (pan_clamp (pan_seq k))).
  { intros k Hk.
    assert (Hl : length (take (S k) deltas) = S k) by (rewrite length_take; lia).
    destruct (pan_run body q0 target (take (S k) deltas) 0 w0) as (Hp & _ & Hq);
      [rewrite Hl; lia | exact Hpan0 |].
    rewrite Hl in Hp, Hq. cbn [Nat.add] in Hp, Hq.
    split; [exact Hp|]. rewrite Hq.
    - f_equal. f_equal. f_equal. lia.
    - intros Hnil. rewrite Hnil in Hl. discriminate. }
  assert (Hall : take 21 deltas = deltas) by (apply firstn_all2; lia).
  destruct (Hprefix 20) as (Hpan21 & Hq21); [lia|].
  rewrite Hall in Hpan21, Hq21. fold w21 in Hpan21, Hq21.
  assert (Hsnapped : pan_clamp (pan_seq 20) = 1%float) by (vm_compute; reflexivity).
  assert (Hover : tick "auto" delta w21 =
    (Normal Continue,
     with_modes (alter (set_animationFrame (Frame_translate body)) "auto") w21)).
  { apply (pan_tick_hands_over body q0 target (pan_seq 21));
      [exact Hpan21 | vm_compute; reflexivity | vm_compute; reflexivity]. }
  split; [apply Hpan0|].
  split.
  { intros k Hk. destruct (Hprefix k Hk) as (Hp & Hq).
    split; [exact Hq | exact (panning_auto_frame _ _ _ _ _ Hp)]. }
  split.
  { intros k Hk. do 20 (destruct k as [|k]; [vm_compute; reflexivity|]). lia. }
  split; [vm_compute; reflexivity|].
  split; [vm_compute; reflexivity|].
  split; [exact Hsnapped|].
  split; [rewrite Hq21, Hsnapped; apply Hslerp|].
  split; [exact Hover|].
  rewrite Hover. cbn [snd]. unfold auto_frame. cbn [modes with_modes].
  rewrite lookup_alter_eq.
  destruct Hpan21 as (_ & (m & -> & _) & _). reflexivity.
Qed.

Lemma translate_animationFrame_moving w this body delta :
  isColliding body (camera w) = false ->
  let multiplier := getClosestDistance [body] (camera w) in
  let translationZ := (controls_z_speed (config w) * delta * multiplier)%float in
  let r := translate_animationFrame translateZ this body delta w in
  getTranslationSpeedMultiplier (Some [body]) w = (Normal multiplier, w) /\
  camera (snd r) = translateZ (- translationZ)%float (camera w) /\
  modes (snd r) = alter (set_speed (translationZ / delta)%float) this (modes w) /\
  currentMode (snd r) = currentMode w /\
  log (snd r) =
    (log w ++ [Space_moveBodyChildren None]
           ++ match alter (set_speed (translationZ / delta)%float) this (modes w)
                      !! currentMode w with
              | Some m => [Hud_update delta (speed m)]
              | None => []
              end)%list /\
  (is_Some (modes w !! currentMode w) -> fst r = Normal Continue).
Proof.
  intros Hfree multiplier translationZ r. subst r.
  split; [reflexivity|].
  unfold translate_animationFrame, auto_update, hud_update, getSpeed,
    getTranslationSpeedMultiplier, bind, get, ret, throw, emit, modify.
  rewrite Hfree. cbv beta iota.
  cbn [currentMode modes camera log with_log with_modes with_camera].
  fold multiplier. fold translationZ.
  rewrite (lookup_alter (set_speed (translationZ / delta)%float) (modes w) this
             (currentMode w)).
  destruct (decide (this = currentMode w)) as [->|];
    destruct (modes w !! currentMode w) as [m|];
    cbn [fmap option_fmap option_map fst snd currentMode modes camera log
           with_log with_modes with_camera];
    rewrite <- ?app_assoc; cbn [app];
    (repeat split; try reflexivity; try (intros [? ?]; discriminate)).
Qed.

(** C4. A tick of the translate phase of auto flight.  When the target
    Body reports a collision with the camera, the tick switches the flight
    mode to menu and returns the stop signal.  Otherwise it moves the camera
    along its local z axis by minus [controls-z-speed * delta * multiplier],
    where the multiplier is [getTranslationSpeedMultiplier([body])], stores
    that distance divided by [delta] as the mode's speed, and runs the auto
    update (the Bodies' children, then the HUD).  The stored speed can be
    read back: the mode object of [this] afterwards is the one from before
    with that speed in its [speed] property, no other mode object changes,
    and when [this] is the current mode, as it is for the auto mode in auto
    flight, [flight.getSpeed()] returns that speed and it is the speed the
    HUD was refreshed with.  And whatever the ticks of a [flyTo] manoeuvre
    do, started by [setMode('auto')], free flight is not enabled after any of
    them and its [enable()] is never entered. *)
Theorem translate_animationFrame_spec :
  (forall w this body delta,
     isColliding body (camera w) = true ->
     modes_registered w -> only_current_enabled w -> currentMode w = "auto" ->
     exists w',
       translate_animationFrame translateZ this body delta w = (Normal Stop, w') /\
       currentMode w' = "menu" /\
       is_enabled "menu" w' = true /\
       (forall n, n <> "menu" -> is_enabled n w' = false)) /\
  (forall w this body delta,
     isColliding body (camera w) = false ->
     let multiplier := getClosestDistance [body] (camera w) in
     let translationZ := (controls_z_speed (config w) * delta * multiplier)%float in
     let r := translate_animationFrame translateZ this body delta w in
     getTranslationSpeedMultiplier (Some [body]) w = (Normal multiplier, w) /\
     camera (snd r) = translateZ (- translationZ)%float (camera w) /\
     modes (snd r) = alter (set_speed (translationZ / delta)%float) this (modes w) /\
     currentMode (snd r) = currentMode w /\
     log (snd r) =
       (log w ++ [Space_moveBodyChildren None]
              ++ match alter (set_speed (translationZ / delta)%float) this (modes w)
                         !! currentMode w with
                 | Some m => [Hud_update delta (speed m)]
                 | None => []
                 end)%list /\
     (is_Some (modes w !! currentMode w) -> fst r = Normal Continue) /\
     (forall m, modes w !! this = Some m ->
        modes (snd r) !! this =
          Some (mkMode (mode_name m) (enabled m) (translationZ / delta)%float
                  (animationFrame m))) /\
     (forall n, n <> this -> modes (snd r) !! n = modes w !! n) /\
     (this = currentMode w -> is_Some (modes w !! this) ->
        getSpeed (snd r) = (Normal (translationZ / delta)%float, snd r) /\
        log (snd r) =
          (log w ++ [Space_moveBodyChildren None;
                     Hud_update delta (translationZ / delta)%float])%list)) /\
  (forall w body deltas,
     modes_registered w -> only_current_enabled w ->
     let w0 := snd (setMode "auto" w) in
     let w1 := snd (flyTo lookAt body w0) in
     let w2 := run_ticks "auto" deltas w1 in
     currentMode w0 = "auto" /\
     is_enabled "free" w2 = false /\
     count_events (is_call_enable "free") (log w2) =
       count_events (is_call_enable "free") (log w0)).
Proof.
  split; [|split].
  - intros w this body delta Hhit Hreg Hinv Hcur.
    destruct (setMode_menu_from_auto w Hreg Hinv Hcur) as (w' & Hset & Hrest).
    exists w'. split; [|exact Hrest].
    unfold translate_animationFrame, bind, get. rewrite Hhit, Hset. reflexivity.
  - intros w this body delta Hfree multiplier translationZ r.
    destruct (translate_animationFrame_moving w this body delta Hfree)
      as (Hmult & Hcam & Hmodes & Hcur & Hlog & Hret).
    fold multiplier in Hmult, Hcam, Hmodes, Hlog.
    fold translationZ in Hcam, Hmodes, Hlog. fold r in Hcam, Hmodes, Hcur, Hlog, Hret.
    split; [exact Hmult|]. split; [exact Hcam|]. split; [exact Hmodes|].
    split; [exact Hcur|]. split; [exact Hlog|]. split; [exact Hret|].
    split; [|split].
    + intros m Hm. rewrite Hmodes, lookup_alter_eq, Hm. reflexivity.
    + intros n Hn. rewrite Hmodes, lookup_alter.
      destruct (decide (this = n)); [congruence | reflexivity].
    + intros Hthis [m Hm]. split.
      * unfold getSpeed, bind, get. rewrite Hcur, Hmodes, <- Hthis, lookup_alter_eq, Hm.
        reflexivity.
      * rewrite Hlog, <- Hthis, lookup_alter_eq, Hm. reflexivity.
  - intros w body deltas Hreg Hinv w0 w1 w2.
    assert (Hcur : currentMode w0 = "auto").
    { subst w0. rewrite setMode_eq.
      destruct (decide (currentMode w = "auto")); [assumption|].
      assert (Hauto : is_Some (modes (after_disable w) !! "auto")).
      { apply not_eq_None_Some. rewrite after_disable_lookup_None.
        apply not_eq_None_Some, Hreg. unfold mode_names. set_solver. }
      destruct Hauto as [m ->]. reflexivity. }
    split; [exact Hcur|].
    assert (Hcalm : calm (count_events (is_call_enable "free") (log w0)) w0).
    { repeat split.
      - apply setMode_only_current_enabled, Hinv.
      - rewrite Hcur. discriminate. }
    apply (keeps_calm_flyTo body) in Hcalm. fold w1 in Hcalm.
    apply (run_ticks_calm "auto" deltas) in Hcalm. fold w2 in Hcalm.
    destruct Hcalm as (Hinv2 & Hcur2 & Hcount). split; [|exact Hcount].
    destruct (is_enabled "free" w2) eqn:Hfree; [|reflexivity].
    apply Hinv2 in Hfree. congruence.
Qed.

End AutoFlight.

(** [panTo] reads [body.mesh.position].  The constructor in
    [kimchi.space.Body.js] keeps the render object under [object3Ds.main] and
    sets no [mesh], so for a Body exactly as it builds it [flyTo] throws
    before the pan closure is installed; the manoeuvre needs a Body that
    carries [mesh]. *)
Example flyTo_needs_mesh lookAt kmPerAu options w :
  fst (flyTo lookAt (new_Body kmPerAu options) w) = Thrown /\
  modes (snd (flyTo lookAt (new_Body kmPerAu options) w)) = modes w.
Proof. split; reflexivity. Qed.

Lemma pan_reaches_target_exactly_witness :
  quaternion (camera (demo_ticks "auto" (repeat 0.05%float 21) flying_to_Mars))
    = mkQuaternion 0 0 0 1.
Proof.
  assert (Hslerp : forall q0 q1, demo_slerp q0 q1 1 = q1) by reflexivity.
  assert (Hreg : modes_registered in_menu).
  { apply setModes_invariant;
      [apply initial_only_current_enabled | apply initial_modes_registered]. }
  assert (Hcur : currentMode in_menu <> "auto") by (vm_compute; discriminate).
  assert (Hmesh : mesh Mars = Some (main Mars)) by reflexivity.
  assert (Hlen : length (repeat 0.05%float 21) = 21) by reflexivity.
  exact (proj1 (proj2 (proj2 (proj2 (proj2 (proj2 (proj2
    (pan_reaches_target_exactly demo_intersectObjects demo_localToWorld
       demo_slerp demo_lookAt demo_translateZ demo_moveCamera
       demo_translateBodies demo_rotateBodies in_menu Mars (main Mars)
       (repeat 0.05%float 21) 0.05%float Hslerp Hreg Hcur Hmesh Hlen)))))))).
Defined.

Lemma modes_registered_dom w :
  dom (modes w) = list_to_set mode_names -> modes_registered w.
Proof.
  intros Hdom n. rewrite <- elem_of_dom, Hdom, elem_of_list_to_set. reflexivity.
Qed.

Lemma translate_animationFrame_spec_witness :
  (exists w',
     translate_animationFrame demo_translateZ "auto" Mars 0.05%float
       (demo_ticks "auto" (repeat 0.05%float 204) flying_to_Mars) = (Normal Stop, w') /\
     currentMode w' = "menu" /\
     is_enabled "menu" w' = true /\
     (forall n, n <> "menu" -> is_enabled n w' = false)) /\
  (let w := demo_ticks "auto" (repeat 0.05%float 30) flying_to_Mars in
   let r := translate_animationFrame demo_translateZ "auto" Mars 0.05%float w in
   fst (getSpeed w) = Normal 0.34916864804687492%float /\
   fst (getSpeed (snd r)) = Normal 0.33171021564453124%float).
Proof.
  pose proof (translate_animationFrame_spec demo_intersectObjects
                demo_localToWorld demo_slerp demo_lookAt demo_translateZ
                demo_moveCamera demo_translateBodies demo_rotateBodies)
    as (Harrives & Hmoves & _).
  split.
  - apply Harrives.
    + vm_compute. reflexivity.
    + apply modes_registered_dom. vm_compute. reflexivity.
    + assert (Hcalm : calm 0 (snd (setMode "auto" in_menu))).
      { repeat split.
        - apply setMode_only_current_enabled, setModes_invariant;
            [apply initial_only_current_enabled | apply initial_modes_registered].
        - vm_compute. discriminate. }
      apply (keeps_calm_flyTo demo_lookAt Mars) in Hcalm.
      apply (run_ticks_calm demo_intersectObjects demo_localToWorld demo_slerp
               demo_translateZ demo_moveCamera demo_translateBodies
               demo_rotateBodies "auto" (repeat 0.05%float 204)) in Hcalm.
      apply Hcalm.
    + vm_compute. reflexivity.
  - intros w r. split; [vm_compute; reflexivity|].
    assert (Hfree : isColliding Mars (camera w) = false) by (vm_compute; reflexivity).
    destruct (Hmoves w "auto" Mars 0.05%float Hfree)
      as (_ & _ & _ & _ & _ & _ & _ & _ & Hread).
    destruct Hread as (Hspeed & _).
    + vm_compute. reflexivity.
    + eexists. vm_compute. reflexivity.
    + fold r in Hspeed. rewrite Hspeed. vm_compute. reflexivity.
Defined.

(** The scenario of section 8 of the spec, run on the stand-ins at twenty
    ticks a second: twenty-two ticks of panning, then the camera closes in on
    Mars until the Body reports a collision on tick 205, which puts the
    flight mode back to menu.  Free flight was not entered on the way. *)
Example flyTo_Mars_ends_in_menu :
  let before := demo_ticks "auto" (repeat 0.05%float 204) flying_to_Mars in
  let after := demo_ticks "auto" (repeat 0.05%float 205) flying_to_Mars in
  currentMode in_menu = "menu" /\
  currentMode before = "auto" /\
  auto_frame before = Some (Frame_translate Mars) /\
  isColliding Mars (camera before) = true /\
  currentMode after = "menu" /\
  is_enabled "menu" after = true /\
  is_enabled "auto" after = false /\
  is_enabled "free" after = false /\
  count_events (is_call_enable "free") (log after) = 0.
Proof. vm_compute. repeat split; reflexivity. Qed.

(** ** The translation speed multiplier *)




(** The closest of two Bodies, and no Body at all. *)
Example multiplier_of_Earth_and_Mars :
  fst (getTranslationSpeedMultiplier None
         (initial demo_camera [far_Earth; Mars] (mkVector3 0 0 0) demo_config))
    = Normal 0.5%float /\
  fst (getTranslationSpeedMultiplier None
         (initial demo_camera [Earth; Mars] (mkVector3 0 0 0) demo_config))
    = Normal 0.00005%float /\
  fst (getTranslationSpeedMultiplier None
         (initial demo_camera [] (mkVector3 0 0 0) demo_config))
    = Normal infinity.
Proof. vm_compute. repeat split; reflexivity. Qed.

(** ** Radius and collision distance of a Body *)

Lemma zero_div_not_positive k : (0 <? 0 / k)%float = false.
Proof.
  rewrite ltb_spec, div_spec. change (Prim2SF 0) with (S754_zero false).
  unfold SF64div, SFdiv.
  destruct (Prim2SF k) as [[]|[]| |[] m e]; reflexivity.
Qed.

Lemma add_zero_inv m : (0 + m)%float = 0%float -> m = 0%float \/ m = (-0)%float.
Proof.
  intros H. apply (f_equal Prim2SF) in H. rewrite add_spec in H.
  change (Prim2SF 0) with (S754_zero false) in H.
  rewrite <- (SF2Prim_Prim2SF m).
  unfold SF64add, SFadd in H.
  destruct (Prim2SF m) as [[]|[]| |s mm e]; try discriminate H;
    [right | left]; reflexivity.
Qed.

(** C8 as the spec words it fails on the code twice over: a Body
    constructed without [radiusInKm] has a radius that is not positive,
    whatever [kmPerAu] is, and no one margin turns every Body's scaled radius
    into its collision distance. *)
Lemma Body_radius_and_margin_counterexample :
  (forall kmPerAu, (0 <? radius (new_Body kmPerAu no_radius))%float = false) /\
  ~ (exists margin, forall b,
       getCollisionDistance b = (getScaledRadius b + margin)%float).
Proof.
  split.
  - intros kmPerAu. apply zero_div_not_positive.
  - intros [margin Hmargin].
    pose proof (Hmargin (new_Body demo_kmPerAu no_radius)) as H0.
    pose proof (Hmargin Earth) as H1.
    assert (Hzero : (0 + margin)%float = 0%float) by (symmetry; exact H0).
    assert (Hne0 : (getCollisionDistance Earth =? getScaledRadius Earth + 0)%float = false)
      by reflexivity.
    assert (Hne1 : (getCollisionDistance Earth =? getScaledRadius Earth + -0)%float = false)
      by reflexivity.
    assert (Hrefl : (getCollisionDistance Earth =? getCollisionDistance Earth)%float = true)
      by reflexivity.
    destruct (add_zero_inv margin Hzero) as [-> | ->].
    + rewrite <- H1, Hrefl in Hne0. discriminate Hne0.
    + rewrite <- H1, Hrefl in Hne1. discriminate Hne1.
Qed.

(** C8, as the code has it.  The radius of a Body is its [radiusInKm], 0
    when the options give none, divided by [kmPerAu].  The margin between
    the scaled radius and the collision distance is the scaled radius again,
    so the collision distance is the scaled radius added to itself.  It is
    monotonic in the scaled radius: it never decreases when the scaled radius
    grows, and it grows strictly as long as it stays finite. *)
Theorem getCollisionDistance_doubles_scaled_radius :
  (forall kmPerAu options,
     radius (new_Body kmPerAu options) =
       (default 0%float (opt_radiusInKm options) / kmPerAu)%float) /\
  (forall b, getSurfaceCollisionDistance b = getScaledRadius b) /\
  (forall b, getCollisionDistance b = (getScaledRadius b + getScaledRadius b)%float) /\
  (forall b1 b2,
     (getScaledRadius b1 <=? getScaledRadius b2)%float = true ->
     (getCollisionDistance b1 <=? getCollisionDistance b2)%float = true) /\
  (forall b1 b2,
     is_finite (getCollisionDistance b1) = true ->
     is_finite (getCollisionDistance b2) = true ->
     (getScaledRadius b1 <? getScaledRadius b2)%float = true ->
     (getCollisionDistance b1 <? getCollisionDistance b2)%float = true).
Proof.
  split; [reflexivity|]. split; [reflexivity|]. split; [reflexivity|].
  split.
  - intros b1 b2 Hle. unfold getCollisionDistance, getSurfaceCollisionDistance.
    apply add_diag_leb, Hle.
  - intros b1 b2. unfold getCollisionDistance, getSurfaceCollisionDistance.
    apply add_diag_ltb.
Qed.

Lemma getCollisionDistance_doubles_scaled_radius_witness :
  (getCollisionDistance Mars <=? getCollisionDistance Earth)%float = true.
Proof.
  apply (proj1 (proj2 (proj2 (proj2 getCollisionDistance_doubles_scaled_radius)))
           Mars Earth).
  vm_compute. reflexivity.
Defined.

(** * Further properties *)

(** ** [setMode] and the scene *)

Lemma enable_same_scene this w : same_scene w (snd (enable this w)).
Proof. unfold enable. dispatch_mode this; repeat split. Qed.

Lemma disable_same_scene this w : same_scene w (snd (disable this w)).
Proof. unfold disable. dispatch_mode this; repeat split. Qed.

Lemma same_scene_refl w : same_scene w w.
Proof. repeat split. Qed.

Lemma same_scene_trans w1 w2 w3 :
  same_scene w1 w2 -> same_scene w2 w3 -> same_scene w1 w3.
Proof.
  unfold same_scene. intros (?&?&?&?&?&?&?) (?&?&?&?&?&?&?).
  repeat split; congruence.
Qed.

Lemma after_disable_same_scene w : same_scene w (after_disable w).
Proof.
  unfold after_disable. destruct (modes w !! currentMode w);
    [apply disable_same_scene | apply same_scene_refl].
Qed.

Lemma setMode_same_scene name w : same_scene w (snd (setMode name w)).
Proof.
  rewrite setMode_eq.
  destruct (decide (currentMode w = name)); [apply same_scene_refl|].
  destruct (modes (after_disable w) !! name); cbn [snd].
  - eapply same_scene_trans; [apply after_disable_same_scene|].
    pose proof (enable_same_scene name (after_disable w)) as H.
    exact H.
  - apply after_disable_same_scene.
Qed.

Lemma registered_is_Some w n :
  modes_registered w -> n ∈ mode_names -> is_Some (modes w !! n).
Proof. intros Hreg Hn. apply Hreg, Hn. Qed.

Lemma after_disable_is_Some w n :
  is_Some (modes (after_disable w) !! n) <-> is_Some (modes w !! n).
Proof. rewrite <- !not_eq_None_Some, after_disable_lookup_None. reflexivity. Qed.

Lemma is_enabled_Some n w : is_enabled n w = true -> is_Some (modes w !! n).
Proof.
  unfold is_enabled. destruct (modes w !! n); [eexists; reflexivity | discriminate].
Qed.

(** X1. A switch that succeeds.  With the three modes in place and nothing
    enabled but the current mode, [setMode] with the name of another of the
    three modes returns normally; afterwards that mode is the current one
    and the one enabled mode, the scene is untouched, and the trace grew by
    the previous mode's [disable()] (when there was a previous mode), then
    the new mode's [enable()], then the console message. *)
Theorem setMode_switches w name :
  modes_registered w ->
  only_current_enabled w ->
  name ∈ mode_names ->
  name <> currentMode w ->
  exists w' evs1 evs2,
    setMode name w = (Normal tt, w') /\
    currentMode w' = name /\
    (forall n, is_enabled n w' = bool_decide (n = name)) /\
    same_scene w w' /\
    log w' =
      (log w
       ++ (if decide (currentMode w ∈ mode_names)
           then Call_disable (currentMode w) :: evs1 else [])
       ++ Call_enable name :: evs2
       ++ [changed_message (currentMode w) name])%list /\
    Forall (fun e => is_call e = false) evs1 /\
    Forall (fun e => is_call e = false) evs2.
Proof.
  intros Hreg Hinv Hname Hne.
  pose proof (setMode_same_scene name w) as Hscene.
  rewrite setMode_eq in *.
  destruct (decide (currentMode w = name)) as [Heq|_]; [congruence|].
  destruct (proj2 (after_disable_is_Some w name) (registered_is_Some w name Hreg Hname))
    as [m Hm].
  rewrite Hm in *. cbn [snd] in Hscene.
  destruct (enable_effect name (after_disable w))
    as (_ & Hmodes & _ & evs2 & Hlog2 & Hevs2).
  assert (Hlog1 : exists evs1,
    log (after_disable w) =
      (log w ++ (if decide (currentMode w ∈ mode_names)
                 then Call_disable (currentMode w) :: evs1 else []))%list /\
    Forall (fun e => is_call e = false) evs1).
  { unfold after_disable.
    destruct (decide (currentMode w ∈ mode_names)) as [Hin|Hout].
    - destruct (registered_is_Some w _ Hreg Hin) as [m0 ->].
      destruct (disable_effect (currentMode w) w) as (_ & _ & _ & evs1 & -> & Hevs1).
      exists evs1. split; [reflexivity | assumption].
    - destruct (modes w !! currentMode w) eqn:Hprev.
      + destruct Hout. apply Hreg. eexists; exact Hprev.
      + exists []. split; [rewrite app_nil_r; reflexivity | constructor]. }
  destruct Hlog1 as (evs1 & Hlog1 & Hevs1).
  eexists; exists evs1, evs2. split; [reflexivity|].
  split; [reflexivity|]. split.
  { intros n.
    change (is_enabled n (snd (enable name (after_disable w))) = bool_decide (n = name)).
    rewrite (is_enabled_alter _ _ n _ _ Hmodes), Hm.
    destruct (decide (name = n)) as [->|Hn].
    - rewrite bool_decide_eq_true_2; reflexivity.
    - rewrite bool_decide_eq_false_2 by congruence.
      apply after_disable_none_enabled, Hinv. }
  split; [exact Hscene|]. split; [|split; assumption].
  rewrite log_with_log, log_with_currentMode, Hlog2, Hlog1.
  rewrite <- !app_assoc. reflexivity.
Qed.

Lemma setMode_switches_witness :
  exists w' evs1 evs2,
    setMode "auto" in_menu = (Normal tt, w') /\
    currentMode w' = "auto" /\
    (forall n, is_enabled n w' = bool_decide (n = "auto")) /\
    same_scene in_menu w' /\
    log w' =
      (log in_menu
       ++ (if decide (currentMode in_menu ∈ mode_names)
           then Call_disable (currentMode in_menu) :: evs1 else [])
       ++ Call_enable "auto" :: evs2
       ++ [changed_message (currentMode in_menu) "auto"])%list /\
    Forall (fun e => is_call e = false) evs1 /\
    Forall (fun e => is_call e = false) evs2.
Proof.
  apply (setMode_switches in_menu "auto").
  - apply setModes_invariant;
      [apply initial_only_current_enabled | apply initial_modes_registered].
  - apply setModes_invariant;
      [apply initial_only_current_enabled | apply initial_modes_registered].
  - unfold mode_names. set_solver.
  - vm_compute. discriminate.
Defined.

(** ** What a mode switch leaves of a mode object *)

Lemma same_but_enabled_refl m : same_but_enabled m m.
Proof. repeat split. Qed.

Lemma same_but_enabled_trans m1 m2 m3 :
  same_but_enabled m1 m2 -> same_but_enabled m2 m3 -> same_but_enabled m1 m3.
Proof. unfold same_but_enabled. intros (?&?&?) (?&?&?). repeat split; congruence. Qed.

Lemma alter_set_enabled_lookup b k (ms : gmap string Mode) n :
  option_Forall2 same_but_enabled (ms !! n) (alter (set_enabled b) k ms !! n).
Proof.
  rewrite lookup_alter. destruct (decide (k = n)) as [->|].
  - destruct (ms !! n); constructor. repeat split.
  - destruct (ms !! n); constructor. apply same_but_enabled_refl.
Qed.

Lemma option_Forall2_same_trans (a b c : option Mode) :
  option_Forall2 same_but_enabled a b -> option_Forall2 same_but_enabled b c ->
  option_Forall2 same_but_enabled a c.
Proof.
  intros [m1 m2 H12|] Hbc; inversion Hbc; subst; constructor.
  eapply same_but_enabled_trans; eassumption.
Qed.

Lemma after_disable_lookup w n :
  option_Forall2 same_but_enabled (modes w !! n) (modes (after_disable w) !! n).
Proof.
  unfold after_disable. destruct (modes w !! currentMode w).
  - destruct (disable_effect (currentMode w) w) as (_ & -> & _).
    apply alter_set_enabled_lookup.
  - destruct (modes w !! n); constructor. apply same_but_enabled_refl.
Qed.

Lemma setMode_lookup name w n :
  option_Forall2 same_but_enabled (modes w !! n) (modes (snd (setMode name w)) !! n).
Proof.
  rewrite setMode_eq.
  destruct (decide (currentMode w = name)); cbn [snd].
  { destruct (modes w !! n); constructor. apply same_but_enabled_refl. }
  destruct (modes (after_disable w) !! name); cbn [snd];
    [|apply after_disable_lookup].
  eapply option_Forall2_same_trans; [apply after_disable_lookup|].
  change (modes (with_log _ (with_currentMode name (snd (enable name (after_disable w))))))
    with (modes (snd (enable name (after_disable w)))).
  destruct (enable_effect name (after_disable w)) as (_ & -> & _).
  apply alter_set_enabled_lookup.
Qed.

(** ** Properties that survive the code *)

Lemma preserves_ret I {A} (a : A) : preserves I (ret a).
Proof. intros w H. exact H. Qed.

Lemma preserves_throw I {A} : preserves I (@throw A).
Proof. intros w H. exact H. Qed.

Lemma preserves_get I : preserves I get.
Proof. intros w H. exact H. Qed.

Lemma preserves_bind I {A B} (m : M A) (k : A -> M B) :
  preserves I m -> (forall a, preserves I (k a)) -> preserves I (bind m k).
Proof.
  intros Hm Hk w Hw. unfold bind. specialize (Hm w Hw).
  destruct (m w) as [[a|] w']; cbn [snd] in *; [apply Hk|]; assumption.
Qed.

Lemma preserves_modify (I : World -> Prop) f :
  (forall w, I w -> I (f w)) -> preserves I (modify f).
Proof. intros Hf w Hw. apply Hf, Hw. Qed.

Lemma preserves_emit I e : tick_stable I -> quiet e = true -> preserves I (emit e).
Proof.
  intros HI He. apply preserves_modify. intros w. apply (stable_log I HI e w He).
Qed.

Ltac preserves_step HI :=
  first
    [ apply (stable_menu _ HI)
    | apply preserves_bind; [|intros ?]
    | apply preserves_ret
    | apply preserves_throw
    | apply preserves_get
    | apply preserves_emit; [exact HI | reflexivity]
    | apply preserves_modify;
      first [ apply (stable_camera _ HI)
            | apply (stable_pan _ HI)
            | apply (stable_bodies _ HI)
            | apply (stable_speed _ HI)
            | apply (stable_translate _ HI) ]
    | match goal with
      | |- preserves _ (if ?b then _ else _) => destruct b
      | |- preserves _ (match ?o with _ => _ end) => destruct o
      end ].

Lemma preserves_getTranslationSpeedMultiplier I bodies_arg :
  preserves I (getTranslationSpeedMultiplier bodies_arg).
Proof. intros w H. exact H. Qed.

Lemma preserves_hud_update I delta : tick_stable I -> preserves I (hud_update delta).
Proof. intros HI. unfold hud_update, getSpeed. repeat preserves_step HI. Qed.

Lemma preserves_each_intersect I bs intersects :
  preserves I (each_intersect bs intersects).
Proof. intros w H. rewrite each_intersect_pure. exact H. Qed.

Section Ticks.
Variable intersectObjects : Vector3 -> Vector3 -> list Object3D -> list Intersect.
Variable localToWorld : Object3D -> Vector3 -> Vector3.
Variable slerp : Quaternion -> Quaternion -> float -> Quaternion.
Variable lookAt : Object3D -> Vector3 -> Quaternion.
Variable translateZ : float -> Object3D -> Object3D.
Variable moveCamera : float -> float -> Vector3 -> Object3D -> Object3D.
Variable translateBodies : float -> list Body -> list Body.
Variable rotateBodies : float -> list Body -> list Body.

Abbreviation tick :=
  (animate_callback intersectObjects localToWorld slerp translateZ moveCamera
     translateBodies rotateBodies).
Abbreviation run :=
  (session intersectObjects localToWorld slerp lookAt translateZ moveCamera
     translateBodies rotateBodies).
Abbreviation step :=
  (act intersectObjects localToWorld slerp lookAt translateZ moveCamera
     translateBodies rotateBodies).

Lemma preserves_colliding I : preserves I (colliding intersectObjects localToWorld).
Proof. intros w H. rewrite colliding_pure. exact H. Qed.

Lemma preserves_tick I self delta : tick_stable I -> preserves I (tick self delta).
Proof.
  intros HI. unfold animate_callback.
  apply preserves_bind; [apply preserves_get | intros w0].
  destruct (modes w0 !! self) as [mode|]; [|apply preserves_throw].
  destruct (negb (enabled mode)); [repeat preserves_step HI|].
  destruct (animationFrame mode); cbn [call_animationFrame].
  - apply preserves_ret.
  - unfold free_animationFrame, free_getSpeed.
    repeat first [ apply preserves_getTranslationSpeedMultiplier
                 | apply preserves_hud_update; exact HI
                 | apply preserves_colliding
                 | preserves_step HI ].
  - apply preserves_ret.
  - unfold pan_animationFrame, auto_update, translateTo.
    repeat first [ apply preserves_hud_update; exact HI | preserves_step HI ].
  - unfold translate_animationFrame, auto_update.
    repeat first [ apply preserves_getTranslationSpeedMultiplier
                 | apply preserves_hud_update; exact HI
                 | preserves_step HI ].
Qed.

End Ticks.

(** ** The bookkeeping of the modes *)

Lemma is_enabled_alter_same g this n w :
  (forall m, enabled (g m) = enabled m) ->
  is_enabled n (with_modes (alter g this) w) = is_enabled n w.
Proof. intros Hg. apply (flags_untouched_alter g this Hg w). Qed.

Lemma well_formed_alter g this w :
  (forall m, mode_name (g m) = mode_name m) ->
  (forall m, enabled (g m) = enabled m) ->
  (forall m, frame_owner (animationFrame m) = this ->
             frame_owner (animationFrame (g m)) = this) ->
  well_formed w -> well_formed (with_modes (alter g this) w).
Proof.
  intros Hname Hen Hframe (Hreg & Hinv & Hnamed & Hkept).
  split; [|split; [|split]].
  - intros n. cbn [modes with_modes]. rewrite <- (Hreg n).
    rewrite <- !not_eq_None_Some, lookup_alter_None. reflexivity.
  - intros n Hn. rewrite is_enabled_alter_same in Hn by exact Hen.
    apply Hinv, Hn.
  - intros n m. cbn [modes with_modes]. rewrite lookup_alter.
    destruct (decide (this = n)) as [->|]; [|apply Hnamed].
    destruct (modes w !! n) as [m0|] eqn:Hm0; cbn; [|discriminate].
    intros [= <-]. rewrite Hname. apply Hnamed, Hm0.
  - intros n m. cbn [modes with_modes]. rewrite lookup_alter.
    destruct (decide (this = n)) as [->|]; [|apply Hkept].
    destruct (modes w !! n) as [m0|] eqn:Hm0; cbn; [|discriminate].
    intros [= <-]. apply Hframe, Hkept, Hm0.
Qed.

Lemma setMode_well_formed name : preserves well_formed (setMode name).
Proof.
  intros w (Hreg & Hinv & Hnamed & Hkept).
  split; [apply setMode_modes_registered, Hreg|].
  split; [apply setMode_only_current_enabled, Hinv|].
  split.
  - intros n m' Hm'. pose proof (setMode_lookup name w n) as H.
    rewrite Hm' in H. inversion H as [m ? (Hn & _ & _) Hm|]; subst.
    rewrite Hn. apply Hnamed. symmetry. exact Hm.
  - intros n m' Hm'. pose proof (setMode_lookup name w n) as H.
    rewrite Hm' in H. inversion H as [m ? (_ & _ & Hf) Hm|]; subst.
    rewrite Hf. apply Hkept. symmetry. exact Hm.
Qed.

Lemma well_formed_stable : tick_stable well_formed.
Proof.
  split.
  - intros e w _ H. exact H.
  - intros f w H. exact H.
  - intros q0 q1 t w H. exact H.
  - intros f w H. exact H.
  - intros s this w. apply well_formed_alter; intros m; try reflexivity.
    intros H; exact H.
  - intros body w. apply well_formed_alter; intros m; reflexivity.
  - apply setMode_well_formed.
Qed.

Lemma flyTo_well_formed lookAt body : preserves well_formed (flyTo lookAt body).
Proof.
  unfold flyTo, panTo.
  repeat first
    [ apply preserves_bind; [|intros ?]
    | apply preserves_get
    | apply preserves_throw
    | apply preserves_modify;
      first [ apply (stable_pan _ well_formed_stable)
            | intros w H; exact H
            | intros w; apply well_formed_alter; intros m; reflexivity ]
    | match goal with
      | |- preserves _ (match ?o with _ => _ end) => destruct o
      end ].
Qed.

Lemma initial_well_formed cam bs tv cfg : well_formed (initial cam bs tv cfg).
Proof.
  split; [apply initial_modes_registered|].
  split; [apply initial_only_current_enabled|].
  split; intros n m; unfold initial, initial_modes; cbn [modes];
    rewrite !lookup_insert, lookup_empty;
    repeat case_decide; subst; intros [= <-]; reflexivity.
Qed.

Section Sessions.
Variable intersectObjects : Vector3 -> Vector3 -> list Object3D -> list Intersect.
Variable localToWorld : Object3D -> Vector3 -> Vector3.
Variable slerp : Quaternion -> Quaternion -> float -> Quaternion.
Variable lookAt : Object3D -> Vector3 -> Quaternion.
Variable translateZ : float -> Object3D -> Object3D.
Variable moveCamera : float -> float -> Vector3 -> Object3D -> Object3D.
Variable translateBodies : float -> list Body -> list Body.
Variable rotateBodies : float -> list Body -> list Body.

Abbreviation tick :=
  (animate_callback intersectObjects localToWorld slerp translateZ moveCamera
     translateBodies rotateBodies).
Abbreviation run :=
  (session intersectObjects localToWorld slerp lookAt translateZ moveCamera
     translateBodies rotateBodies).
Abbreviation step :=
  (act intersectObjects localToWorld slerp lookAt translateZ moveCamera
     translateBodies rotateBodies).

Lemma act_well_formed a w : well_formed w -> well_formed (step a w).
Proof.
  destruct a as [name|body|self delta]; cbn [act].
  - apply setMode_well_formed.
  - apply flyTo_well_formed.
  - apply preserves_tick, well_formed_stable.
Qed.

Lemma session_well_formed actions w : well_formed w -> well_formed (run actions w).
Proof.
  revert w. induction actions as [|a rest IH]; intros w Hw; cbn [session];
    [exact Hw|].
  apply IH, act_well_formed, Hw.
Qed.

(** X2. Whatever the application does with the module after loading it, in
    whatever order: [setMode] with any name (unknown ones included), [flyTo]
    with any Body, ticks of any mode's animation callback.  At every moment
    [flight.modes] holds exactly the three modes, each under its own name, no
    mode but the current one is enabled (so at most one is), the free mode
    and the menu still have the [animationFrame] they were created with, and
    the auto mode has the prototype's or a closure of [panTo] or
    [translateTo]. *)
Theorem session_keeps_the_modes cam bs tv cfg actions :
  let w := run actions (initial cam bs tv cfg) in
  dom (modes w) = {["free"; "auto"; "menu"]} /\
  (forall n m, modes w !! n = Some m -> mode_name m = n) /\
  (forall n, is_enabled n w = true -> n = currentMode w) /\
  at_most_one_enabled w /\
  animationFrame <$> modes w !! "free" = Some Frame_free /\
  animationFrame <$> modes w !! "menu" = Some Frame_menu /\
  (exists f, auto_frame w = Some f /\
     (f = Frame_prototype \/ exists body, f = Frame_pan body \/ f = Frame_translate body)).
Proof.
  intros w.
  assert (Hw : well_formed w)
    by (apply session_well_formed, initial_well_formed).
  destruct Hw as (Hreg & Hinv & Hnamed & Hkept).
  assert (Hin : forall n, n ∈ mode_names ->
            exists m, modes w !! n = Some m /\ frame_owner (animationFrame m) = n).
  { intros n Hn. destruct (proj2 (Hreg n) Hn) as [m Hm].
    exists m. split; [exact Hm | apply Hkept, Hm]. }
  split.
  { apply set_eq. intros n. rewrite elem_of_dom, (Hreg n).
    unfold mode_names.
    rewrite !elem_of_cons, elem_of_nil, !elem_of_union, !elem_of_singleton.
    tauto. }
  split; [exact Hnamed|]. split; [exact Hinv|].
  split; [apply only_current_at_most_one, Hinv|].
  split; [|split].
  - destruct (Hin "free") as (m & Hm & Hf); [unfold mode_names; set_solver|].
    rewrite Hm. cbn. destruct (animationFrame m); try discriminate Hf. reflexivity.
  - destruct (Hin "menu") as (m & Hm & Hf); [unfold mode_names; set_solver|].
    rewrite Hm. cbn. destruct (animationFrame m); try discriminate Hf. reflexivity.
  - destruct (Hin "auto") as (m & Hm & Hf); [unfold mode_names; set_solver|].
    unfold auto_frame. rewrite Hm. cbn. eexists. split; [reflexivity|].
    destruct (animationFrame m) as [| | |body|body]; try discriminate Hf;
      [left; reflexivity | right; exists body; left; reflexivity
      | right; exists body; right; reflexivity].
Qed.

End Sessions.

(** ** After a failed switch *)

Lemma count_events_after_disable n w :
  count_events (is_call_enable n) (log (after_disable w)) =
    count_events (is_call_enable n) (log w).
Proof.
  unfold after_disable. destruct (modes w !! currentMode w); [|reflexivity].
  destruct (disable_effect (currentMode w) w) as (_ & _ & _ & evs & -> & Hevs).
  rewrite (count_events_app _ (log w) (Call_disable (currentMode w) :: evs)).
  rewrite (count_events_app _ [Call_disable (currentMode w)] evs).
  rewrite count_events_call_disable, (count_events_no_call _ _ Hevs). lia.
Qed.

Lemma setMode_unregistered name w :
  modes_registered w -> name ∉ mode_names -> name <> currentMode w ->
  setMode name w = (Thrown, after_disable w).
Proof.
  intros Hreg Hname Hne. rewrite setMode_eq.
  destruct (decide (currentMode w = name)); [congruence|].
  assert (Hnone : modes (after_disable w) !! name = None).
  { apply after_disable_lookup_None, eq_None_not_Some.
    intros Hsome. apply Hname, Hreg, Hsome. }
  rewrite Hnone. reflexivity.
Qed.

Lemma after_disable_modes_registered w :
  modes_registered w -> modes_registered (after_disable w).
Proof.
  intros Hreg n. rewrite <- (Hreg n), <- !not_eq_None_Some, after_disable_lookup_None.
  reflexivity.
Qed.

(** X3. A failed switch cannot be taken back.  When [setMode] has thrown
    on an unknown name, the mode that was active is disabled but still the
    current one, so [setMode] with its name returns at once: as long as the
    calls that follow name the current mode or unknown modes, no mode is
    enabled, no [enable()] is entered, and the current mode stays what it
    was.  Only a switch to another of the three modes gets out of it. *)
Theorem setMode_failure_is_not_undone w bad names :
  modes_registered w ->
  only_current_enabled w ->
  bad ∉ mode_names ->
  bad <> currentMode w ->
  Forall (fun n => n = currentMode w \/ n ∉ mode_names) names ->
  let w' := setModes names (snd (setMode bad w)) in
  fst (setMode bad w) = Thrown /\
  currentMode w' = currentMode w /\
  (forall n, is_enabled n w' = false) /\
  (forall n, count_events (is_call_enable n) (log w') =
             count_events (is_call_enable n) (log w)).
Proof.
  intros Hreg Hinv Hbad Hne Hnames w'. subst w'.
  rewrite (setMode_unregistered bad w Hreg Hbad Hne). cbn [fst snd].
  split; [reflexivity|].
  assert (Hstuck : forall v,
    modes_registered v -> currentMode v = currentMode w ->
    (forall n, is_enabled n v = false) ->
    currentMode (setModes names v) = currentMode w /\
    (forall n, is_enabled n (setModes names v) = false) /\
    (forall n, count_events (is_call_enable n) (log (setModes names v)) =
               count_events (is_call_enable n) (log v))).
  { induction Hnames as [|n rest Hn _ IH]; intros v Hregv Hcur Hoff; cbn [setModes].
    - repeat split; [exact Hcur | exact Hoff].
    - destruct (decide (n = currentMode v)) as [->|Hnv].
      + rewrite setMode_eq.
        destruct (decide (currentMode v = currentMode v)); [|congruence].
        apply IH; assumption.
      + assert (Hout : n ∉ mode_names) by (destruct Hn; [congruence | assumption]).
        rewrite (setMode_unregistered n v Hregv Hout Hnv). cbn [snd].
        destruct (IH (after_disable v)) as (Hc & Hoff' & Hcount).
        * apply after_disable_modes_registered, Hregv.
        * rewrite after_disable_currentMode. exact Hcur.
        * intros k. rewrite after_disable_is_enabled, Hoff.
          destruct (decide (currentMode v = k)); reflexivity.
        * split; [exact Hc|]. split; [exact Hoff'|].
          intros k. rewrite Hcount. apply count_events_after_disable. }
  destruct (Hstuck (after_disable w)) as (Hc & Hoff & Hcount).
  - apply after_disable_modes_registered, Hreg.
  - apply after_disable_currentMode.
  - intros n. apply after_disable_none_enabled, Hinv.
  - split; [exact Hc|]. split; [exact Hoff|].
    intros n. rewrite Hcount. apply count_events_after_disable.
Qed.

Lemma setModes_well_formed names w : well_formed w -> well_formed (setModes names w).
Proof.
  revert w. induction names as [|n rest IH]; intros w Hw; cbn [setModes];
    [exact Hw|].
  apply IH, setMode_well_formed, Hw.
Qed.

Lemma not_a_mode_name n :
  n <> "free" -> n <> "auto" -> n <> "menu" -> n ∉ mode_names.
Proof.
  intros H1 H2 H3. unfold mode_names.
  rewrite !elem_of_cons, elem_of_nil. tauto.
Qed.

Lemma setMode_failure_is_not_undone_witness :
  let w := setModes ["free"] demo_world in
  let w' := setModes ["free"; "warp"; "free"] (snd (setMode "warp" w)) in
  fst (setMode "warp" w) = Thrown /\
  currentMode w' = "free" /\
  (forall n, is_enabled n w' = false) /\
  (forall n, count_events (is_call_enable n) (log w') =
             count_events (is_call_enable n) (log w)).
Proof.
  intros w.
  assert (Hw : well_formed w) by (apply setModes_well_formed, initial_well_formed).
  assert (Hwarp : "warp" ∉ mode_names) by (apply not_a_mode_name; discriminate).
  apply (setMode_failure_is_not_undone w "warp" ["free"; "warp"; "free"]).
  - apply Hw.
  - apply Hw.
  - exact Hwarp.
  - discriminate.
  - constructor; [left; reflexivity|].
    constructor; [right; exact Hwarp|].
    constructor; [left; reflexivity|].
    constructor.
Defined.

(** ** [toggle] with a boolean *)

(** X4. [toggle(b)] with a boolean is [enable()] for [true] and
    [disable()] for [false]: it returns normally, leaves the mode's flag at
    [b] and every other flag and [currentMode] as they were.  It does not
    look at [currentMode]; so [toggle(true)] on a mode other than the active
    one leaves two modes enabled, which no sequence of [setMode] calls
    does. *)
Theorem toggle_boolean_sets_the_flag w this b m :
  modes w !! this = Some m ->
  let w' := snd (toggle this (Some b) w) in
  toggle this (Some b) w = (if b then enable this w else disable this w) /\
  fst (toggle this (Some b) w) = Normal tt /\
  is_enabled this w' = b /\
  (forall n, n <> this -> is_enabled n w' = is_enabled n w) /\
  currentMode w' = currentMode w /\
  (b = true -> this <> currentMode w -> is_enabled (currentMode w) w = true ->
   ~ at_most_one_enabled w').
Proof.
  intros Hm w'.
  assert (Heq : toggle this (Some b) w = if b then enable this w else disable this w).
  { unfold toggle, bind, get. rewrite Hm. destruct b; reflexivity. }
  split; [exact Heq|].
  assert (Heffect :
    fst (toggle this (Some b) w) = Normal tt /\
    modes w' = alter (set_enabled b) this (modes w) /\
    currentMode w' = currentMode w).
  { unfold w'. rewrite Heq. destruct b.
    - destruct (enable_effect this w) as (Hf & Hmodes & Hcur & _). auto.
    - destruct (disable_effect this w) as (Hf & Hmodes & Hcur & _). auto. }
  destruct Heffect as (Hf & Hmodes & Hcur).
  assert (Hthis : is_enabled this w' = b).
  { rewrite (is_enabled_alter _ _ this _ _ Hmodes), Hm.
    destruct (decide (this = this)); congruence. }
  assert (Hother : forall n, n <> this -> is_enabled n w' = is_enabled n w).
  { intros n Hn. rewrite (is_enabled_alter _ _ n _ _ Hmodes).
    destruct (decide (this = n)); congruence. }
  split; [exact Hf|]. split; [exact Hthis|]. split; [exact Hother|].
  split; [exact Hcur|].
  intros -> Hne Hactive Hone. apply Hne.
  apply Hone; [exact Hthis|].
  rewrite Hother by congruence. exact Hactive.
Qed.

Lemma toggle_boolean_sets_the_flag_witness :
  let w := setModes ["free"] demo_world in
  ~ at_most_one_enabled (snd (toggle "menu" (Some true) w)).
Proof.
  intros w.
  apply (toggle_boolean_sets_the_flag w "menu" true (mkMode "menu" false 0 Frame_menu)).
  - reflexivity.
  - reflexivity.
  - discriminate.
  - reflexivity.
Defined.

(** ** Animation callbacks *)

Lemma count_events_cons p e l :
  count_events p (e :: l) = (if p e then 1 else 0) + count_events p l.
Proof. unfold count_events. cbn [List.filter]. destruct (p e); reflexivity. Qed.

Lemma count_events_snoc p e l :
  count_events p (l ++ [e]) = count_events p l + (if p e then 1 else 0).
Proof. rewrite count_events_app, count_events_cons. unfold count_events. cbn. lia. Qed.

Lemma is_renderer_animate_refl n : is_renderer_animate n (Renderer_animate n) = true.
Proof. apply String.eqb_refl. Qed.

Lemma enable_animates this n w :
  count_events (is_renderer_animate n) (log (snd (enable this w))) =
    count_events (is_renderer_animate n) (log w) + (if String.eqb this n then 1 else 0).
Proof.
  unfold enable. dispatch_mode this; cbn [snd bind emit modify free_enable
    auto_enable menu_enable Mode_prototype_enable Mode_prototype_animate
    log with_log with_modes];
    rewrite ?count_events_snoc; cbn [is_renderer_animate]; lia.
Qed.

Lemma disable_does_not_animate this n w :
  count_events (is_renderer_animate n) (log (snd (disable this w))) =
    count_events (is_renderer_animate n) (log w).
Proof.
  unfold disable. dispatch_mode this; cbn [snd bind emit modify free_disable
    auto_disable menu_disable Mode_prototype_disable
    log with_log with_modes];
    rewrite ?count_events_snoc; cbn [is_renderer_animate]; lia.
Qed.

(** X5. Every [enable()] hands one more callback to the renderer, whether
    or not the mode was enabled already, and [disable()] hands over none.
    Hence a successful [setMode] starts exactly one animation loop, that of
    the new mode, while [toggle()] without an argument on an enabled mode,
    which changes no flag, starts a second loop for it. *)
Theorem enable_animates_each_time :
  (forall this w,
     count_events (is_renderer_animate this) (log (snd (enable this w))) =
       S (count_events (is_renderer_animate this) (log w))) /\
  (forall this n w,
     count_events (is_renderer_animate n) (log (snd (disable this w))) =
       count_events (is_renderer_animate n) (log w)) /\
  (forall w name n,
     modes_registered w -> name ∈ mode_names -> name <> currentMode w ->
     count_events (is_renderer_animate n) (log (snd (setMode name w))) =
       count_events (is_renderer_animate n) (log w) +
       (if String.eqb name n then 1 else 0)) /\
  (forall w this m,
     modes w !! this = Some m -> enabled m = true ->
     is_enabled this (snd (toggle this None w)) = true /\
     count_events (is_renderer_animate this) (log (snd (toggle this None w))) =
       S (count_events (is_renderer_animate this) (log w))).
Proof.
  split; [|split; [|split]].
  - intros this w. rewrite enable_animates, String.eqb_refl. lia.
  - intros this n w. apply disable_does_not_animate.
  - intros w name n Hreg Hname Hne. rewrite setMode_eq.
    destruct (decide (currentMode w = name)); [congruence|].
    destruct (proj2 (after_disable_is_Some w name) (registered_is_Some w name Hreg Hname))
      as [m ->].
    cbn [snd]. rewrite log_with_log, log_with_currentMode, count_events_snoc.
    rewrite enable_animates. unfold changed_message. cbn [is_renderer_animate].
    assert (Hbefore :
      count_events (is_renderer_animate n) (log (after_disable w)) =
        count_events (is_renderer_animate n) (log w)).
    { unfold after_disable. destruct (modes w !! currentMode w); [|reflexivity].
      apply disable_does_not_animate. }
    rewrite Hbefore. lia.
  - intros w this m Hm Hen.
    assert (Heq : toggle this None w = enable this w).
    { unfold toggle, bind, get. rewrite Hm, Hen. reflexivity. }
    rewrite Heq. split.
    + destruct (enable_effect this w) as (_ & Hmodes & _).
      rewrite (is_enabled_alter _ _ this _ _ Hmodes), Hm.
      destruct (decide (this = this)); congruence.
    + rewrite enable_animates, String.eqb_refl. lia.
Qed.

Section Callbacks.
Variable intersectObjects : Vector3 -> Vector3 -> list Object3D -> list Intersect.
Variable localToWorld : Object3D -> Vector3 -> Vector3.
Variable slerp : Quaternion -> Quaternion -> float -> Quaternion.
Variable lookAt : Object3D -> Vector3 -> Quaternion.
Variable translateZ : float -> Object3D -> Object3D.
Variable moveCamera : float -> float -> Vector3 -> Object3D -> Object3D.
Variable translateBodies : float -> list Body -> list Body.
Variable rotateBodies : float -> list Body -> list Body.

Abbreviation tick :=
  (animate_callback intersectObjects localToWorld slerp translateZ moveCamera
     translateBodies rotateBodies).
Abbreviation run :=
  (session intersectObjects localToWorld slerp lookAt translateZ moveCamera
     translateBodies rotateBodies).

(** X6. The animation loop of a mode that is not the current one ends on
    its next tick: the callback finds the mode disabled, writes the console
    message that names the mode, and returns the stop signal without calling
    the mode's [animationFrame]; nothing but the trace changes. *)
Theorem callback_of_a_left_mode_stops w self delta :
  well_formed w ->
  self ∈ mode_names ->
  self <> currentMode w ->
  tick self delta w =
    (Normal Stop,
     with_log (fun l => (l ++ [Console_log ("stop animating for " ++ self
                                             ++ " flight mode")%string])%list) w).
Proof.
  intros (Hreg & Hinv & Hnamed & _) Hself Hne.
  destruct (registered_is_Some w self Hreg Hself) as [m Hm].
  assert (Hoff : enabled m = false).
  { destruct (enabled m) eqn:Hen; [|reflexivity].
    exfalso. apply Hne, Hinv. unfold is_enabled. rewrite Hm. exact Hen. }
  unfold animate_callback, bind, get. rewrite Hm, Hoff. cbn [negb].
  rewrite (Hnamed self m Hm). reflexivity.
Qed.

(** X7. The menu never animates.  In every world that a session reaches,
    a tick of the menu's callback returns the stop signal, and it changes
    neither the scene, nor the current mode, nor any mode object: the
    menu's [animationFrame] is still the one that returns [false]. *)
Theorem menu_callback_always_stops cam bs tv cfg actions delta :
  let w := run actions (initial cam bs tv cfg) in
  fst (tick "menu" delta w) = Normal Stop /\
  same_scene w (snd (tick "menu" delta w)) /\
  currentMode (snd (tick "menu" delta w)) = currentMode w /\
  modes (snd (tick "menu" delta w)) = modes w.
Proof.
  intros w.
  assert (Hw : well_formed w) by (apply session_well_formed, initial_well_formed).
  destruct Hw as (Hreg & _ & _ & Hkept).
  destruct (registered_is_Some w "menu" Hreg) as [m Hm];
    [unfold mode_names; rewrite !elem_of_cons; tauto|].
  pose proof (Hkept "menu" m Hm) as Hframe.
  unfold animate_callback, bind, get. rewrite Hm.
  destruct (enabled m); cbn [negb].
  - destruct (animationFrame m); try discriminate Hframe.
    cbn [call_animationFrame ret fst snd]. repeat split.
  - cbn [fst snd emit modify ret]. repeat split.
Qed.

End Callbacks.

Lemma callback_of_a_left_mode_stops_witness :
  fst (animate_callback demo_intersectObjects demo_localToWorld demo_slerp
         demo_translateZ demo_moveCamera demo_translateBodies demo_rotateBodies
         "menu" 0.05%float (snd (setMode "auto" in_menu))) = Normal Stop.
Proof.
  rewrite (callback_of_a_left_mode_stops demo_intersectObjects demo_localToWorld
             demo_slerp demo_translateZ demo_moveCamera demo_translateBodies
             demo_rotateBodies (snd (setMode "auto" in_menu)) "menu" 0.05%float).
  - reflexivity.
  - apply setMode_well_formed, setModes_well_formed, initial_well_formed.
  - unfold mode_names. rewrite !elem_of_cons. tauto.
  - vm_compute. discriminate.
Defined.

(** ** The HUD's speed *)

Lemma last_cons_default {A} (a d : A) l : List.last (a :: l) d = List.last l a.
Proof.
  revert a d. induction l as [|b l IH]; intros a d; [reflexivity|].
  change (List.last (a :: b :: l) d) with (List.last (b :: l) d).
  rewrite !IH. reflexivity.
Qed.

Lemma setMode_registered_currentMode name w :
  modes_registered w -> name ∈ mode_names ->
  currentMode (snd (setMode name w)) = name.
Proof.
  intros Hreg Hname. rewrite setMode_eq.
  destruct (decide (currentMode w = name)); [assumption|].
  destruct (proj2 (after_disable_is_Some w name) (registered_is_Some w name Hreg Hname))
    as [m ->].
  reflexivity.
Qed.

Lemma setMode_unregistered_currentMode name w :
  modes_registered w -> name ∉ mode_names ->
  currentMode (snd (setMode name w)) = currentMode w.
Proof.
  intros Hreg Hname.
  destruct (decide (name = currentMode w)) as [->|Hne].
  - rewrite setMode_eq. destruct (decide (currentMode w = currentMode w));
      [reflexivity | congruence].
  - rewrite (setMode_unregistered name w Hreg Hname Hne).
    apply after_disable_currentMode.
Qed.

Lemma setModes_currentMode names w :
  modes_registered w ->
  currentMode (setModes names w) =
    List.last (List.filter (fun n => bool_decide (n ∈ mode_names)) names) (currentMode w).
Proof.
  revert w. induction names as [|n rest IH]; intros w Hreg;
    cbn [setModes List.filter]; [reflexivity|].
  rewrite IH by (apply setMode_modes_registered, Hreg).
  destruct (decide (n ∈ mode_names)) as [Hin|Hout].
  - rewrite bool_decide_eq_true_2 by exact Hin.
    rewrite last_cons_default, setMode_registered_currentMode by assumption.
    reflexivity.
  - rewrite bool_decide_eq_false_2 by exact Hout.
    rewrite setMode_unregistered_currentMode by assumption. reflexivity.
Qed.

Lemma setModes_lookup names w n :
  option_Forall2 same_but_enabled (modes w !! n) (modes (setModes names w) !! n).
Proof.
  revert w. induction names as [|k rest IH]; intros w; cbn [setModes].
  - destruct (modes w !! n); constructor. apply same_but_enabled_refl.
  - eapply option_Forall2_same_trans; [apply setMode_lookup | apply IH].
Qed.

Lemma filter_mode_names_nil names :
  Forall (fun n => n ∉ mode_names) names ->
  List.filter (fun n => bool_decide (n ∈ mode_names)) names = [].
Proof.
  induction 1 as [|n rest Hn _ IH]; [reflexivity|].
  cbn [List.filter]. rewrite bool_decide_eq_false_2 by exact Hn. exact IH.
Qed.

Lemma last_mode_name names d :
  Exists (fun n => n ∈ mode_names) names ->
  List.last (List.filter (fun n => bool_decide (n ∈ mode_names)) names) d ∈ mode_names.
Proof.
  intros Hsome.
  assert (Hne : List.filter (fun n => bool_decide (n ∈ mode_names)) names <> []).
  { induction Hsome as [n rest Hn|n rest _ IH]; cbn [List.filter].
    - rewrite bool_decide_eq_true_2 by exact Hn. discriminate.
    - destruct (bool_decide (n ∈ mode_names)); [discriminate | exact IH]. }
  destruct (exists_last Hne) as (l & a & Hla). rewrite Hla, last_last.
  assert (Ha : List.In a (List.filter (fun n => bool_decide (n ∈ mode_names)) names)).
  { rewrite Hla. apply in_or_app. right. left. reflexivity. }
  apply List.filter_In in Ha. destruct Ha as (_ & Ha).
  apply bool_decide_eq_true_1 in Ha. exact Ha.
Qed.

(** X8. [getMode] and [getSpeed] after any sequence of [setMode] calls on
    the freshly loaded module.  [getMode] returns the last name of the
    sequence that is one of the three modes, and still the empty string when
    there is none.  In that case [getSpeed] throws, for [flight.modes['']] is
    undefined; otherwise it returns 0, the prototype's speed, which no
    [setMode] overwrites (a failed call included). *)
Theorem getSpeed_after_setModes cam bs tv cfg names :
  let w := setModes names (initial cam bs tv cfg) in
  getMode w =
    (Normal (List.last (List.filter (fun n => bool_decide (n ∈ mode_names)) names) ""),
     w) /\
  (Forall (fun n => n ∉ mode_names) names -> getSpeed w = (Thrown, w)) /\
  (Exists (fun n => n ∈ mode_names) names -> getSpeed w = (Normal 0%float, w)).
Proof.
  intros w.
  assert (Hcur : currentMode w =
    List.last (List.filter (fun n => bool_decide (n ∈ mode_names)) names) "").
  { apply (setModes_currentMode names (initial cam bs tv cfg)),
      initial_modes_registered. }
  assert (Hw : well_formed w) by (apply setModes_well_formed, initial_well_formed).
  destruct Hw as (Hreg & _).
  split; [unfold getMode, bind, get, ret; rewrite Hcur; reflexivity|]. split.
  - intros Hnone.
    rewrite (filter_mode_names_nil names Hnone) in Hcur. cbn [List.last] in Hcur.
    unfold getSpeed, bind, get. rewrite Hcur.
    destruct (modes w !! "") as [m|] eqn:Hm; [|reflexivity].
    exfalso. assert (Hin : "" ∈ mode_names) by (apply Hreg; eexists; exact Hm).
    revert Hin. apply not_a_mode_name; discriminate.
  - intros Hsome.
    assert (Hin : currentMode w ∈ mode_names)
      by (rewrite Hcur; apply last_mode_name, Hsome).
    destruct (registered_is_Some w _ Hreg Hin) as [m Hm].
    unfold getSpeed, bind, get. rewrite Hm. unfold ret. do 2 f_equal.
    pose proof (setModes_lookup names (initial cam bs tv cfg) (currentMode w)) as H.
    fold w in H. rewrite Hm in H.
    inversion H as [m0 ? (_ & Hspeed & _) Hm0|]; subst.
    rewrite Hspeed. symmetry in Hm0. revert Hm0.
    unfold initial, initial_modes; cbn [modes].
    rewrite !lookup_insert, lookup_empty.
    repeat case_decide; intros [= <-]; reflexivity.
Qed.

(** ** The configuration *)

Lemma config_stable c : tick_stable (fun w => config w = c).
Proof.
  split.
  - intros e w _ H. exact H.
  - intros f w H. exact H.
  - intros q0 q1 t w H. exact H.
  - intros f w H. exact H.
  - intros s this w H. exact H.
  - intros body w H. exact H.
  - intros w H. destruct (setMode_same_scene "menu" w) as (_ & _ & _ & Hc & _).
    rewrite Hc. exact H.
Qed.

Lemma flyTo_config lookAt body w :
  config (snd (flyTo lookAt body w)) =
    mkConfig false (rotate_bodies (config w)) (controls_z_speed (config w))
      (controls_strafe_speed (config w)).
Proof.
  unfold flyTo, panTo, bind, get, emit, modify. cbv beta iota.
  destruct (mesh body); reflexivity.
Qed.

Section Configuration.
Variable intersectObjects : Vector3 -> Vector3 -> list Object3D -> list Intersect.
Variable localToWorld : Object3D -> Vector3 -> Vector3.
Variable slerp : Quaternion -> Quaternion -> float -> Quaternion.
Variable lookAt : Object3D -> Vector3 -> Quaternion.
Variable translateZ : float -> Object3D -> Object3D.
Variable moveCamera : float -> float -> Vector3 -> Object3D -> Object3D.
Variable translateBodies : float -> list Body -> list Body.
Variable rotateBodies : float -> list Body -> list Body.

Abbreviation run :=
  (session intersectObjects localToWorld slerp lookAt translateZ moveCamera
     translateBodies rotateBodies).
Abbreviation step :=
  (act intersectObjects localToWorld slerp lookAt translateZ moveCamera
     translateBodies rotateBodies).

(** X9. [flyTo] switches [time-on] off, before it does anything that can
    throw, and nothing in the module switches it on again: not the end of
    the manoeuvre, not [setMode], not a tick of any mode.  After a session
    the configuration is the one from before it, with [time-on] false if the
    session held a [flyTo]. *)
Theorem flyTo_switches_time_off_for_good actions w :
  config (run actions w) =
    if existsb is_flyTo actions
    then mkConfig false (rotate_bodies (config w)) (controls_z_speed (config w))
           (controls_strafe_speed (config w))
    else config w.
Proof.
  revert w. induction actions as [|a rest IH]; intros w; cbn [session existsb];
    [reflexivity|].
  rewrite IH.
  destruct a as [name|body|self delta]; cbn [is_flyTo act orb].
  - destruct (setMode_same_scene name w) as (_ & _ & _ & -> & _). reflexivity.
  - rewrite flyTo_config. destruct (existsb is_flyTo rest); reflexivity.
  - rewrite (preserves_tick intersectObjects localToWorld slerp translateZ
               moveCamera translateBodies rotateBodies _ self delta
               (config_stable (config w)) w eq_refl).
    reflexivity.
Qed.

End Configuration.

(** ** Ticks that throw *)

Lemma never_throws_ret P {A} (a : A) : never_throws P (ret a).
Proof. intros w H. split; [exists a; reflexivity | exact H]. Qed.

Lemma never_throws_get P : never_throws P get.
Proof. intros w H. split; [exists w; reflexivity | exact H]. Qed.

Lemma never_throws_bind P {A B} (m : M A) (k : A -> M B) :
  never_throws P m -> (forall a, never_throws P (k a)) -> never_throws P (bind m k).
Proof.
  intros Hm Hk w Hw. unfold bind. destruct (Hm w Hw) as ([a Ha] & HP).
  destruct (m w) as [c w']. cbn [fst snd] in *. subst c. apply Hk, HP.
Qed.

Lemma never_throws_modify (P : World -> Prop) f :
  (forall w, P w -> P (f w)) -> never_throws P (modify f).
Proof. intros Hf w Hw. split; [exists tt; reflexivity | apply Hf, Hw]. Qed.

Lemma current_registered_alter g this w :
  current_registered w -> current_registered (with_modes (alter g this) w).
Proof.
  intros (Hreg & Hcur). split; [|exact Hcur].
  intros n. cbn [modes with_modes]. rewrite <- (Hreg n).
  rewrite <- !not_eq_None_Some, lookup_alter_None. reflexivity.
Qed.

Lemma current_registered_stable : tick_stable current_registered.
Proof.
  split.
  - intros e w _ H. exact H.
  - intros f w H. exact H.
  - intros q0 q1 t w H. exact H.
  - intros f w H. exact H.
  - intros s this w. apply current_registered_alter.
  - intros body w. apply current_registered_alter.
  - intros w (Hreg & Hcur).
    assert (Hmenu : "menu" ∈ mode_names)
      by (unfold mode_names; rewrite !elem_of_cons; tauto).
    split; [apply setMode_modes_registered, Hreg|].
    rewrite setMode_registered_currentMode by assumption. exact Hmenu.
Qed.

Lemma never_throws_emit e : never_throws current_registered (emit e).
Proof. apply never_throws_modify. intros w H. exact H. Qed.

Lemma never_throws_hud_update delta :
  never_throws current_registered (hud_update delta).
Proof.
  intros w (Hreg & Hcur). destruct (registered_is_Some w _ Hreg Hcur) as [m Hm].
  unfold hud_update, getSpeed, bind, get. rewrite Hm.
  split; [exists tt; reflexivity | split; assumption].
Qed.

Lemma never_throws_getTranslationSpeedMultiplier P bodies_arg :
  never_throws P (getTranslationSpeedMultiplier bodies_arg).
Proof. intros w H. split; [eexists; reflexivity | exact H]. Qed.

Lemma setMode_registered_normal name w :
  modes_registered w -> name ∈ mode_names -> fst (setMode name w) = Normal tt.
Proof.
  intros Hreg Hname. rewrite setMode_eq.
  destruct (decide (currentMode w = name)); [reflexivity|].
  destruct (proj2 (after_disable_is_Some w name) (registered_is_Some w name Hreg Hname))
    as [m ->].
  reflexivity.
Qed.

Lemma never_throws_setMode_menu : never_throws current_registered (setMode "menu").
Proof.
  intros w Hw. split; [|apply (stable_menu _ current_registered_stable), Hw].
  exists tt. apply setMode_registered_normal; [apply Hw|].
  unfold mode_names. rewrite !elem_of_cons. tauto.
Qed.

Ltac never_throws_step :=
  first
    [ apply never_throws_setMode_menu
    | apply never_throws_hud_update
    | apply never_throws_getTranslationSpeedMultiplier
    | apply never_throws_bind; [|intros ?]
    | apply never_throws_ret
    | apply never_throws_get
    | apply never_throws_emit
    | apply never_throws_modify;
      first [ apply (stable_camera _ current_registered_stable)
            | apply (stable_pan _ current_registered_stable)
            | apply (stable_bodies _ current_registered_stable)
            | apply (stable_speed _ current_registered_stable)
            | apply (stable_translate _ current_registered_stable) ]
    | match goal with
      | |- never_throws _ (if ?b then _ else _) => destruct b
      | |- never_throws _ (match ?o with _ => _ end) => destruct o
      end ].

Lemma bind_normal {A B} (m : M A) (k : A -> M B) w a w' :
  m w = (Normal a, w') -> bind m k w = k a w'.
Proof. intros H. unfold bind. rewrite H. reflexivity. Qed.

Lemma bind_thrown {A B} (m : M A) (k : A -> M B) w w' :
  m w = (Thrown, w') -> bind m k w = (Thrown, w').
Proof. intros H. unfold bind. rewrite H. reflexivity. Qed.

Section Throwing.
Variable intersectObjects : Vector3 -> Vector3 -> list Object3D -> list Intersect.
Variable localToWorld : Object3D -> Vector3 -> Vector3.
Variable slerp : Quaternion -> Quaternion -> float -> Quaternion.
Variable translateZ : float -> Object3D -> Object3D.
Variable moveCamera : float -> float -> Vector3 -> Object3D -> Object3D.
Variable translateBodies : float -> list Body -> list Body.
Variable rotateBodies : float -> list Body -> list Body.

Abbreviation tick :=
  (animate_callback intersectObjects localToWorld slerp translateZ moveCamera
     translateBodies rotateBodies).

Lemma colliding_result w :
  colliding intersectObjects localToWorld w =
    (fst (colliding intersectObjects localToWorld w), w).
Proof.
  pose proof (colliding_pure intersectObjects localToWorld w) as H.
  destruct (colliding intersectObjects localToWorld w) as [c w'].
  cbn [fst snd] in *. congruence.
Qed.

Lemma free_animationFrame_throws this delta w :
  current_registered w ->
  (fst (free_animationFrame intersectObjects localToWorld moveCamera
          translateBodies rotateBodies this delta w) = Thrown <->
   fst (colliding intersectObjects localToWorld w) = Thrown).
Proof.
  intros Hw. unfold free_animationFrame.
  pose proof (colliding_result w) as Hc.
  destruct (fst (colliding intersectObjects localToWorld w)) as [blocked|].
  - rewrite (bind_normal _ _ _ _ _ Hc).
    match goal with
    | |- fst (?m w) = Thrown <-> _ =>
        assert (H : never_throws current_registered m)
    end.
    { unfold free_getSpeed. repeat never_throws_step. }
    destruct (H w Hw) as ([s ->] & _). split; discriminate.
  - rewrite (bind_thrown _ _ _ _ Hc). split; reflexivity.
Qed.

Lemma pan_animationFrame_never_throws body delta :
  never_throws current_registered (pan_animationFrame slerp body delta).
Proof. unfold pan_animationFrame, auto_update, translateTo. repeat never_throws_step. Qed.

Lemma translate_animationFrame_never_throws this body delta :
  never_throws current_registered (translate_animationFrame translateZ this body delta).
Proof. unfold translate_animationFrame, auto_update. repeat never_throws_step. Qed.

(** X10. The only way for a tick to throw, the calls into three.js, the
    controls and the space module taken to return.  With the modes in place
    and nothing enabled but the current mode, the callback of one of the
    three modes throws exactly when it is the callback of the free mode, the
    free mode is enabled, and [colliding()] throws (on a hit whose object
    [space.getBody] does not know).  The ticks of auto flight and of the menu
    never throw; in particular [flight.getSpeed], called through the HUD,
    finds the current mode. *)
Theorem tick_throws_only_in_colliding w self delta :
  well_formed w ->
  self ∈ mode_names ->
  (fst (tick self delta w) = Thrown <->
   self = "free" /\ is_enabled "free" w = true /\
   fst (colliding intersectObjects localToWorld w) = Thrown).
Proof.
  intros (Hreg & Hinv & Hnamed & Hkept) Hself.
  destruct (registered_is_Some w self Hreg Hself) as [m Hm].
  pose proof (Hkept self m Hm) as Hframe.
  assert (Hflag : is_enabled self w = enabled m)
    by (unfold is_enabled; rewrite Hm; reflexivity).
  unfold animate_callback. rewrite (bind_normal get _ w w w eq_refl), Hm.
  destruct (enabled m) eqn:Hen; cbn [negb].
  2:{ cbn [bind emit modify ret fst]. split; [discriminate|].
      intros (-> & Hfree & _). congruence. }
  assert (Hw : current_registered w).
  { split; [exact Hreg|]. rewrite <- (Hinv self Hflag). exact Hself. }
  destruct (animationFrame m) as [| | |body|body]; cbn [call_animationFrame];
    cbn [frame_owner] in Hframe; subst self.
  - cbn [ret fst]. split; [discriminate | intros (H & _); discriminate H].
  - rewrite free_animationFrame_throws by exact Hw.
    split; [intros H; repeat split; assumption | intros (_ & _ & H); exact H].
  - cbn [ret fst]. split; [discriminate | intros (H & _); discriminate H].
  - destruct (pan_animationFrame_never_throws body delta w Hw) as ([s ->] & _).
    split; [discriminate | intros (H & _); discriminate H].
  - destruct (translate_animationFrame_never_throws "auto" body delta w Hw)
      as ([s ->] & _).
    split; [discriminate | intros (H & _); discriminate H].
Qed.

End Throwing.

Lemma tick_throws_only_in_colliding_witness :
  fst (animate_callback demo_intersectObjects demo_localToWorld demo_slerp
         demo_translateZ demo_moveCamera demo_translateBodies demo_rotateBodies
         "auto" 0.05%float flying_to_Mars) <> Thrown.
Proof.
  intros H.
  apply (tick_throws_only_in_colliding demo_intersectObjects demo_localToWorld
           demo_slerp demo_translateZ demo_moveCamera demo_translateBodies
           demo_rotateBodies flying_to_Mars "auto" 0.05%float) in H.
  - destruct H as (H & _). discriminate H.
  - apply flyTo_well_formed, setMode_well_formed, setModes_well_formed,
      initial_well_formed.
  - unfold mode_names. rewrite !elem_of_cons. tauto.
Defined.

(** ** When [colliding] throws *)

Lemma each_intersect_throws bs intersects w :
  fst (each_intersect bs intersects w) = Thrown <->
  exists pre i post,
    intersects = (pre ++ i :: post)%list /\
    Forall (fun j => resolves bs j /\ within_collision_distance bs j = false) pre /\
    getBody bs (o_name (object i)) = None.
Proof.
  induction intersects as [|i rest IH]; cbn [each_intersect].
  - split; [discriminate|]. intros (pre & j & post & H & _).
    destruct pre; discriminate H.
  - destruct (getBody bs (o_name (object i))) as [body|] eqn:Hbody.
    + destruct (distance i <? getCollisionDistance body)%float eqn:Hlt.
      * split; [discriminate|]. intros (pre & j & post & H & Hpre & Hj).
        destruct pre as [|p pre]; cbn in H; injection H as <- _.
        -- congruence.
        -- apply Forall_cons in Hpre. destruct Hpre as ((_ & Hp) & _).
           unfold within_collision_distance in Hp. rewrite Hbody in Hp. congruence.
      * rewrite IH. split.
        -- intros (pre & j & post & -> & Hpre & Hj).
           exists (i :: pre), j, post. split; [reflexivity|]. split; [|exact Hj].
           constructor; [|exact Hpre]. split; [eexists; exact Hbody|].
           unfold within_collision_distance. rewrite Hbody. exact Hlt.
        -- intros (pre & j & post & H & Hpre & Hj).
           destruct pre as [|p pre]; cbn in H; injection H as <- ->.
           ++ congruence.
           ++ apply Forall_cons in Hpre. destruct Hpre as (_ & Hpre).
              exists pre, j, post. repeat split; assumption.
    + split; [intros _|reflexivity].
      exists [], i, rest. repeat split; [constructor | exact Hbody].
Qed.

Section ThrowingColliding.
Variable intersectObjects : Vector3 -> Vector3 -> list Object3D -> list Intersect.
Variable localToWorld : Object3D -> Vector3 -> Vector3.

(** X11. [colliding()] throws exactly when the camera is being moved and
    the raycaster reports a hit on an object that [space.getBody] does not
    know by name, before any hit that lies within its Body's collision
    distance: the loop looks at the hits in order and stops at the first
    collision, so an unknown object after that one is never looked up. *)
Theorem colliding_throws_on_first_unknown_hit w :
  fst (colliding intersectObjects localToWorld w) = Thrown <->
  (Vector3_length (controls_translation w) =? 0)%float = false /\
  exists pre i post,
    raycast intersectObjects localToWorld w = (pre ++ i :: post)%list /\
    Forall (fun j => resolves (bodies w) j /\
                     within_collision_distance (bodies w) j = false) pre /\
    getBody (bodies w) (o_name (object i)) = None.
Proof.
  unfold colliding. rewrite (bind_normal get _ w w w eq_refl).
  destruct (Vector3_length (controls_translation w) =? 0)%float.
  { cbn [ret fst]. split; [discriminate | intros (H & _); discriminate H]. }
  destruct (length (raycast intersectObjects localToWorld w) =? 0)%nat eqn:Hlen.
  - apply Nat.eqb_eq, nil_length_inv in Hlen. rewrite Hlen. cbn [ret fst].
    split; [discriminate|]. intros (_ & pre & i & post & H & _).
    destruct pre; discriminate H.
  - rewrite each_intersect_throws. split; [intros H; split; [reflexivity | exact H]|].
    intros (_ & H). exact H.
Qed.

(** X12. [colliding()] does not throw on Bodies as the constructor makes
    them.  The constructor stores the Body's name in its render object, and
    moving the Body keeps it there; the raycaster reports hits on the objects
    it was given, the render objects of the collideable Bodies.  So every
    hit is on an object that [space.getBody] finds, and [colliding()] returns
    a boolean and changes nothing. *)
Theorem colliding_returns_on_constructed_bodies w :
  (forall origin direction objects i,
     i ∈ intersectObjects origin direction objects -> object i ∈ objects) ->
  Forall (fun b => o_name (main b) = name b) (bodies w) ->
  (forall kmPerAu options positionScale p,
     let b := scalePositionFromArray positionScale p (new_Body kmPerAu options) in
     o_name (main b) = name b) /\
  exists blocked, colliding intersectObjects localToWorld w = (Normal blocked, w).
Proof.
  intros Hsound Hnames. split; [reflexivity|].
  assert (Hresolve : Forall (resolves (bodies w)) (raycast intersectObjects localToWorld w)).
  { apply Forall_forall. intros i Hi. apply Hsound in Hi.
    unfold getCollideableObject3Ds, getCollideableBodies in Hi.
    apply list_elem_of_In, in_map_iff in Hi. destruct Hi as (b & Hb & Hin).
    apply List.filter_In in Hin. destruct Hin as (Hin & _).
    unfold resolves. rewrite <- Hb.
    destruct (getBody_main (bodies w) b) as [H|H];
      [apply list_elem_of_In, Hin | exact H |].
    exfalso. apply H. rewrite Forall_forall in Hnames.
    apply Hnames, list_elem_of_In, Hin. }
  unfold colliding. rewrite (bind_normal get _ w w w eq_refl).
  destruct (Vector3_length (controls_translation w) =? 0)%float;
    [eexists; reflexivity|].
  destruct (length (raycast intersectObjects localToWorld w) =? 0)%nat;
    [eexists; reflexivity|].
  rewrite each_intersect_existsb by exact Hresolve. eexists. reflexivity.
Qed.

End ThrowingColliding.

Lemma demo_intersectObjects_sound origin direction objects i :
  i ∈ demo_intersectObjects origin direction objects -> object i ∈ objects.
Proof.
  unfold demo_intersectObjects. intros Hi.
  apply list_elem_of_In, in_map_iff in Hi. destruct Hi as (o & <- & Ho).
  apply list_elem_of_In, Ho.
Qed.

Lemma colliding_returns_on_constructed_bodies_witness :
  exists blocked,
    colliding demo_intersectObjects demo_localToWorld (flying_towards Earth) =
      (Normal blocked, flying_towards Earth).
Proof.
  apply (colliding_returns_on_constructed_bodies demo_intersectObjects
           demo_localToWorld (flying_towards Earth)).
  - apply demo_intersectObjects_sound.
  - vm_compute. repeat constructor.
Defined.

(** ** A tick of free flight that moves the camera *)

Section MovingFreeFlight.
Variable intersectObjects : Vector3 -> Vector3 -> list Object3D -> list Intersect.
Variable localToWorld : Object3D -> Vector3 -> Vector3.
Variable moveCamera : float -> float -> Vector3 -> Object3D -> Object3D.
Variable translateBodies : float -> list Body -> list Body.
Variable rotateBodies : float -> list Body -> list Body.

Lemma free_animationFrame_moving w this delta :
  fst (colliding intersectObjects localToWorld w) = Normal false ->
  let r := free_animationFrame intersectObjects localToWorld moveCamera
             translateBodies rotateBodies this delta w in
  let before := getClosestDistance (getCollideableBodies (bodies w)) (camera w) in
  let moved := moveCamera delta before (controls_translation w) (camera w) in
  let after := getClosestDistance (getCollideableBodies (bodies w)) moved in
  let t := controls_translation w in
  let s := (Vector3_length
              (mkVector3 (vx t * controls_strafe_speed (config w))
                         (vy t * controls_strafe_speed (config w))
                         (vz t * controls_z_speed (config w)))
            * after / delta)%float in
  camera (snd r) = moved /\
  currentMode (snd r) = currentMode w /\
  modes (snd r) = alter (set_speed s) this (modes w) /\
  bodies (snd r) =
    (if rotate_bodies (config w) then rotateBodies delta else id)
      ((if time_on (config w) then translateBodies delta else id) (bodies w)) /\
  log (snd r) =
    (log w ++ (if time_on (config w) then [Time_increment] else [])
           ++ [Space_moveBodyChildren (Some delta)]
           ++ match alter (set_speed s) this (modes w) !! currentMode w with
              | Some m => [Hud_update delta (speed m)]
              | None => []
              end)%list /\
  (is_Some (modes w !! currentMode w) -> fst r = Normal Continue).
Proof.
  intros Hfree r before moved after t s. subst r.
  assert (Hcall : colliding intersectObjects localToWorld w = (Normal false, w)).
  { pose proof (colliding_pure intersectObjects localToWorld w) as Hpure.
    destruct (colliding intersectObjects localToWorld w) as [c w'].
    cbn [fst snd] in *. congruence. }
  unfold free_animationFrame.
  rewrite (bind_normal _ _ _ _ _ Hcall).
  unfold free_getSpeed, getTranslationSpeedMultiplier, hud_update, getSpeed,
    bind, get, ret, throw, emit, modify.
  cbv beta iota.
  cbn [config currentMode modes camera bodies log controls_translation
       with_log with_bodies with_modes with_camera].
  fold before. fold moved. fold after. fold t. fold s.
  destruct (time_on (config w)), (rotate_bodies (config w));
    cbv beta iota;
    cbn [config currentMode modes camera bodies log controls_translation
         with_log with_bodies with_modes with_camera];
    rewrite (lookup_alter (set_speed s) (modes w) this (currentMode w));
    (destruct (decide (this = currentMode w)) as [->|];
     destruct (modes w !! currentMode w) as [m|];
     cbn [fmap option_fmap option_map fst snd camera modes bodies log
          with_log with_bodies with_modes with_camera];
     rewrite <- ?app_assoc; cbn [app];
     (repeat split; try reflexivity; try (intros [? ?]; discriminate))).
Qed.


(** X13. On a tick of free flight on which [colliding()] returns false,
    the controls move the camera with the multiplier taken at the camera's
    old place, the closest distance to a collideable Body.  The speed stored
    in the mode is computed after the move, with the multiplier taken again
    at the camera's new place: the length of the translation vector, scaled
    by the strafe and z speeds, times that multiplier, divided by [delta].
    It can be read back: the mode object of [this] afterwards is the one from
    before with that speed in its [speed] property, no other mode object
    changes, and when [this] is the current mode, as it is for the free mode
    in free flight, [flight.getSpeed()] returns that speed and it is the
    speed the HUD was refreshed with.  The rest of the tick is as on a
    blocked tick, and the HUD is refreshed after the speed has been
    stored. *)
Theorem free_animationFrame_when_moving w this delta :
  fst (colliding intersectObjects localToWorld w) = Normal false ->
  let r := free_animationFrame intersectObjects localToWorld moveCamera
             translateBodies rotateBodies this delta w in
  let before := getClosestDistance (getCollideableBodies (bodies w)) (camera w) in
  let moved := moveCamera delta before (controls_translation w) (camera w) in
  let after := getClosestDistance (getCollideableBodies (bodies w)) moved in
  let t := controls_translation w in
  let s := (Vector3_length
              (mkVector3 (vx t * controls_strafe_speed (config w))
                         (vy t * controls_strafe_speed (config w))
                         (vz t * controls_z_speed (config w)))
            * after / delta)%float in
  camera (snd r) = moved /\
  modes (snd r) = alter (set_speed s) this (modes w) /\
  bodies (snd r) =
    (if rotate_bodies (config w) then rotateBodies delta else id)
      ((if time_on (config w) then translateBodies delta else id) (bodies w)) /\
  log (snd r) =
    (log w ++ (if time_on (config w) then [Time_increment] else [])
           ++ [Space_moveBodyChildren (Some delta)]
           ++ match alter (set_speed s) this (modes w) !! currentMode w with
              | Some m => [Hud_update delta (speed m)]
              | None => []
              end)%list /\
  (is_Some (modes w !! currentMode w) -> fst r = Normal Continue) /\
  currentMode (snd r) = currentMode w /\
  (forall m, modes w !! this = Some m ->
     modes (snd r) !! this =
       Some (mkMode (mode_name m) (enabled m) s (animationFrame m))) /\
  (forall n, n <> this -> modes (snd r) !! n = modes w !! n) /\
  (this = currentMode w -> is_Some (modes w !! this) ->
     getSpeed (snd r) = (Normal s, snd r) /\
     log (snd r) =
       (log w ++ (if time_on (config w) then [Time_increment] else [])
              ++ [Space_moveBodyChildren (Some delta); Hud_update delta s])%list).
Proof.
  intros Hfree r before moved after t s.
  destruct (free_animationFrame_moving w this delta Hfree)
    as (Hcam & Hcur & Hmodes & Hbodies & Hlog & Hret).
  fold r in Hcam, Hcur, Hmodes, Hbodies, Hlog, Hret.
  fold before in Hcam, Hmodes, Hlog. fold moved in Hcam, Hmodes, Hlog.
  fold after in Hmodes, Hlog. fold t in Hmodes, Hlog. fold s in Hmodes, Hlog.
  split; [exact Hcam|]. split; [exact Hmodes|]. split; [exact Hbodies|].
  split; [exact Hlog|]. split; [exact Hret|]. split; [exact Hcur|].
  split; [|split].
  - intros m Hm. rewrite Hmodes, lookup_alter_eq, Hm. reflexivity.
  - intros n Hn. rewrite Hmodes, lookup_alter.
    destruct (decide (this = n)); [congruence | reflexivity].
  - intros Hthis [m Hm]. split.
    + unfold getSpeed, bind, get. rewrite Hcur, Hmodes, <- Hthis, lookup_alter_eq, Hm.
      reflexivity.
    + rewrite Hlog, <- Hthis, lookup_alter_eq, Hm. reflexivity.
Qed.

End MovingFreeFlight.

Lemma free_animationFrame_when_moving_witness :
  let w := flying_towards far_Earth in
  let r := free_animationFrame demo_intersectObjects demo_localToWorld
             demo_moveCamera demo_translateBodies demo_rotateBodies
             "free" 0.05%float w in
  camera (snd r) =
    demo_moveCamera 0.05%float 0.5%float (mkVector3 0 0 (-1)) demo_camera /\
  fst r = Normal Continue /\
  fst (getSpeed w) = Normal 0%float /\
  fst (getSpeed (snd r)) = Normal 9.4999999999999982%float.
Proof.
  intros w r.
  assert (Hfree :
    fst (colliding demo_intersectObjects demo_localToWorld w) = Normal false)
    by (vm_compute; reflexivity).
  destruct (free_animationFrame_when_moving demo_intersectObjects
              demo_localToWorld demo_moveCamera demo_translateBodies
              demo_rotateBodies w "free" 0.05%float Hfree)
    as (Hcam & _ & _ & _ & Hret & _ & _ & _ & Hread).
  fold r in Hcam, Hret, Hread.
  split; [etransitivity; [exact Hcam|]; vm_compute; reflexivity|].
  split; [apply Hret; eexists; vm_compute; reflexivity|].
  split; [vm_compute; reflexivity|].
  destruct Hread as (Hspeed & _);
    [vm_compute; reflexivity | eexists; vm_compute; reflexivity |].
  rewrite Hspeed. vm_compute. reflexivity.
Defined.

(** ** A Body without a radius *)

Lemma SFltb_not_negative_not_positive r c :
  SFnot_negative r = true -> SFnot_positive c = true -> SFltb r c = false.
Proof.
  destruct r as [[]|[]| |[] mr er], c as [[]|[]| |[] mc ec]; intros Hr Hc;
    try discriminate Hr; try discriminate Hc; reflexivity.
Qed.

Lemma binary_round_aux_not_negative mx ex lx :
  SFnot_negative (binary_round_aux prec emax false mx ex lx) = true.
Proof.
  unfold binary_round_aux.
  destruct (shr_fexp prec emax mx ex lx) as [mrs' e'].
  destruct (shr_fexp prec emax
              (round_nearest_even (shr_m mrs') (loc_of_shr_record mrs')) e' loc_Exact)
    as [mrs'' e''].
  destruct (shr_m mrs''); [reflexivity| |reflexivity].
  destruct (e'' <=? emax - prec)%Z; reflexivity.
Qed.

Lemma SFsqrt_not_negative x : SFnot_negative (SFsqrt prec emax x) = true.
Proof.
  destruct x as [[]|[]| |[] m e]; try reflexivity.
  unfold SFsqrt.
  destruct (SFsqrt_core_binary prec emax (Z.pos m) e) as [[mz ez] lz].
  apply binary_round_aux_not_negative.
Qed.

Lemma not_positive_spec s :
  (0 <? s)%float = false <-> SFnot_positive (Prim2SF s) = true.
Proof.
  rewrite ltb_spec. change (Prim2SF 0) with (S754_zero false).
  destruct (Prim2SF s) as [[]|[]| |[] m e]; cbn; split; congruence.
Qed.

Lemma SFdouble_not_positive x :
  SFnot_positive x = true -> SFnot_positive (SFdouble x) = true.
Proof.
  destruct x as [[]|[]| |[] m e]; intros H; try discriminate H; try reflexivity.
  unfold SFdouble.
  destruct (Z.pos (digits2_pos m) =? prec)%Z; [|reflexivity].
  destruct (e + 1 <=? emax - prec)%Z; reflexivity.
Qed.

Lemma isColliding_without_radius b cam :
  (0 <? getScaledRadius b)%float = false -> isColliding b cam = false.
Proof.
  intros Hs. apply not_positive_spec in Hs.
  unfold isColliding, getCollisionDistance, getSurfaceCollisionDistance,
    getDistance, Object3D_getDistance, Vector3_distanceTo.
  rewrite ltb_spec, sqrt_spec, (add_spec (getScaledRadius b)).
  unfold SF64sqrt, SF64add.
  rewrite SFadd_diag by apply Prim2SF_valid.
  apply SFltb_not_negative_not_positive;
    [apply SFsqrt_not_negative | apply SFdouble_not_positive, Hs].
Qed.

Lemma new_Body_without_radius kmPerAu positionScale p options :
  opt_radiusInKm options = None ->
  (0 <? getScaledRadius
          (scalePositionFromArray positionScale p (new_Body kmPerAu options)))%float
    = false.
Proof.
  intros Hnone. apply not_positive_spec.
  unfold getScaledRadius, scalePositionFromArray, new_Body. cbn [radius main scale vx new_Mesh].
  rewrite Hnone. cbn [default]. unfold Body_prototype_radiusInKm.
  rewrite mul_spec, div_spec.
  change (Prim2SF 0) with (S754_zero false).
  change (Prim2SF 1) with (S754_finite false 4503599627370496 (-52)).
  unfold SF64mul, SF64div.
  destruct (Prim2SF kmPerAu) as [[]|[]| |[] m e]; reflexivity.
Qed.

Section NoRadius.
Variable intersectObjects : Vector3 -> Vector3 -> list Object3D -> list Intersect.
Variable localToWorld : Object3D -> Vector3 -> Vector3.
Variable slerp : Quaternion -> Quaternion -> float -> Quaternion.
Variable translateZ : float -> Object3D -> Object3D.
Variable moveCamera : float -> float -> Vector3 -> Object3D -> Object3D.
Variable translateBodies : float -> list Body -> list Body.
Variable rotateBodies : float -> list Body -> list Body.

Abbreviation tick :=
  (animate_callback intersectObjects localToWorld slerp translateZ moveCamera
     translateBodies rotateBodies).
Abbreviation run_ticks :=
  (ticks intersectObjects localToWorld slerp translateZ moveCamera
     translateBodies rotateBodies).

Lemma translate_tick_goes_on body delta w :
  translating body w ->
  isColliding body (camera w) = false ->
  exists w', tick "auto" delta w = (Normal Continue, w') /\ translating body w'.
Proof.
  intros (Hcur & m & Hm & Hen & Hframe) Hfree.
  unfold animate_callback, bind, get. rewrite Hm, Hen. cbn [negb].
  rewrite Hframe. cbn [call_animationFrame].
  unfold translate_animationFrame, auto_update, hud_update, getSpeed,
    getTranslationSpeedMultiplier, bind, get, ret, throw, emit, modify.
  rewrite Hfree. cbv beta iota.
  cbn [currentMode modes with_log with_modes with_camera].
  rewrite Hcur, lookup_alter_eq, Hm. cbn [fmap option_fmap option_map].
  eexists. split; [reflexivity|].
  split; [exact Hcur|].
  cbn [modes with_log with_modes with_camera].
  rewrite lookup_alter_eq, Hm. cbn [fmap option_fmap option_map].
  eexists. split; [reflexivity|]. split; assumption.
Qed.

(** X14. A Body without a radius is never reached.  When the scaled
    radius of a Body is not above zero (zero, negative or NaN), so is its
    collision distance, and [isColliding] is false for every object, at
    whatever distance: no distance is below zero.  A Body constructed
    without [radiusInKm] is such a Body, whatever [kmPerAu] is and wherever
    the Body is put.  The translate phase of a [flyTo] towards such a Body
    therefore goes on for ever: after any number of ticks auto flight is
    still the current mode, enabled, with the same translate closure. *)
Theorem translateTo_without_radius_never_arrives body deltas w :
  (0 <? getScaledRadius body)%float = false ->
  translating body w ->
  (forall cam, isColliding body cam = false) /\
  (forall kmPerAu positionScale p options,
     opt_radiusInKm options = None ->
     forall cam,
       isColliding (scalePositionFromArray positionScale p (new_Body kmPerAu options))
         cam = false) /\
  translating body (run_ticks "auto" deltas w) /\
  is_enabled "auto" (run_ticks "auto" deltas w) = true.
Proof.
  intros Hs Hw.
  split; [intros cam; apply isColliding_without_radius, Hs|].
  split.
  { intros kmPerAu positionScale p options Hnone cam.
    apply isColliding_without_radius, new_Body_without_radius, Hnone. }
  assert (Hrun : translating body (run_ticks "auto" deltas w)).
  { revert w Hw. induction deltas as [|delta rest IH]; intros w Hw; cbn [ticks];
      [exact Hw|].
    destruct (translate_tick_goes_on body delta w Hw) as (w' & -> & Hw');
      [apply isColliding_without_radius, Hs|].
    apply IH, Hw'. }
  split; [exact Hrun|].
  destruct Hrun as (_ & m & Hm & Hen & _). unfold is_enabled. rewrite Hm. exact Hen.
Qed.

(** ** A tick that took no time *)

Lemma SFmul_zero_div_zero z mult :
  SFdiv prec emax
    (SFmul prec emax (SFmul prec emax z (S754_zero false)) mult)
    (S754_zero false) = S754_nan.
Proof.
  destruct z as [[]|[]| |[] mz ez], mult as [[]|[]| |[] mm em]; reflexivity.
Qed.

Lemma is_nan_spec x : is_nan x = true <-> Prim2SF x = S754_nan.
Proof.
  unfold is_nan. rewrite negb_true_iff, FloatAxioms.eqb_spec. unfold SFeqb.
  destruct (Prim2SF x) as [s|s| |s m e]; cbn.
  - split; discriminate.
  - destruct s; split; discriminate.
  - split; reflexivity.
  - rewrite Z.compare_refl.
    change (PosDef.Pos.compare_cont Eq m m) with (Pos.compare m m).
    rewrite Pos.compare_refl. destruct s; split; discriminate.
Qed.

(** X15. A tick of the translate phase with [delta] 0 that does not end
    the manoeuvre stores NaN as the speed of the mode, whatever the z speed
    and the multiplier are: the distance to move is a zero or NaN, and
    dividing it by the zero [delta] gives NaN.  The NaN can be read back from
    the [speed] property of the mode object of [this], and when [this] is the
    current mode [flight.getSpeed()] returns a NaN, the one the HUD was
    refreshed with.  The camera is moved by minus that distance. *)
Theorem translate_animationFrame_zero_delta w this body :
  isColliding body (camera w) = false ->
  let r := translate_animationFrame translateZ this body 0%float w in
  let translationZ :=
    (controls_z_speed (config w) * 0 * getClosestDistance [body] (camera w))%float in
  modes (snd r) = alter (set_speed (translationZ / 0)%float) this (modes w) /\
  is_nan (translationZ / 0)%float = true /\
  camera (snd r) = translateZ (- translationZ)%float (camera w) /\
  (forall m, modes w !! this = Some m ->
     exists m',
       modes (snd r) !! this = Some m' /\
       speed m' = (translationZ / 0)%float /\
       is_nan (speed m') = true /\
       mode_name m' = mode_name m /\ enabled m' = enabled m /\
       animationFrame m' = animationFrame m) /\
  (this = currentMode w -> is_Some (modes w !! this) ->
     exists s,
       getSpeed (snd r) = (Normal s, snd r) /\
       is_nan s = true /\
       log (snd r) =
         (log w ++ [Space_moveBodyChildren None; Hud_update 0 s])%list).
Proof.
  intros Hfree r translationZ.
  destruct (translate_animationFrame_moving translateZ w this body 0%float Hfree)
    as (_ & Hcam & Hmodes & Hcur & Hlog & _).
  fold translationZ in Hcam, Hmodes, Hlog. fold r in Hcam, Hmodes, Hcur, Hlog.
  assert (Hnan : is_nan (translationZ / 0)%float = true).
  { apply is_nan_spec. unfold translationZ.
    rewrite div_spec, !mul_spec. change (Prim2SF 0) with (S754_zero false).
    apply SFmul_zero_div_zero. }
  split; [exact Hmodes|]. split; [exact Hnan|]. split; [exact Hcam|].
  split.
  - intros m Hm. exists (set_speed (translationZ / 0)%float m).
    split; [rewrite Hmodes, lookup_alter_eq, Hm; reflexivity|].
    split; [reflexivity|]. split; [exact Hnan|]. repeat split.
  - intros Hthis [m Hm]. exists (translationZ / 0)%float.
    split; [|split; [exact Hnan|]].
    + unfold getSpeed, bind, get. rewrite Hcur, Hmodes, <- Hthis, lookup_alter_eq, Hm.
      reflexivity.
    + rewrite Hlog, <- Hthis, lookup_alter_eq, Hm. reflexivity.
Qed.

End NoRadius.

Lemma translateTo_without_radius_never_arrives_witness :
  let w := snd (translateTo Vulcan (snd (setMode "auto" in_menu))) in
  translating Vulcan (demo_ticks "auto" (repeat 0.05%float 1000) w).
Proof.
  intros w.
  apply (translateTo_without_radius_never_arrives demo_intersectObjects
           demo_localToWorld demo_slerp demo_translateZ demo_moveCamera
           demo_translateBodies demo_rotateBodies Vulcan
           (repeat 0.05%float 1000) w).
  - vm_compute. reflexivity.
  - split; [vm_compute; reflexivity|].
    eexists. split; [vm_compute; reflexivity|]. split; reflexivity.
Defined.

Lemma translate_animationFrame_zero_delta_witness :
  let w := demo_ticks "auto" (repeat 0.05%float 30) flying_to_Mars in
  let r := translate_animationFrame demo_translateZ "auto" Mars 0%float w in
  fst (getSpeed w) = Normal 0.34916864804687492%float /\
  exists s, fst (getSpeed (snd r)) = Normal s /\ is_nan s = true.
Proof.
  intros w r. split; [vm_compute; reflexivity|].
  assert (Hfree : isColliding Mars (camera w) = false) by (vm_compute; reflexivity).
  destruct (translate_animationFrame_zero_delta demo_translateZ w "auto" Mars Hfree)
    as (_ & _ & _ & _ & Hread).
  destruct Hread as (s & Hspeed & Hnan & _);
    [vm_compute; reflexivity | eexists; vm_compute; reflexivity |].
  fold r in Hspeed. exists s. rewrite Hspeed. split; [reflexivity | exact Hnan].
Defined.

(** ** The Escape key *)

Lemma keyup_handlers_no_flag action which n w :
  keyup_handlers action which n false w = (Normal tt, (idle, w)).
Proof.
  induction n as [|n IH]; cbn [keyup_handlers]; [reflexivity|].
  rewrite andb_false_r. exact IH.
Qed.

Lemma keyup_handlers_other_key action which n flag w :
  which <> 27 ->
  keyup_handlers action which n flag w = (Normal tt, (mkKeyboard flag 0, w)).
Proof.
  intros Hne. apply Nat.eqb_neq in Hne.
  induction n as [|n IH]; cbn [keyup_handlers]; [reflexivity|].
  rewrite Hne. exact IH.
Qed.

Lemma keydowns_Escape n k :
  keydowns (repeat 27 (S n)) k = mkKeyboard true (S n + keyup_once k).
Proof.
  revert k. induction n as [|n IH]; intros k; [reflexivity|].
  change (keydowns (repeat 27 (S (S n))) k)
    with (keydowns (repeat 27 (S n)) (keydown 27 k)).
  rewrite IH. cbn [keydown Nat.eqb keyup_once]. f_equal. lia.
Qed.

(** X16. Escape in auto flight.  However often the [keydown] of a held
    Escape key repeats, binding one more handler each time, its release
    calls [setMode('menu')] exactly once: the first handler makes the call
    and resets the flag, the others find the flag down.  Afterwards no
    handler is bound.  The same closure serves the menu, with the pointer
    lock request as the action. *)
Theorem Escape_release_acts_once action n w w' :
  action w = (Normal tt, w') ->
  keyup action 27 (keydowns (repeat 27 (S n)) idle, w) = (Normal tt, (idle, w')) /\
  (modes_registered w ->
   auto_keyup 27 (keydowns (repeat 27 (S n)) idle, w) =
     (Normal tt, (idle, snd (setMode "menu" w)))).
Proof.
  intros Haction.
  assert (Hgen : forall act v v',
    act v = (Normal tt, v') ->
    keyup act 27 (keydowns (repeat 27 (S n)) idle, v) = (Normal tt, (idle, v'))).
  { intros act v v' Hact. unfold keyup. cbn [fst snd].
    rewrite keydowns_Escape. cbn [keyup_once keydownInProgress idle Nat.add].
    cbn [keyup_handlers Nat.eqb andb]. rewrite Hact.
    apply keyup_handlers_no_flag. }
  split; [apply Hgen, Haction|].
  intros Hreg. apply Hgen.
  pose proof (setMode_registered_normal "menu" w Hreg) as Hf.
  destruct (setMode "menu" w) as [c v]. cbn [fst snd] in *.
  rewrite Hf; [reflexivity|].
  unfold mode_names. rewrite !elem_of_cons. tauto.
Qed.

(** X17. A lost Escape.  The handlers bound by [.one('keyup', ...)] run at
    the next release of any key.  When another key is released while Escape
    is held, they run for that key, do nothing, and are gone; the release
    of Escape then finds no handler, the action is not taken, the world is
    as it was, and the flag stays up. *)
Theorem Escape_release_is_lost action n other w :
  other <> 27 ->
  keyup action other (keydowns (repeat 27 (S n)) idle, w) =
    (Normal tt, (mkKeyboard true 0, w)) /\
  keyup action 27 (mkKeyboard true 0, w) = (Normal tt, (mkKeyboard true 0, w)).
Proof.
  intros Hne. split; [|reflexivity].
  unfold keyup. cbn [fst snd]. rewrite keydowns_Escape.
  cbn [keyup_once keydownInProgress].
  apply keyup_handlers_other_key, Hne.
Qed.

Lemma Escape_release_acts_once_witness :
  auto_keyup 27 (keydowns [27; 27; 27] idle, snd (setMode "auto" in_menu)) =
    (Normal tt, (idle, snd (setMode "menu" (snd (setMode "auto" in_menu))))).
Proof.
  assert (Hw : well_formed (snd (setMode "auto" in_menu)))
    by apply setMode_well_formed, setModes_well_formed, initial_well_formed.
  assert (Hmenu : "menu" ∈ mode_names)
    by (unfold mode_names; rewrite !elem_of_cons; tauto).
  pose proof (setMode_registered_normal "menu" _ (proj1 Hw) Hmenu) as Hf.
  apply (Escape_release_acts_once (setMode "menu") 2 (snd (setMode "auto" in_menu))
           (snd (setMode "menu" (snd (setMode "auto" in_menu))))).
  - destruct (setMode "menu" (snd (setMode "auto" in_menu))) as [c v].
    cbn [fst snd] in *. rewrite Hf. reflexivity.
  - apply Hw.
Defined.

Lemma Escape_release_is_lost_witness :
  auto_keyup 65 (keydowns [27] idle, flying_to_Mars) =
    (Normal tt, (mkKeyboard true 0, flying_to_Mars)) /\
  auto_keyup 27 (mkKeyboard true 0, flying_to_Mars) =
    (Normal tt, (mkKeyboard true 0, flying_to_Mars)).
Proof.
  apply (Escape_release_is_lost (setMode "menu") 0 65 flying_to_Mars). discriminate.
Defined.

(** ** Coming back to auto flight *)

Lemma setMode_auto_frame name w : auto_frame (snd (setMode name w)) = auto_frame w.
Proof.
  unfold auto_frame. pose proof (setMode_lookup name w "auto") as H.
  inversion H as [m m' (_ & _ & Hf) Hm Hm'|]; cbn; congruence.
Qed.

Section ComingBack.
Variable intersectObjects : Vector3 -> Vector3 -> list Object3D -> list Intersect.
Variable localToWorld : Object3D -> Vector3 -> Vector3.
Variable slerp : Quaternion -> Quaternion -> float -> Quaternion.
Variable translateZ : float -> Object3D -> Object3D.
Variable moveCamera : float -> float -> Vector3 -> Object3D -> Object3D.
Variable translateBodies : float -> list Body -> list Body.
Variable rotateBodies : float -> list Body -> list Body.

Abbreviation tick :=
  (animate_callback intersectObjects localToWorld slerp translateZ moveCamera
     translateBodies rotateBodies).
Abbreviation run_ticks :=
  (ticks intersectObjects localToWorld slerp translateZ moveCamera
     translateBodies rotateBodies).

Lemma ticks_preserves I self deltas w :
  tick_stable I -> I w -> I (run_ticks self deltas w).
Proof.
  intros HI. revert w. induction deltas as [|delta rest IH]; intros w Hw;
    cbn [ticks]; [exact Hw|].
  pose proof (preserves_tick intersectObjects localToWorld slerp translateZ
                moveCamera translateBodies rotateBodies I self delta HI w Hw) as Hstep.
  destruct (tick self delta w) as [[[]|] w']; cbn [snd] in Hstep;
    [apply IH| |]; assumption.
Qed.

(** X18. [setMode] never touches a mode's [animationFrame], so the
    closure that the last manoeuvre left in the auto mode is still there
    when auto flight is entered again.  After a [flyTo] that has arrived,
    [setMode('auto')] without a new [flyTo] resumes the translate phase of
    the old target: the camera is still within its collision distance, and
    the first tick puts the flight mode back to menu without moving the
    camera. *)
Theorem setMode_auto_resumes_the_last_manoeuvre w body delta :
  well_formed w ->
  currentMode w <> "auto" ->
  auto_frame w = Some (Frame_translate body) ->
  isColliding body (camera w) = true ->
  let w1 := snd (setMode "auto" w) in
  (forall name v, auto_frame (snd (setMode name v)) = auto_frame v) /\
  currentMode w1 = "auto" /\
  auto_frame w1 = Some (Frame_translate body) /\
  exists w2,
    tick "auto" delta w1 = (Normal Stop, w2) /\
    currentMode w2 = "menu" /\
    is_enabled "menu" w2 = true /\
    is_enabled "auto" w2 = false /\
    camera w2 = camera w.
Proof.
  intros Hw Hne Hframe Hhit w1.
  split; [apply setMode_auto_frame|].
  assert (Hw1 : well_formed w1) by (apply setMode_well_formed, Hw).
  destruct (setMode_auto_enters w (proj1 Hw) Hne) as (Hcur & m & Hm & Hen).
  fold w1 in Hcur, Hm.
  assert (Hframe1 : auto_frame w1 = Some (Frame_translate body))
    by (unfold w1; rewrite setMode_auto_frame; exact Hframe).
  assert (Hcam1 : camera w1 = camera w) by apply (setMode_same_scene "auto" w).
  split; [exact Hcur|]. split; [exact Hframe1|].
  destruct Hw1 as (Hreg1 & Hinv1 & _).
  destruct (setMode_menu_from_auto w1 Hreg1 Hinv1 Hcur) as (w2 & Hset & Hc2 & Hmenu & Hothers).
  exists w2. split.
  - unfold animate_callback. rewrite (bind_normal get _ w1 w1 w1 eq_refl), Hm, Hen.
    cbn [negb]. unfold auto_frame in Hframe1. rewrite Hm in Hframe1.
    injection Hframe1 as ->. cbn [call_animationFrame].
    unfold translate_animationFrame.
    rewrite (bind_normal get _ w1 w1 w1 eq_refl), Hcam1, Hhit.
    rewrite (bind_normal _ _ _ _ _ Hset). reflexivity.
  - split; [exact Hc2|]. split; [exact Hmenu|].
    split; [apply Hothers; discriminate|].
    pose proof (setMode_same_scene "menu" w1) as Hscene.
    rewrite Hset in Hscene. destruct Hscene as (Hc & _). cbn [snd] in Hc. congruence.
Qed.

(** *** Panning *)

Lemma pan_tick_exact body q0 q1 t delta w m :
  panning body q0 q1 t w ->
  modes w !! "auto" = Some m ->
  (pan_clamp t <=? 1)%float = true ->
  tick "auto" delta w =
    (Normal Continue,
     with_pan q0 q1 (pan_clamp t + 0.05)%float
       (with_log (fun l => ((l ++ [Space_moveBodyChildren None])
                              ++ [Hud_update delta (speed m)])%list)
          (with_camera (fun cam =>
             mkObject3D (o_name cam) (position cam) (slerp q0 q1 (pan_clamp t))
               (scale cam)) w))).
Proof.
  intros (Hcur & (m0 & Hm0 & Hen & Hframe) & <- & <- & <-) Hm Hle.
  rewrite Hm in Hm0. injection Hm0 as <-.
  unfold pan_clamp in *.
  unfold animate_callback, bind, get. rewrite Hm, Hen. cbn [negb].
  rewrite Hframe. cbn [call_animationFrame].
  unfold pan_animationFrame, auto_update, hud_update, getSpeed, bind, get, ret,
    throw, emit, modify.
  destruct ((1 <? panTo_t w) && (panTo_t w <? 1 + 0.05))%float; cbv beta iota;
    cbn [panTo_t panTo_initialQuaternion panTo_targetQuaternion with_pan];
    rewrite Hle; cbv beta iota;
    cbn [currentMode modes with_log with_camera with_pan];
    rewrite Hcur, Hm; reflexivity.
Qed.

Lemma pan_run_still body q0 q1 m deltas : forall j w,
  j + length deltas <= 21 ->
  panning body q0 q1 (pan_seq j) w ->
  modes w !! "auto" = Some m ->
  panning body q0 q1 (pan_seq (j + length deltas)) (run_ticks "auto" deltas w) /\
  modes (run_ticks "auto" deltas w) = modes w /\
  position (camera (run_ticks "auto" deltas w)) = position (camera w) /\
  bodies (run_ticks "auto" deltas w) = bodies w /\
  log (run_ticks "auto" deltas w) =
    (log w ++ flat_map (fun delta => [Space_moveBodyChildren None;
                                      Hud_update delta (speed m)]) deltas)%list.
Proof.
  induction deltas as [|delta rest IH]; intros j w Hlen Hpan Hm; cbn [length ticks].
  - rewrite Nat.add_0_r. cbn [flat_map]. rewrite app_nil_r.
    split; [exact Hpan|]. repeat split.
  - cbn [length] in Hlen.
    assert (Hle : (pan_clamp (pan_seq j) <=? 1)%float = true)
      by (apply pan_seq_in_range; lia).
    destruct (pan_tick_interpolates intersectObjects localToWorld slerp translateZ
                moveCamera translateBodies rotateBodies body q0 q1 (pan_seq j)
                delta w Hpan Hle) as (w1 & Htick & Hpan1 & _).
    rewrite (pan_tick_exact body q0 q1 (pan_seq j) delta w m Hpan Hm Hle) in Htick.
    injection Htick as Hw1. rewrite (pan_tick_exact body q0 q1 (pan_seq j) delta w m Hpan Hm Hle).
    rewrite Hw1.
    assert (Hm1 : modes w1 !! "auto" = Some m) by (rewrite <- Hw1; exact Hm).
    destruct (IH (S j) w1) as (Hp & Hmodes & Hpos & Hbodies & Hlog);
      [lia | exact Hpan1 | exact Hm1 |].
    replace (j + S (length rest)) with (S j + length rest) by lia.
    split; [exact Hp|].
    split; [rewrite Hmodes, <- Hw1; reflexivity|].
    split; [rewrite Hpos, <- Hw1; reflexivity|].
    split; [rewrite Hbodies, <- Hw1; reflexivity|].
    rewrite Hlog, <- Hw1. cbn [flat_map log with_pan with_log with_camera].
    rewrite <- !app_assoc. reflexivity.
Qed.

(** X19. While it pans, auto flight only turns the camera.  Through the
    twenty-one ticks of the pan phase that [flyTo] starts, the camera stays
    where it is, the Bodies are not touched, and no mode object changes: in
    particular the auto mode's speed is never written, and the HUD is
    refreshed on every tick with the speed left by whatever flew before. *)
Theorem pan_phase_only_turns_the_camera lookAt w body body_mesh m deltas :
  currentMode w = "auto" ->
  modes w !! "auto" = Some m ->
  enabled m = true ->
  mesh body = Some body_mesh ->
  length deltas <= 21 ->
  let w0 := snd (flyTo lookAt body w) in
  let w' := run_ticks "auto" deltas w0 in
  position (camera w') = position (camera w) /\
  bodies w' = bodies w /\
  modes w' = modes w0 /\
  (forall n, speed <$> modes w' !! n = speed <$> modes w !! n) /\
  log w' =
    (log w0 ++ flat_map (fun delta => [Space_moveBodyChildren None;
                                       Hud_update delta (speed m)]) deltas)%list.
Proof.
  intros Hcur Hm Hen Hmesh Hlen w0 w'.
  destruct (flyTo_starts_panning lookAt w body body_mesh Hcur) as (Hpan & Hcam);
    [exists m; split; assumption | exact Hmesh |].
  fold w0 in Hpan, Hcam.
  assert (Hmodes0 : modes w0 =
            alter (set_animationFrame (Frame_pan body)) "auto" (modes w)).
  { unfold w0, flyTo, panTo, bind, get, emit, modify. rewrite Hmesh. reflexivity. }
  assert (Hbodies0 : bodies w0 = bodies w).
  { unfold w0, flyTo, panTo, bind, get, emit, modify. rewrite Hmesh. reflexivity. }
  assert (Hm0 : modes w0 !! "auto" = Some (set_animationFrame (Frame_pan body) m)).
  { rewrite Hmodes0, lookup_alter_eq, Hm. reflexivity. }
  destruct (pan_run_still body _ _ _ deltas 0 w0 Hlen Hpan Hm0)
    as (_ & Hmodes & Hpos & Hbodies & Hlog).
  fold w' in Hmodes, Hpos, Hbodies, Hlog.
  split; [rewrite Hpos, Hcam; reflexivity|].
  split; [rewrite Hbodies; exact Hbodies0|].
  split; [exact Hmodes|]. split; [|exact Hlog].
  intros n. rewrite Hmodes, Hmodes0, lookup_alter.
  destruct (decide ("auto" = n)) as [<-|]; [|reflexivity].
  rewrite Hm. reflexivity.
Qed.

End ComingBack.

Lemma setMode_auto_resumes_the_last_manoeuvre_witness :
  let w := demo_ticks "auto" (repeat 0.05%float 205) flying_to_Mars in
  exists w2,
    animate_callback demo_intersectObjects demo_localToWorld demo_slerp
      demo_translateZ demo_moveCamera demo_translateBodies demo_rotateBodies
      "auto" 0.05%float (snd (setMode "auto" w)) = (Normal Stop, w2) /\
    currentMode w2 = "menu" /\
    is_enabled "menu" w2 = true /\
    is_enabled "auto" w2 = false /\
    camera w2 = camera w.
Proof.
  intros w.
  apply (setMode_auto_resumes_the_last_manoeuvre demo_intersectObjects
           demo_localToWorld demo_slerp demo_translateZ demo_moveCamera
           demo_translateBodies demo_rotateBodies w Mars 0.05%float).
  - unfold w, demo_ticks. apply ticks_preserves; [apply well_formed_stable|].
    unfold flying_to_Mars, in_menu.
    apply flyTo_well_formed, setMode_well_formed, setModes_well_formed,
      initial_well_formed.
  - vm_compute. discriminate.
  - vm_compute. reflexivity.
  - vm_compute. reflexivity.
Defined.

Lemma pan_phase_only_turns_the_camera_witness :
  position (camera (demo_ticks "auto" (repeat 0.05%float 21) flying_to_Mars)) =
    position (camera (snd (setMode "auto" in_menu))).
Proof.
  assert (Hm : exists m, modes (snd (setMode "auto" in_menu)) !! "auto" = Some m /\
                         enabled m = true)
    by (eexists; split; vm_compute; reflexivity).
  destruct Hm as (m & Hm & Hen).
  apply (pan_phase_only_turns_the_camera demo_intersectObjects demo_localToWorld
           demo_slerp demo_translateZ demo_moveCamera demo_translateBodies
           demo_rotateBodies demo_lookAt (snd (setMode "auto" in_menu)) Mars
           (main Mars) m (repeat 0.05%float 21)).
  - vm_compute. reflexivity.
  - exact Hm.
  - exact Hen.
  - reflexivity.
  - cbn. lia.
Defined.

(** ** What is on display *)

Lemma is_on_snoc s l e :
  is_on s (l ++ [e]) =
    if switch_on s e then true else if switch_off s e then false else is_on s l.
Proof. unfold is_on. rewrite fold_left_app. reflexivity. Qed.

Lemma is_on_quiet s l e : quiet e = true -> is_on s (l ++ [e]) = is_on s l.
Proof.
  intros He. rewrite is_on_snoc.
  destruct e; try discriminate He; destruct s; reflexivity.
Qed.

Lemma enable_switches this s w :
  this ∈ mode_names ->
  is_on s (log (snd (enable this w))) =
    if decide (switch_owner s = this) then true else is_on s (log w).
Proof.
  intros Hthis. unfold enable.
  dispatch_mode this;
    [| | |exfalso; revert Hthis; apply not_a_mode_name; assumption];
    cbn [snd bind emit modify free_enable auto_enable menu_enable
         Mode_prototype_enable Mode_prototype_animate log with_log with_modes];
    rewrite !is_on_snoc; destruct s; reflexivity.
Qed.

Lemma disable_switches this s w :
  this ∈ mode_names ->
  is_on s (log (snd (disable this w))) =
    if decide (switch_owner s = this) then false else is_on s (log w).
Proof.
  intros Hthis. unfold disable.
  dispatch_mode this;
    [| | |exfalso; revert Hthis; apply not_a_mode_name; assumption];
    cbn [snd bind emit modify free_disable auto_disable menu_disable
         Mode_prototype_disable log with_log with_modes];
    rewrite !is_on_snoc; destruct s; reflexivity.
Qed.

Lemma after_disable_display w :
  display_follows_flags w -> display_follows_flags (after_disable w).
Proof.
  intros (Hreg & Hshow). split; [apply after_disable_modes_registered, Hreg|].
  intros s. rewrite after_disable_is_enabled.
  unfold after_disable. destruct (modes w !! currentMode w) as [m|] eqn:Hm.
  - rewrite disable_switches by (apply Hreg; eexists; exact Hm).
    rewrite Hshow.
    destruct (decide (switch_owner s = currentMode w)),
             (decide (currentMode w = switch_owner s)); congruence.
  - rewrite Hshow. destruct (decide (currentMode w = switch_owner s)) as [Heq|];
      [|reflexivity].
    unfold is_enabled. rewrite <- Heq, Hm. reflexivity.
Qed.

Lemma setMode_display name : preserves display_follows_flags (setMode name).
Proof.
  intros w Hw. pose proof (after_disable_display w Hw) as (Hreg & Hshow).
  rewrite setMode_eq.
  destruct (decide (currentMode w = name)); [exact Hw|].
  destruct (modes (after_disable w) !! name) as [m|] eqn:Hm; cbn [snd];
    [|split; assumption].
  assert (Hname : name ∈ mode_names) by (apply Hreg; eexists; exact Hm).
  destruct (enable_effect name (after_disable w)) as (_ & Hmodes & _).
  split.
  - intros k. cbn [modes with_log with_currentMode]. rewrite Hmodes.
    rewrite <- (Hreg k), <- !not_eq_None_Some, lookup_alter_None. reflexivity.
  - intros s. rewrite log_with_log, log_with_currentMode.
    rewrite is_on_quiet by reflexivity.
    rewrite enable_switches by exact Hname.
    change (is_enabled (switch_owner s)
              (with_log _ (with_currentMode name (snd (enable name (after_disable w))))))
      with (is_enabled (switch_owner s) (snd (enable name (after_disable w)))).
    rewrite (is_enabled_alter _ _ (switch_owner s) _ _ Hmodes), Hm, Hshow.
    destruct (decide (switch_owner s = name)), (decide (name = switch_owner s));
      congruence.
Qed.

Lemma display_alter g this w :
  (forall m, enabled (g m) = enabled m) ->
  display_follows_flags w -> display_follows_flags (with_modes (alter g this) w).
Proof.
  intros Hg (Hreg & Hshow). split.
  - intros n. cbn [modes with_modes]. rewrite <- (Hreg n).
    rewrite <- !not_eq_None_Some, lookup_alter_None. reflexivity.
  - intros s. rewrite is_enabled_alter_same by exact Hg. apply Hshow.
Qed.

Lemma display_stable : tick_stable display_follows_flags.
Proof.
  split.
  - intros e w He (Hreg & Hshow). split; [exact Hreg|].
    intros s. cbn [log with_log]. rewrite is_on_quiet by exact He. apply Hshow.
  - intros f w H. exact H.
  - intros q0 q1 t w H. exact H.
  - intros f w H. exact H.
  - intros s this w. apply display_alter. intros m. reflexivity.
  - intros body w. apply display_alter. intros m. reflexivity.
  - apply setMode_display.
Qed.

Lemma flyTo_display lookAt body : preserves display_follows_flags (flyTo lookAt body).
Proof.
  assert (Hnotice : forall e w, switch_on Hud e = false ->
            (forall s, switch_on s e = false /\ switch_off s e = false) ->
            display_follows_flags w ->
            display_follows_flags (with_log (fun l => (l ++ [e])%list) w)).
  { intros e w _ He (Hreg & Hshow). split; [exact Hreg|].
    intros s. cbn [log with_log]. rewrite is_on_snoc.
    destruct (He s) as (-> & ->). apply Hshow. }
  unfold flyTo, panTo.
  repeat first
    [ apply preserves_bind; [|intros ?]
    | apply preserves_get
    | apply preserves_throw
    | apply preserves_modify;
      first [ apply (stable_pan _ display_stable)
            | intros w H; exact H
            | intros w; apply display_alter; intros m; reflexivity
            | intros w; apply Hnotice; [reflexivity | intros []; split; reflexivity] ]
    | match goal with
      | |- preserves _ (match ?o with _ => _ end) => destruct o
      end ].
Qed.

Lemma initial_display cam bs tv cfg : display_follows_flags (initial cam bs tv cfg).
Proof.
  split; [apply initial_modes_registered|].
  intros s. destruct s; reflexivity.
Qed.

Section Display.
Variable intersectObjects : Vector3 -> Vector3 -> list Object3D -> list Intersect.
Variable localToWorld : Object3D -> Vector3 -> Vector3.
Variable slerp : Quaternion -> Quaternion -> float -> Quaternion.
Variable lookAt : Object3D -> Vector3 -> Quaternion.
Variable translateZ : float -> Object3D -> Object3D.
Variable moveCamera : float -> float -> Vector3 -> Object3D -> Object3D.
Variable translateBodies : float -> list Body -> list Body.
Variable rotateBodies : float -> list Body -> list Body.

Abbreviation run :=
  (session intersectObjects localToWorld slerp lookAt translateZ moveCamera
     translateBodies rotateBodies).
Abbreviation step :=
  (act intersectObjects localToWorld slerp lookAt translateZ moveCamera
     translateBodies rotateBodies).

(** X20. What is on display follows the flags.  After any session on the
    freshly loaded module, the HUD is shown and the controls are enabled
    exactly when the free mode is enabled, the overlay is shown and the
    clock is stopped exactly when the menu is enabled, and the [keydown]
    handler of auto flight, and that of the menu, is bound exactly when its
    mode is enabled: [enable()] and [disable()] of each mode switch the same
    things, and a [setMode] that throws has already switched off what
    belonged to the mode it left. *)
Theorem display_follows_the_flags cam bs tv cfg actions :
  let w := run actions (initial cam bs tv cfg) in
  is_on Hud (log w) = is_enabled "free" w /\
  is_on Controls (log w) = is_enabled "free" w /\
  is_on Overlay (log w) = is_enabled "menu" w /\
  is_on Clock_stopped (log w) = is_enabled "menu" w /\
  is_on Menu_keydown (log w) = is_enabled "menu" w /\
  is_on Auto_keydown (log w) = is_enabled "auto" w.
Proof.
  intros w.
  assert (Hw : display_follows_flags w).
  { unfold w. generalize (initial_display cam bs tv cfg).
    generalize (initial cam bs tv cfg). clear w.
    induction actions as [|a rest IH]; intros v Hv; cbn [session]; [exact Hv|].
    apply IH. destruct a as [name|body|self delta]; cbn [act].
    - apply setMode_display, Hv.
    - apply flyTo_display, Hv.
    - apply preserves_tick; [apply display_stable | exact Hv]. }
  destruct Hw as (_ & Hshow).
  repeat split; apply Hshow.
Qed.

End Display.

(** ** Who changes the flight mode *)

Ltac keeps_mode_step :=
  first
    [ apply preserves_bind; [|intros ?]
    | apply preserves_ret
    | apply preserves_throw
    | apply preserves_get
    | apply preserves_getTranslationSpeedMultiplier
    | apply preserves_each_intersect
    | apply preserves_modify; intros ? H; exact H
    | match goal with
      | |- preserves _ (if ?b then _ else _) => destruct b
      | |- preserves _ (match ?o with _ => _ end) => destruct o
      end ].

Section ModeChanges.
Variable intersectObjects : Vector3 -> Vector3 -> list Object3D -> list Intersect.
Variable localToWorld : Object3D -> Vector3 -> Vector3.
Variable slerp : Quaternion -> Quaternion -> float -> Quaternion.
Variable translateZ : float -> Object3D -> Object3D.
Variable moveCamera : float -> float -> Vector3 -> Object3D -> Object3D.
Variable translateBodies : float -> list Body -> list Body.
Variable rotateBodies : float -> list Body -> list Body.

Abbreviation tick :=
  (animate_callback intersectObjects localToWorld slerp translateZ moveCamera
     translateBodies rotateBodies).

Lemma free_animationFrame_keeps_mode c this delta :
  preserves (fun w => currentMode w = c)
    (free_animationFrame intersectObjects localToWorld moveCamera translateBodies
       rotateBodies this delta).
Proof.
  unfold free_animationFrame, colliding, free_getSpeed, hud_update, getSpeed, emit.
  repeat keeps_mode_step.
Qed.

Lemma pan_animationFrame_keeps_mode c body delta :
  preserves (fun w => currentMode w = c) (pan_animationFrame slerp body delta).
Proof.
  unfold pan_animationFrame, auto_update, translateTo, hud_update, getSpeed, emit.
  repeat keeps_mode_step.
Qed.

(** X21. Only the arrival of auto flight changes the flight mode from
    within.  A tick of whatever callback leaves [currentMode] as it is,
    unless the mode is enabled, its [animationFrame] is the translate closure
    for some Body, and that Body reports a collision with the camera: then
    the tick is [setMode('menu')].  Free flight and the pan phase never
    leave their mode by themselves. *)
Theorem only_arrival_changes_the_mode w self delta :
  currentMode (snd (tick self delta w)) = currentMode w \/
  exists m body,
    modes w !! self = Some m /\ enabled m = true /\
    animationFrame m = Frame_translate body /\
    isColliding body (camera w) = true /\
    snd (tick self delta w) = snd (setMode "menu" w).
Proof.
  unfold animate_callback. rewrite (bind_normal get _ w w w eq_refl).
  destruct (modes w !! self) as [m|] eqn:Hm; [|left; reflexivity].
  destruct (enabled m) eqn:Hen; cbn [negb]; [|left; reflexivity].
  destruct (animationFrame m) as [| | |body|body] eqn:Hframe; cbn [call_animationFrame].
  - left. reflexivity.
  - left. apply (free_animationFrame_keeps_mode (currentMode w)). reflexivity.
  - left. reflexivity.
  - left. apply (pan_animationFrame_keeps_mode (currentMode w)). reflexivity.
  - unfold translate_animationFrame. rewrite (bind_normal get _ w w w eq_refl).
    destruct (isColliding body (camera w)) eqn:Hhit.
    + right. exists m, body. repeat split; try assumption; try reflexivity.
      unfold bind. destruct (setMode "menu" w) as [[[]|] v]; reflexivity.
    + left.
      match goal with
      | |- currentMode (snd (?f w)) = _ =>
          assert (H : preserves (fun v => currentMode v = currentMode w) f)
      end.
      { unfold auto_update, hud_update, getSpeed, emit. repeat keeps_mode_step. }
      apply H. reflexivity.
Qed.

End ModeChanges.

(** ** Auto flight with nothing to do *)

Section Idle.
Variable intersectObjects : Vector3 -> Vector3 -> list Object3D -> list Intersect.
Variable localToWorld : Object3D -> Vector3 -> Vector3.
Variable slerp : Quaternion -> Quaternion -> float -> Quaternion.
Variable lookAt : Object3D -> Vector3 -> Quaternion.
Variable translateZ : float -> Object3D -> Object3D.
Variable moveCamera : float -> float -> Vector3 -> Object3D -> Object3D.
Variable translateBodies : float -> list Body -> list Body.
Variable rotateBodies : float -> list Body -> list Body.

Abbreviation tick :=
  (animate_callback intersectObjects localToWorld slerp translateZ moveCamera
     translateBodies rotateBodies).
Abbreviation run_ticks :=
  (ticks intersectObjects localToWorld slerp translateZ moveCamera
     translateBodies rotateBodies).

Lemma prototype_ticks_idle deltas w m :
  modes w !! "auto" = Some m -> enabled m = true ->
  animationFrame m = Frame_prototype ->
  run_ticks "auto" deltas w = w.
Proof.
  intros Hm Hen Hframe.
  induction deltas as [|delta rest IH]; cbn [ticks]; [reflexivity|].
  unfold animate_callback, bind, get. rewrite Hm, Hen. cbn [negb].
  rewrite Hframe. cbn [call_animationFrame ret]. exact IH.
Qed.

(** X22. Auto flight with nothing to do idles.  The auto mode starts with
    the prototype's [animationFrame], which does nothing, and only [panTo]
    replaces it.  [panTo] reads [body.mesh], which the Body constructor does
    not set: for such a Body [flyTo] throws after it has set the notice and
    switched [time-on] off, and installs no closure.  Auto flight is then
    enabled with the prototype's [animationFrame]: every tick asks to go on
    and changes nothing, the HUD included. *)
Theorem auto_flight_idles_without_a_manoeuvre w body deltas :
  modes_registered w ->
  currentMode w <> "auto" ->
  auto_frame w = Some Frame_prototype ->
  mesh body = None ->
  let w1 := snd (setMode "auto" w) in
  let w2 := snd (flyTo lookAt body w1) in
  (forall kmPerAu options positionScale p,
     mesh (scalePositionFromArray positionScale p (new_Body kmPerAu options)) = None) /\
  run_ticks "auto" deltas w1 = w1 /\
  fst (flyTo lookAt body w1) = Thrown /\
  time_on (config w2) = false /\
  modes w2 = modes w1 /\
  is_enabled "auto" w2 = true /\
  run_ticks "auto" deltas w2 = w2.
Proof.
  intros Hreg Hne Hframe Hmesh w1 w2.
  split; [reflexivity|].
  destruct (setMode_auto_enters w Hreg Hne) as (_ & m & Hm & Hen).
  fold w1 in Hm.
  assert (Hframe1 : animationFrame m = Frame_prototype).
  { pose proof (setMode_auto_frame "auto" w) as H. fold w1 in H.
    rewrite Hframe in H. unfold auto_frame in H. rewrite Hm in H.
    injection H as H. exact H. }
  assert (Hmodes : modes w2 = modes w1).
  { unfold w2, flyTo, panTo, bind, get, emit, modify. rewrite Hmesh. reflexivity. }
  split; [apply (prototype_ticks_idle deltas w1 m); assumption|].
  split.
  { unfold flyTo, panTo, bind, get, emit, modify. rewrite Hmesh. reflexivity. }
  split.
  { unfold w2. rewrite flyTo_config. reflexivity. }
  split; [exact Hmodes|].
  assert (Hm2 : modes w2 !! "auto" = Some m) by (rewrite Hmodes; exact Hm).
  split; [unfold is_enabled; rewrite Hm2; exact Hen|].
  apply (prototype_ticks_idle deltas w2 m); assumption.
Qed.

End Idle.

Lemma auto_flight_idles_without_a_manoeuvre_witness :
  let w2 := snd (flyTo demo_lookAt Earth (snd (setMode "auto" in_menu))) in
  demo_ticks "auto" (repeat 0.05%float 100) w2 = w2.
Proof.
  intros w2.
  apply (auto_flight_idles_without_a_manoeuvre demo_intersectObjects
           demo_localToWorld demo_slerp demo_lookAt demo_translateZ
           demo_moveCamera demo_translateBodies demo_rotateBodies in_menu Earth
           (repeat 0.05%float 100)).
  - apply setModes_well_formed, initial_well_formed.
  - vm_compute. discriminate.
  - vm_compute. reflexivity.
  - reflexivity.
Defined.
